(** * Haiku-Generator: the composition engine of [src/App.tsx]

    A shallow embedding of the haiku composer (seeded generator, syllable
    counting, imagery extraction, topic classification, the two line packers,
    the loose fallback and the 5-7-5 verifier), followed by the properties
    established about it.

    Conventions of the embedding.
    - A JavaScript string is a [string]; each [ascii] stands for one code
      unit below 256 (Latin-1).  [toLowerCase] and the white-space class
      [\s] are the restrictions of the JavaScript ones to that range.
    - Syllable counts, targets and word counts are [nat]; seeds and the
      state of the generator are [Z].
    - The RiTa library is not part of the repository: its three entry points
      used by the code are the fields of a record [RiTaLib].
    - A closure [rand : () => number] is a state type together with a
      function from a state to a draw and the next state.  A draw is
      represented by its numerator [k]: the number returned is [k / 2^32]. *)

From Stdlib Require Import ZArith List Bool Arith Lia String Ascii.
Import ListNotations.

Local Open Scope string_scope.
Local Open Scope list_scope.
Local Open Scope nat_scope.

(** ** JavaScript primitives used by the code *)

Module JS.

(** Code unit of a character. *)
Definition code (c : ascii) : N := N_of_ascii c.

(** The class [\s] on code units below 256: tab, line feed, vertical tab,
    form feed, carriage return, space and the no-break space. *)
Definition is_space (c : ascii) : bool :=
  let n := code c in
  (((9 <=? n) && (n <=? 13)) || (n =? 32) || (n =? 160))%N.

(** The class [[a-z]] under the flag [i]. *)
Definition is_letter (c : ascii) : bool :=
  let n := code c in
  (((65 <=? n) && (n <=? 90)) || ((97 <=? n) && (n <=? 122)))%N.

Definition lower_char (c : ascii) : ascii :=
  let n := code c in
  if (((65 <=? n) && (n <=? 90))
      || ((192 <=? n) && (n <=? 222) && negb (n =? 215)))%N
  then ascii_of_N (n + 32) else c.

(** [s.toLowerCase()] *)
Fixpoint toLowerCase (s : string) : string :=
  match s with
  | EmptyString => EmptyString
  | String c s' => String (lower_char c) (toLowerCase s')
  end.

(** [Boolean(s)] on a string: the empty string is the only falsy one. *)
Definition truthy (s : string) : bool :=
  match s with EmptyString => false | _ => true end.

(** [/[a-z]/i.test(s)] *)
Fixpoint has_letter (s : string) : bool :=
  match s with
  | EmptyString => false
  | String c s' => is_letter c || has_letter s'
  end.

(** [s.startsWith(p)] *)
Fixpoint startsWith (s p : string) : bool :=
  match p, s with
  | EmptyString, _ => true
  | String _ _, EmptyString => false
  | String a p', String b s' => Ascii.eqb a b && startsWith s' p'
  end.

(** [s.includes(p)] on strings: [p] occurs in [s] at some position. *)
Fixpoint str_includes (s p : string) : bool :=
  startsWith s p ||
  match s with
  | EmptyString => false
  | String _ s' => str_includes s' p
  end.

(** [arr.includes(x)] on an array of strings. *)
Definition includes (arr : list string) (x : string) : bool :=
  existsb (String.eqb x) arr.

(** [s.split(sep)] for a separator of one character. *)
Fixpoint split (sep : ascii) (s : string) : list string :=
  match s with
  | EmptyString => [EmptyString]
  | String c s' =>
      if Ascii.eqb c sep then EmptyString :: split sep s'
      else match split sep s' with
           | h :: t => String c h :: t
           | [] => [String c EmptyString]
           end
  end.

(** [s.split(/\s+/)]: the separators are the maximal runs of white space.
    [after_space] tells that the previous character belonged to a run. *)
Fixpoint split_spaces_from (after_space : bool) (s : string) : list string :=
  match s with
  | EmptyString => [EmptyString]
  | String c s' =>
      if is_space c then
        if after_space then split_spaces_from true s'
        else EmptyString :: split_spaces_from true s'
      else match split_spaces_from false s' with
           | h :: t => String c h :: t
           | [] => [String c EmptyString]
           end
  end.

Definition split_spaces (s : string) : list string :=
  split_spaces_from false s.

(** [arr.join(sep)] *)
Fixpoint join (sep : string) (arr : list string) : string :=
  match arr with
  | [] => EmptyString
  | [x] => x
  | x :: rest => (x ++ sep ++ join sep rest)%string
  end.

(** [arr.slice(n)] and [arr.slice(0, n)] for [n >= 0]. *)
Definition slice_from {A} (n : nat) (arr : list A) : list A := skipn n arr.
Definition slice_to {A} (n : nat) (arr : list A) : list A := firstn n arr.

(** [arr.sort(cmp)]: the sort is stable, so for a comparator that compares
    keys the result is the stable insertion sort of the array. *)
Section Sort.
Context {A : Type} (cmp : A -> A -> Z).

Fixpoint insert (x : A) (l : list A) : list A :=
  match l with
  | [] => [x]
  | y :: l' => if (cmp x y <=? 0)%Z then x :: y :: l' else y :: insert x l'
  end.

Fixpoint sort (l : list A) : list A :=
  match l with
  | [] => []
  | x :: l' => insert x (sort l')
  end.
End Sort.

(** 32-bit conversions of an integer-valued number: the low 32 bits of
    its two's complement, read as unsigned or as signed. *)
Definition two32 : Z := 4294967296.
Definition ToUint32 (x : Z) : Z := Z.land x 4294967295.
Definition ToInt32 (x : Z) : Z :=
  let u := ToUint32 x in
  if (u <? 2147483648)%Z then u else (u - two32)%Z.

(** [a ^ b], [a | b], [a >>> n], [Math.imul(a, b)] *)
Definition xor (a b : Z) : Z := Z.lxor (ToInt32 a) (ToInt32 b).
Definition or (a b : Z) : Z := Z.lor (ToInt32 a) (ToInt32 b).
Definition ushr (a n : Z) : Z := Z.shiftr (ToUint32 a) n.
Definition imul (a b : Z) : Z := ToInt32 (ToInt32 a * ToInt32 b).

(** [x || 1] on a number: 0 is the falsy integer. *)
Definition or_else (x d : Z) : Z := if (x =? 0)%Z then d else x.

End JS.

(** ** Seeded generator *)

(** A draw [k] stands for the number [k / 2^32].  [draw_lt k num den] is the
    comparison [k / 2^32 < num / den]; the code compares with 0.42 and 0.5,
    and no multiple of [1 / 2^32] lies within a rounding error of either. *)
Definition draw_lt (k : Z) (num den : Z) : bool :=
  (k * den <? num * JS.two32)%Z.

(** [Math.floor(rand() * n)]: the product [k * n / 2^32] is exact in double
    precision for every [n] below 2^21. *)
Definition draw_index (k : Z) (n : nat) : nat :=
  Z.to_nat (k * Z.of_nat n / JS.two32).

(** The closure returned by [mulberry32(seed)] owns one variable [t].
    [t += 0x6D2B79F5] is an addition of numbers: [t] is not wrapped, and
    stays an exact integer for more than four million draws. *)
Definition mulberry32 (seed : Z) : Z := JS.ToUint32 seed.

Definition mulberry32_rand (t : Z) : Z * Z :=
  let t := (t + 1831565813)%Z in
  let r := JS.imul (JS.xor t (JS.ushr t 15)) (JS.or 1 t) in
  let r := JS.xor r (r + JS.imul (JS.xor r (JS.ushr r 7)) (JS.or 61 r))%Z in
  (JS.ToUint32 (JS.xor r (JS.ushr r 14)), t).

(** ** The RiTa library *)

(** The three entry points of RiTa the code calls.  [syllables] answers
    [None] when the value returned is not a string. *)
Record RiTaLib : Type := {
  syllables : string -> option string;
  tokenize : string -> list string;
  pos : list string -> list string
}.

Section RiTaHelpers.

Variable RiTa : RiTaLib.

Definition syllablesInWord (word : string) : nat :=
  if negb (JS.truthy word) || negb (JS.has_letter word) then 0
  else match syllables RiTa word with
       | None => 0
       | Some sylStr =>
           if negb (JS.truthy sylStr) then 0
           else
             let n := List.length (filter JS.truthy (JS.split "/" sylStr)) in
             if 0 <? n then n else 1
       end.

Definition tokenizePOS (text : string) : list string * list string :=
  let tokens := tokenize RiTa text in
  (tokens, pos RiTa tokens).

(** The loop of [imageryWords], from index [i] on; [rest] is
    [tokens.slice(i)] and [pos[i] || ""] is [nth i pos ""]. *)
Fixpoint imageryWords_from (pos : list string) (i : nat) (rest : list string)
  : list string :=
  match rest with
  | [] => []
  | tok :: rest' =>
      let t := JS.toLowerCase tok in
      let tag := JS.toLowerCase (nth i pos "") in
      if (JS.startsWith tag "nn" || JS.startsWith tag "jj")
         && negb (JS.includes ["other"; "another"] t)
      then t :: imageryWords_from pos (S i) rest'
      else imageryWords_from pos (S i) rest'
  end.

Definition imageryWords (text : string) : list string :=
  let '(tokens, pos) := tokenizePOS text in
  imageryWords_from pos 0 tokens.

End RiTaHelpers.

(** ** Topic lock *)

Inductive TopicKey : Type := beach | forest | mountain | snow | city | generic.

Definition TopicKey_eqb (a b : TopicKey) : bool :=
  match a, b with
  | beach, beach | forest, forest | mountain, mountain
  | snow, snow | city, city | generic, generic => true
  | _, _ => false
  end.

(** [Object.keys(TOPIC_KEYWORDS)], in insertion order. *)
Definition topic_keys : list TopicKey :=
  [beach; forest; mountain; snow; city; generic].

Definition TOPIC_KEYWORDS (k : TopicKey) : list string :=
  match k with
  | beach => ["beach";"ocean";"sea";"sand";"sandy";"dune";"tide";"wave";"waves";
              "surf";"shore";"sunblock";"sunglasses";"volleyball";"seagull";
              "pelican";"pier"]
  | forest => ["forest";"woods";"pine";"pines";"fir";"trail";"moss";"fern";
               "ferns";"brook"]
  | mountain => ["mountain";"peak";"peaks";"ridge";"summit";"alpine";"scree";
                 "cliff"]
  | snow => ["snow";"ice";"frost";"winter";"icicle";"blizzard";"white";"hush"]
  | city => ["city";"street";"streets";"subway";"traffic";"neon";"pavement";
             "market";"downtown";"skyline"]
  | generic => []
  end.

Record Fillers : Type := {
  f1 : list string;
  f2 : list string;
  nouns : list string;
  banned : option (list string);
  kigo : option (list string)
}.

Definition TOPIC_FILLERS (k : TopicKey) : Fillers :=
  match k with
  | beach =>
      {| f1 := ["warm";"bright";"soft";"salt";"cool";"clear"];
         f2 := ["sunlit";"silver";"quiet"];
         nouns := ["ocean";"sea";"shore";"sand";"dune";"dunes";"tide";"tides";
                   "wave";"waves";"foam";"surf";"shell";"shells";"seagull";
                   "seagulls";"sunglasses";"sunblock";"volleyball";"umbrella";
                   "boardwalk";"pier"];
         banned := Some ["snow";"ice";"winter";"icicle";"frost";"drifts";
                         "white";"hush"];
         kigo := Some ["hot sand";"salt wind";"bright noon";"summer heat"] |}
  | forest =>
      {| f1 := ["green";"soft";"moss";"pine";"fern"];
         f2 := ["quiet";"shadow"];
         nouns := ["pines";"moss";"fern";"ferns";"trail";"shade";"needles";
                   "trunk";"leaf";"leaves";"understory";"brook"];
         banned := None;
         kigo := Some ["spring rain";"green shade"] |}
  | mountain =>
      {| f1 := ["thin";"high";"cold";"clear"];
         f2 := ["silent";"autumn"];
         nouns := ["ridge";"peaks";"summit";"scree";"cliff";"crag";"alpine"];
         banned := None;
         kigo := Some ["autumn wind";"cold moon"] |}
  | snow =>
      {| f1 := ["white";"cold";"still"];
         f2 := ["winter";"silent"];
         nouns := ["snow";"drifts";"ice";"icicle";"frost";"tracks";"breath"];
         banned := None;
         kigo := Some ["winter dusk";"snow hush";"cold moon"] |}
  | city =>
      {| f1 := ["neon";"warm";"late"];
         f2 := ["silver";"quiet"];
         nouns := ["street";"streets";"traffic";"neon";"pavement";"window";
                   "windows";"market";"skyline"];
         banned := None;
         kigo := Some ["summer heat";"night lights"] |}
  | generic =>
      {| f1 := ["still";"soft";"near";"calm";"slow"];
         f2 := ["quiet";"silver";"softly"];
         nouns := ["river";"stones";"reeds";"shore";"forest";"wind";"shadow";
                   "moon";"water"];
         banned := None;
         kigo := None |}
  end.

(** [x || []] on an optional field. *)
Definition or_empty (x : option (list string)) : list string :=
  match x with Some l => l | None => [] end.

(** The reducer of line 99: the score of one topic against the lower-cased
    tokens. *)
Definition keyword_score (lower : list string) (s : nat) (kw : string) : nat :=
  s + (if JS.includes lower kw then 2 else 0)
    + (if existsb (fun t => JS.str_includes t kw) lower then 1 else 0).

Definition topic_score (lower : list string) (k : TopicKey) : nat :=
  fold_left (keyword_score lower) (TOPIC_KEYWORDS k) 0.

Definition scoreTopic (tokens : list string) : TopicKey :=
  let lower := map JS.toLowerCase tokens in
  let scores := map (fun k => (k, topic_score lower k)) topic_keys in
  let sorted :=
    JS.sort (fun a b => (Z.of_nat (snd b) - Z.of_nat (snd a))%Z) scores in
  match sorted with
  | best :: _ => if 0 <? snd best then fst best else generic
  | [] => generic
  end.

(** ** Glue words *)

Definition GLUE_WORDS : list string :=
  ["the";"a";"in";"on";"by";"with";"of";"to";"and";"at";"near";"under";"over";
   "through";"into";"from";"for";"as";"where";"along";"over"].

Definition GLUE_SET : list string := map JS.toLowerCase GLUE_WORDS.

Definition isGlue (w : string) : bool :=
  JS.includes GLUE_SET (JS.toLowerCase w).

(** ** Loops *)

(** A [while] or [for] loop of the code is a test and a body on the loop's
    variables.  [while] runs it for at most [fuel] iterations; [runs] is the
    loop itself, with the number of times its body is executed.  Every loop
    below is given the ceiling of the code as fuel, and is shown to leave
    through its own test within that many iterations. *)
Section While.

Context {St : Type}.
Variable test : St -> bool.
Variable body : St -> St.

Fixpoint while (fuel : nat) (s : St) : St :=
  match fuel with
  | 0 => s
  | S fuel' => if test s then while fuel' (body s) else s
  end.

Inductive runs : St -> nat -> St -> Prop :=
| runs_exit : forall s, test s = false -> runs s 0 s
| runs_iter : forall s n s',
    test s = true -> runs (body s) n s' -> runs s (S n) s'.

End While.

(** [Math.ceil(n * num / den)] for the factors 0.6 and 0.5 of the code.  The
    double nearest to [n * 0.6] is the integer [3n/5] whenever that is an
    integer, so the ceiling computed by the code is the exact one. *)
Definition ceil_mul (n num den : nat) : nat := (n * num + (den - 1)) / den.

(** ** Natural packers *)

Section Packers.

Variable RiTa : RiTaLib.

(** The closure [rand]: its state, and one call. *)
Variable Rand : Type.
Variable rand : Rand -> Z * Rand.

Local Abbreviation syl_of := (syllablesInWord RiTa).

(** [pick(rand, arr, fallback)].  [rand] is called only when [arr] is not
    empty; the index is below [arr.length] for every draw in [0, 1), so the
    default of [nth] is never read. *)
Definition pick {T : Type} (r : Rand) (arr : list T) (fallback : T)
  : T * Rand :=
  match arr with
  | [] => (fallback, r)
  | _ :: _ =>
      let '(k, r') := rand r in
      (nth (draw_index k (List.length arr)) arr fallback, r')
  end.

Definition by_syllables (a b : string) : Z :=
  (Z.of_nat (syl_of a) - Z.of_nat (syl_of b))%Z.

Definition nonempty {T : Type} (arr : list T) : bool :=
  match arr with [] => false | _ => true end.

(** *** [packNatural] *)

(** Variables of the growth loop (lines 119-135). *)
Record Grow : Type := {
  g_words : list string;
  g_syl : nat;
  g_guard : nat;
  g_rand : Rand;
  g_break : bool
}.

Section Natural.

(** [imagerySorted] and [glueSorted] of lines 113-114 are computed once
    per call, before the attempts. *)
Variable imagerySorted : list string.
Variable glueSorted : list string.
Variable target : nat.
Variable minWords : nat.

(** [syl < target && guard++ < 160] *)
Definition grow_test (s : Grow) : bool :=
  negb (g_break s) && (g_syl s <? target) && (g_guard s <? 160).

(** [preferGlue()]: [rand] is called only on a line that has words. *)
Definition preferGlue (s : Grow) : bool * Rand :=
  if 0 <? List.length (g_words s) then
    let '(k, r') := rand (g_rand s) in (draw_lt k 42 100, r')
  else (false, g_rand s).

(** [fits] of line 124 and [alt] of line 126. *)
Definition fits_of (syl : nat) (source : list string) : list string :=
  filter (fun w => (0 <? syl_of w) && (syl + syl_of w <=? target)) source.

Definition alt_of (syl : nat) (source : list string) : list string :=
  filter (fun w => syl + syl_of w <=? target) source.

(** [pickPool] of lines 130-132. *)
Definition pickPool_of (fits : list string) : list string :=
  let short := filter (fun w => syl_of w =? 1) fits in
  let two := filter (fun w => syl_of w =? 2) fits in
  if nonempty short then short else if nonempty two then two else fits.

(** [words.push(w); syl += syllablesInWord(w)] after a pick. *)
Definition push (s : Grow) (picked : string * Rand) : Grow :=
  {| g_words := g_words s ++ [fst picked];
     g_syl := g_syl s + syl_of (fst picked);
     g_guard := S (g_guard s); g_rand := snd picked; g_break := false |}.

(** [continue] and [break], after the draw of [preferGlue]. *)
Definition skip (s : Grow) (r : Rand) : Grow :=
  {| g_words := g_words s; g_syl := g_syl s; g_guard := S (g_guard s);
     g_rand := r; g_break := false |}.

Definition stop (s : Grow) (r : Rand) : Grow :=
  {| g_words := g_words s; g_syl := g_syl s; g_guard := S (g_guard s);
     g_rand := r; g_break := true |}.

Definition grow_body (s : Grow) : Grow :=
  let words := g_words s in
  let syl := g_syl s in
  let addGlue := fst (preferGlue s) in
  let r1 := snd (preferGlue s) in
  let source := if addGlue then glueSorted else imagerySorted in
  if addGlue && (0 <? List.length words) && isGlue (last words "") then
    skip s r1
  else
    let fits := fits_of syl source in
    if negb (nonempty fits) then
      let alt :=
        alt_of syl (if negb addGlue then glueSorted else imagerySorted) in
      if negb (nonempty alt) then stop s r1
      else push s (pick r1 alt (hd "" alt))
    else
      let pickPool := pickPool_of fits in
      push s (pick r1 pickPool (hd "" pickPool)).

Definition grow_start (r : Rand) : Grow :=
  {| g_words := []; g_syl := 0; g_guard := 0; g_rand := r;
     g_break := false |}.

Definition grow (r : Rand) : Grow :=
  while grow_test grow_body 160 (grow_start r).

(** The test of lines 137-139 on a finished line. *)
Definition natural_enough (words : list string) : bool :=
  let imageryCount :=
    List.length (filter (fun w => negb (isGlue w)) words) in
  let glueCount := List.length words - imageryCount in
  (minWords <=? List.length words)
  && (ceil_mul minWords 3 5 <=? imageryCount)
  && (glueCount <=? ceil_mul (List.length words) 1 2).

(** Variables of the attempt loop (lines 116-142); [n_result] is set by
    the [return] of line 140. *)
Record NaturalAttempt : Type := {
  n_attempt : nat;
  n_rand : Rand;
  n_result : option (list string)
}.

Definition natural_test (s : NaturalAttempt) : bool :=
  (n_attempt s <? 36)
  && match n_result s with None => true | Some _ => false end.

Definition natural_body (s : NaturalAttempt) : NaturalAttempt :=
  let g := grow (n_rand s) in
  if negb (g_syl g =? target) then
    {| n_attempt := S (n_attempt s); n_rand := g_rand g;
       n_result := None |}
  else if natural_enough (g_words g) then
    {| n_attempt := n_attempt s; n_rand := g_rand g;
       n_result := Some (g_words g) |}
  else
    {| n_attempt := S (n_attempt s); n_rand := g_rand g;
       n_result := None |}.

Definition natural_start (r : Rand) : NaturalAttempt :=
  {| n_attempt := 0; n_rand := r; n_result := None |}.

End Natural.

Definition packNatural (pool : list string) (target : nat) (topic : TopicKey)
           (r : Rand) (minWords : nat) : option (list string) * Rand :=
  let imagerySorted := JS.sort by_syllables pool in
  let glueSorted := JS.sort by_syllables GLUE_WORDS in
  let s := while natural_test
                 (natural_body imagerySorted glueSorted target minWords) 36
                 (natural_start r) in
  (n_result s, n_rand s).

(** *** [packExact] *)

(** Variables of the scan of the rotated pool (lines 155-161). *)
Record Scan : Type := {
  sc_i : nat;
  sc_line : list string;
  sc_syl : nat;
  sc_used : list nat
}.

(** Variables of the loop over the two passes (lines 154-175). *)
Record Pass : Type := {
  p_pass : nat;
  p_line : list string;
  p_syl : nat;
  p_used : list nat;
  p_rand : Rand;
  p_break : bool
}.

(** Variables of the attempt loop (lines 148-177). *)
Record ExactAttempt : Type := {
  e_attempt : nat;
  e_rand : Rand;
  e_result : option (list string)
}.

Section Exact.

Variable pool : list string.
Variable target : nat.
Variable topic : TopicKey.

Definition fillers : list string :=
  f1 (TOPIC_FILLERS topic) ++ f2 (TOPIC_FILLERS topic).

Section Rotated.

Variable rotated : list string.

(** [i < rotated.length && syl < target] *)
Definition scan_test (s : Scan) : bool :=
  (sc_i s <? List.length rotated) && (sc_syl s <? target).

Definition scan_body (s : Scan) : Scan :=
  let i := sc_i s in
  let next :=
    {| sc_i := S i; sc_line := sc_line s; sc_syl := sc_syl s;
       sc_used := sc_used s |} in
  if existsb (Nat.eqb i) (sc_used s) then next
  else
    let w := nth i rotated "" in
    let n := syl_of w in
    if n =? 0 then next
    else if sc_syl s + n <=? target then
      {| sc_i := S i; sc_line := sc_line s ++ [w];
         sc_syl := sc_syl s + n; sc_used := i :: sc_used s |}
    else next.

Definition scan (line : list string) (syl : nat) (used : list nat)
  : Scan :=
  while scan_test scan_body (List.length rotated)
        {| sc_i := 0; sc_line := line; sc_syl := syl;
           sc_used := used |}.

(** [pass < 2] *)
Definition pass_test (s : Pass) : bool :=
  negb (p_break s) && (p_pass s <? 2).

(** The fillers of [n] syllables (lines 165, 168 and 171). *)
Definition fillers_of (n : nat) : list string :=
  filter (fun w => syl_of w =? n) fillers.

Definition pass_body (s : Pass) : Pass :=
  let sc := scan (p_line s) (p_syl s) (p_used s) in
  let line := sc_line sc in
  let syl := sc_syl sc in
  let used := sc_used sc in
  let next_pass line syl r :=
    {| p_pass := S (p_pass s); p_line := line; p_syl := syl;
       p_used := used; p_rand := r; p_break := false |} in
  let fill n :=
    let some := fillers_of n in
    if nonempty some then
      let picked := pick (p_rand s) some (hd "" some) in
      next_pass (line ++ [fst picked]) (syl + n) (snd picked)
    else next_pass line syl (p_rand s) in
  if syl =? target then
    {| p_pass := p_pass s; p_line := line; p_syl := syl;
       p_used := used; p_rand := p_rand s; p_break := true |}
  else if syl <? target then
    let need := target - syl in
    let exact := fillers_of need in
    if nonempty exact then
      let picked := pick (p_rand s) exact (hd "" exact) in
      {| p_pass := p_pass s; p_line := line ++ [fst picked];
         p_syl := target; p_used := used; p_rand := snd picked;
         p_break := true |}
    else if 2 <=? need then fill 2
    else fill 1
  else next_pass line syl (p_rand s).

Definition passes (r : Rand) : Pass :=
  while pass_test pass_body 2
        {| p_pass := 0; p_line := []; p_syl := 0; p_used := [];
           p_rand := r; p_break := false |}.

End Rotated.

(** [attempt <= 5] *)
Definition exact_test (s : ExactAttempt) : bool :=
  (e_attempt s <=? 5)
  && match e_result s with None => true | Some _ => false end.

Definition exact_body (s : ExactAttempt) : ExactAttempt :=
  let k := fst (rand (e_rand s)) in
  let r1 := snd (rand (e_rand s)) in
  let shift := e_attempt s * 3 + draw_index k 3 in
  let rotated :=
    if nonempty pool
    then JS.slice_from shift pool ++ JS.slice_to shift pool
    else [] in
  let p := passes rotated r1 in
  if p_syl p =? target then
    {| e_attempt := e_attempt s; e_rand := p_rand p;
       e_result := Some (p_line p) |}
  else
    {| e_attempt := S (e_attempt s); e_rand := p_rand p;
       e_result := None |}.

End Exact.

Definition packExact (pool : list string) (target : nat) (topic : TopicKey)
           (r : Rand) : option (list string) * Rand :=
  let s := while exact_test (exact_body pool target topic) 6
                 {| e_attempt := 0; e_rand := r; e_result := None |} in
  (e_result s, e_rand s).

End Packers.

Arguments g_words {Rand}.
Arguments g_syl {Rand}.
Arguments g_guard {Rand}.
Arguments g_rand {Rand}.
Arguments g_break {Rand}.
Arguments n_attempt {Rand}.
Arguments n_rand {Rand}.
Arguments n_result {Rand}.
Arguments p_pass {Rand}.
Arguments p_line {Rand}.
Arguments p_syl {Rand}.
Arguments p_used {Rand}.
Arguments p_rand {Rand}.
Arguments p_break {Rand}.
Arguments e_attempt {Rand}.
Arguments e_rand {Rand}.
Arguments e_result {Rand}.

(** ** Loose fallback and the verifier *)

(** Variables of the loop of line 204 over the imagery words. *)
Record Loose : Type := {
  l_i : nat;
  l_out : list string;
  l_syl : nat;
  l_break : bool
}.

Section Fallback.

Variable RiTa : RiTaLib.

Local Abbreviation syl_of := (syllablesInWord RiTa).

Section Line.

Variable pool : list string.
Variable t : nat.

Definition loose_test (s : Loose) : bool :=
  negb (l_break s) && (l_i s <? List.length pool).

Definition loose_body (s : Loose) : Loose :=
  let w := nth (l_i s) pool "" in
  let n := syl_of w in
  let '(out, syl) :=
    if l_syl s + n <=? t then (l_out s ++ [w], l_syl s + n)
    else (l_out s, l_syl s) in
  {| l_i := S (l_i s); l_out := out; l_syl := syl;
     l_break := syl =? t |}.

Definition loose_line : string :=
  JS.join " "
    (l_out (while loose_test loose_body (List.length pool)
                  {| l_i := 0; l_out := []; l_syl := 0;
                     l_break := false |})).

End Line.

Definition fallbackLoose (text : string) : string :=
  let pool := imageryWords RiTa text in
  let lines := map (loose_line pool) [5; 7; 5] in
  JS.join (String (ascii_of_nat 10) "") lines.

Definition countLine (line : string) : nat :=
  fold_left (fun s w => s + syl_of w)
            (filter JS.truthy (JS.split_spaces line)) 0.

(** [const [a="", b="", c=""] = haiku.split("\n")] *)
Definition count575 (haiku : string) : list nat :=
  let parts := JS.split (ascii_of_nat 10) haiku in
  let a := nth 0 parts "" in
  let b := nth 1 parts "" in
  let c := nth 2 parts "" in
  [countLine a; countLine b; countLine c].

End Fallback.

(** ** Compose strict 5-7-5 *)

(** The filter of line 190: keep the first occurrence of every word, compared
    in lower case; [seen] is the set built so far. *)
Fixpoint unique_from (seen : list string) (pool : list string) : list string :=
  match pool with
  | [] => []
  | w :: rest =>
      let k := JS.toLowerCase w in
      if JS.includes seen k then unique_from seen rest
      else w :: unique_from (k :: seen) rest
  end.

Section Compose.

Variable RiTa : RiTaLib.
Variable Rand : Type.
Variable rand : Rand -> Z * Rand.

(** Lines 184-185. *)
Definition topicOf (text : string) : TopicKey :=
  let rawTokens :=
    filter JS.truthy (JS.split_spaces (JS.toLowerCase text)) in
  scoreTopic rawTokens.

(** Lines 186-190. *)
Definition uniquePool (text : string) : list string :=
  let topic := topicOf text in
  let banned :=
    map JS.toLowerCase (or_empty (banned (TOPIC_FILLERS topic))) in
  let pool :=
    filter (fun w => negb (JS.includes banned w)) (imageryWords RiTa text)
    ++ nouns (TOPIC_FILLERS topic) in
  unique_from [] pool.

(** Lines 191-193: the pool the packers work on, and the generator after
    the draws for the seasonal phrase. *)
Definition workingPool (text : string) (r : Rand) : list string * Rand :=
  let topic := topicOf text in
  let kigo := or_empty (kigo (TOPIC_FILLERS topic)) in
  let '(kigoTokens, r2) :=
    if nonempty kigo then
      let '(k, r1) := rand r in
      if draw_lt k 1 2 then
        let '(phrase, r2) := pick Rand rand r1 kigo (hd "" kigo) in
        (JS.split " " phrase, r2)
      else ([], r1)
    else ([], r) in
  (kigoTokens ++ uniquePool text, r2).

(** [packNatural(...) || packExact(...)]: an array is truthy, [null] is
    not, and [packExact] is called only after [null]. *)
Definition packLine (pool : list string) (target : nat) (topic : TopicKey)
           (r : Rand) (minWords : nat) : option (list string) * Rand :=
  match packNatural RiTa Rand rand pool target topic r minWords with
  | (Some line, r') => (Some line, r')
  | (None, r') => packExact RiTa Rand rand pool target topic r'
  end.

(** Lines 194-196: the three lines of the strict path. *)
Definition strictLines (text : string) (r : Rand)
  : option (list string) * option (list string) * option (list string) :=
  let topic := topicOf text in
  let '(pool, r0) := workingPool text r in
  let '(L1, r1) := packLine pool 5 topic r0 3 in
  let '(L2, r2) := packLine pool 7 topic r1 4 in
  let '(L3, _) := packLine pool 5 topic r2 3 in
  (L1, L2, L3).

(** Lines 194-198, from the generator on. *)
Definition composeFrom (text : string) (r : Rand) : string :=
  match strictLines text r with
  | (Some L1, Some L2, Some L3) =>
      JS.join (String (ascii_of_nat 10) "")
              [JS.join " " L1; JS.join " " L2; JS.join " " L3]
  | _ => fallbackLoose RiTa text
  end.

End Compose.

Definition composeHaikuRiTa (RiTa : RiTaLib) (text : string) (seed : Z)
  : string :=
  composeFrom RiTa Z mulberry32_rand text (mulberry32 (JS.or_else seed 1)).

(** ** Closures in a store *)

(** The variables captured by the closures made so far: every call of
    [mulberry32] makes a new variable [t] (line 31), and the closure it
    returns is the only code that reads and writes it.  A closure is the
    location of its variable. *)
Definition Store : Type := list Z.

Fixpoint store_set (l : nat) (v : Z) (st : Store) : Store :=
  match st, l with
  | [], _ => []
  | _ :: rest, 0 => v :: rest
  | x :: rest, S l' => x :: store_set l' v rest
  end.




(** ** A concrete RiTa for examples *)

(** A small stand-in for the library, used to run the code on concrete
    inputs: a tokenizer that cuts at white space, a tagger and a syllable
    table for the vocabulary of the topic tables. *)
Module Demo.

Definition tokenize (text : string) : list string :=
  filter JS.truthy (JS.split_spaces text).

Definition adjectives : list string :=
  ["warm";"bright";"soft";"cool";"clear";"cold";"still";"green";"quiet";
   "silent";"high";"thin";"late";"calm";"slow"].

Definition verbs : list string :=
  ["crashed";"is";"was";"were";"went";"walked";"saw"].

Definition is_digit (c : ascii) : bool :=
  ((48 <=? JS.code c) && (JS.code c <=? 57))%N.

(** Glue words are determiners or prepositions, the listed adjectives and
    verbs are tagged as such, numbers are cardinals, and any other token
    is a noun. *)
Definition tag (tok : string) : string :=
  let t := JS.toLowerCase tok in
  if isGlue t then (if String.eqb t "the" || String.eqb t "a" then "dt" else "in")
  else if JS.includes adjectives t then "jj"
  else if JS.includes verbs t then "vbd"
  else if JS.has_letter t then "nn"
  else if forallb is_digit (list_ascii_of_string t) then "cd"
  else "nn".

(** Words of more than one syllable, with their segments. *)
Definition segments : list (string * string) :=
  [("ocean","ow/sh-ah-n"); ("seagull","s-iy/g-ah-l");
   ("seagulls","s-iy/g-ah-l-z"); ("sunglasses","s-ah-n/g-l-ae/s-ih-z");
   ("sunblock","s-ah-n/b-l-aa-k"); ("volleyball","v-aa/l-iy/b-ao-l");
   ("umbrella","ah-m/b-r-eh/l-ah"); ("boardwalk","b-ao-r-d/w-ao-k");
   ("needles","n-iy/d-ah-l-z"); ("understory","ah-n/d-er/s-t-ao/r-iy");
   ("summit","s-ah/m-ah-t"); ("alpine","ae-l/p-ay-n");
   ("icicle","ay/s-ih/k-ah-l"); ("traffic","t-r-ae/f-ih-k");
   ("neon","n-iy/aa-n"); ("pavement","p-ey-v/m-ah-n-t");
   ("window","w-ih-n/d-ow"); ("windows","w-ih-n/d-ow-z");
   ("market","m-aa-r/k-ah-t"); ("skyline","s-k-ay/l-ay-n");
   ("river","r-ih/v-er"); ("forest","f-ao/r-ah-s-t");
   ("shadow","sh-ae/d-ow"); ("water","w-ao/t-er");
   ("sunlit","s-ah-n/l-ih-t"); ("silver","s-ih-l/v-er");
   ("quiet","k-w-ay/ah-t"); ("silent","s-ay/l-ah-n-t");
   ("autumn","ao/t-ah-m"); ("winter","w-ih-n/t-er");
   ("softly","s-ao-f-t/l-iy"); ("summer","s-ah/m-er");
   ("under","ah-n/d-er"); ("over","ow/v-er"); ("into","ih-n/t-uw");
   ("along","ah/l-ao-ng"); ("mountain","m-aw-n/t-ah-n");
   ("city","s-ih/t-iy"); ("subway","s-ah-b/w-ey")].

Fixpoint lookup (w : string) (table : list (string * string))
  : option string :=
  match table with
  | [] => None
  | (k, v) :: rest => if String.eqb k w then Some v else lookup w rest
  end.

(** A word outside the table is one segment. *)
Definition syllables (word : string) : option string :=
  match lookup (JS.toLowerCase word) segments with
  | Some segs => Some segs
  | None => Some word
  end.

Definition RiTa : RiTaLib :=
  Build_RiTaLib syllables tokenize (map tag).

End Demo.

(** A RiTa whose syllable lookups all fail: [syllables] answers the empty
    string for every word.  Tokenizer and tagger are those of [Demo]. *)
Definition Mute : RiTaLib :=
  Build_RiTaLib (fun _ => Some "") Demo.tokenize (map Demo.tag).

(** A RiTa whose lookup fails for the one word "a", and is that of [Demo]
    otherwise. *)
Definition Patchy : RiTaLib :=
  Build_RiTaLib
    (fun w => if String.eqb w "a" then Some "" else Demo.syllables w)
    Demo.tokenize (map Demo.tag).

(** A RiTa whose tokenizer does not cut: the whole text is one token.
    Syllables and tagger are those of [Demo]. *)
Definition Whole : RiTaLib :=
  Build_RiTaLib Demo.syllables (fun text => [text]) (map Demo.tag).

(** The words of a haiku: its pieces between white space. *)
Definition haikuWords (haiku : string) : list string :=
  filter JS.truthy (JS.split_spaces haiku).

(** ** Strings of the handlers *)

(** More JavaScript string primitives, used by the handlers of the
    component. *)

(** [s.trimStart()], [s.trimEnd()] and [s.trim()]: the white space of
    [trim] is the class [\s]. *)
Fixpoint trimStart (s : string) : string :=
  match s with
  | EmptyString => EmptyString
  | String c s' => if JS.is_space c then trimStart s' else s
  end.

Fixpoint trimEnd (s : string) : string :=
  match s with
  | EmptyString => EmptyString
  | String c s' =>
      match trimEnd s' with
      | EmptyString => if JS.is_space c then EmptyString
                       else String c EmptyString
      | rest => String c rest
      end
  end.

Definition trim (s : string) : string := trimEnd (trimStart s).

(** [s.replace(/[class]+/g, " ")]: every maximal run of characters of the
    class becomes one space.  [in_run] tells that the previous character
    belonged to a run. *)
Fixpoint replace_runs_from (class : ascii -> bool) (in_run : bool)
         (s : string) : string :=
  match s with
  | EmptyString => EmptyString
  | String c s' =>
      if class c then
        if in_run then replace_runs_from class true s'
        else String " " (replace_runs_from class true s')
      else String c (replace_runs_from class false s')
  end.

Definition replace_runs (class : ascii -> bool) (s : string) : string :=
  replace_runs_from class false s.

(** [s.replace(/\s+/g, " ").trim()], as lines 273 of the component and 52-53
    of [wordsFrom] have it. *)
Definition normalize (s : string) : string :=
  trim (replace_runs JS.is_space s).

(** ** The component: state and handlers *)

(** The state of [App] (lines 220-234): one field per [useState], and
    [timerOn] for [timerRef.current] holding a running interval.  The
    recognizer is an object of the browser and is not part of it. *)
Record AppState : Type := {
  transcript : string;
  interim : string;
  listening : bool;
  seconds : Z;
  haikus : list string;
  selectedHaiku : option string;
  error : option string;
  lastSource : string;
  regenCount : Z;
  copiedPrompt : bool;
  timerOn : bool
}.

(** [a || b] on strings. *)
Definition or_string (a b : string) : string :=
  if JS.truthy a then a else b.

(** One result of a speech event: [res.isFinal] and
    [res[0]?.transcript]. *)
Record SpeechResult : Type := {
  isFinal : bool;
  heard : option string
}.

Record SpeechEvent : Type := {
  resultIndex : nat;
  results : list SpeechResult
}.

(** [res[0]?.transcript || ""] *)
Definition heard_text (res : SpeechResult) : string :=
  match heard res with Some t => t | None => "" end.

(** The loop of lines 267-272, over [e.results] from [e.resultIndex] on:
    the final and the interim text. *)
Fixpoint gather (rest : list SpeechResult) (finalText interimText : string)
  : string * string :=
  match rest with
  | [] => (finalText, interimText)
  | res :: rest' =>
      if isFinal res
      then gather rest' (finalText ++ (heard_text res ++ " ")) interimText
      else gather rest' finalText (interimText ++ (heard_text res ++ " "))
  end.

(** [recRef.current.onresult] (lines 264-275). *)
Definition onresult (e : SpeechEvent) (s : AppState) : AppState :=
  let '(finalText, interimText) :=
    gather (skipn (resultIndex e) (results e)) "" "" in
  {| transcript :=
       if JS.truthy finalText
       then normalize (transcript s ++ " " ++ finalText)
       else transcript s;
     interim := trim interimText;
     listening := listening s; seconds := seconds s; haikus := haikus s;
     selectedHaiku := selectedHaiku s; error := error s;
     lastSource := lastSource s; regenCount := regenCount s;
     copiedPrompt := copiedPrompt s; timerOn := timerOn s |}.

(** [stopListening] (lines 305-309): the timer is cleared and the
    recognizer stopped. *)
Definition stopListening (s : AppState) : AppState :=
  {| transcript := transcript s; interim := interim s; listening := false;
     seconds := seconds s; haikus := haikus s;
     selectedHaiku := selectedHaiku s; error := error s;
     lastSource := lastSource s; regenCount := regenCount s;
     copiedPrompt := copiedPrompt s; timerOn := false |}.

Definition setError (err : option string) (s : AppState) : AppState :=
  {| transcript := transcript s; interim := interim s;
     listening := listening s; seconds := seconds s; haikus := haikus s;
     selectedHaiku := selectedHaiku s; error := err;
     lastSource := lastSource s; regenCount := regenCount s;
     copiedPrompt := copiedPrompt s; timerOn := timerOn s |}.

(** [clearAll] (lines 311-321). *)
Definition clearAll (s : AppState) : AppState :=
  let s := stopListening s in
  {| transcript := ""; interim := ""; listening := listening s; seconds := 0;
     haikus := []; selectedHaiku := None; error := None; lastSource := "";
     regenCount := 0; copiedPrompt := copiedPrompt s; timerOn := timerOn s |}.

(** What the browser does on Start: [createRecognizer] answers [null], the
    [start] of the recognizer throws, or the recognizer starts. *)
Inductive Browser : Type := NoRecognizer | StartThrows | Started.

(** [startListening] (lines 247-303).  The last source and the count of
    regenerations are not reset. *)
Definition startListening (b : Browser) (s : AppState) : AppState :=
  let s :=
    {| transcript := ""; interim := ""; listening := listening s;
       seconds := 0; haikus := []; selectedHaiku := None; error := None;
       lastSource := lastSource s; regenCount := regenCount s;
       copiedPrompt := copiedPrompt s; timerOn := timerOn s |} in
  match b with
  | NoRecognizer =>
      setError (Some "Speech recognition not supported in this browser.") s
  | _ =>
      let s :=
        {| transcript := transcript s; interim := interim s;
           listening := true; seconds := seconds s; haikus := haikus s;
           selectedHaiku := selectedHaiku s; error := error s;
           lastSource := lastSource s; regenCount := regenCount s;
           copiedPrompt := copiedPrompt s; timerOn := true |} in
      match b with
      | StartThrows =>
          stopListening
            (setError
               (Some "Could not start microphone. Check permissions.") s)
      | _ => s
      end
  end.

(** [recRef.current.onerror] (lines 276-279); [code] is [e?.error]. *)
Definition onerror (code : option string) (s : AppState) : AppState :=
  let message :=
    match code with
    | Some c => if JS.truthy c then c else "speech_error"
    | None => "speech_error"
    end in
  stopListening (setError (Some message) s).

(** One firing of the interval (lines 290-296); it fires only while the
    interval is set. *)
Definition tick (s : AppState) : AppState :=
  if timerOn s then
    let next := (seconds s + 1)%Z in
    let s' :=
      {| transcript := transcript s; interim := interim s;
         listening := listening s; seconds := next; haikus := haikus s;
         selectedHaiku := selectedHaiku s; error := error s;
         lastSource := lastSource s; regenCount := regenCount s;
         copiedPrompt := copiedPrompt s; timerOn := timerOn s |} in
    if (next >=? 60)%Z then stopListening s' else s'
  else s.

(** The text box (line 410) and the choice of a haiku (line 447). *)
Definition setTranscript (value : string) (s : AppState) : AppState :=
  {| transcript := value; interim := interim s; listening := listening s;
     seconds := seconds s; haikus := haikus s;
     selectedHaiku := selectedHaiku s; error := error s;
     lastSource := lastSource s; regenCount := regenCount s;
     copiedPrompt := copiedPrompt s; timerOn := timerOn s |}.

Definition setSelectedHaiku (h : option string) (s : AppState) : AppState :=
  {| transcript := transcript s; interim := interim s;
     listening := listening s; seconds := seconds s; haikus := haikus s;
     selectedHaiku := h; error := error s; lastSource := lastSource s;
     regenCount := regenCount s; copiedPrompt := copiedPrompt s; timerOn := timerOn s |}.

Section Handlers.

Variable RiTa : RiTaLib.

(** [generateHaikus] (lines 323-333). *)
Definition generateHaikus (s : AppState) : AppState :=
  let base := trim (transcript s ++ " " ++ interim s) in
  if negb (JS.truthy base) then s
  else
    {| transcript := transcript s; interim := interim s;
       listening := listening s; seconds := seconds s;
       haikus := [composeHaikuRiTa RiTa base 3;
                  composeHaikuRiTa RiTa base 7;
                  composeHaikuRiTa RiTa base 13];
       selectedHaiku := None; error := error s; lastSource := base;
       regenCount := 0; copiedPrompt := copiedPrompt s; timerOn := timerOn s |}.

(** [selectedHaiku?.trim() || lastSource || (transcript + " " +
    interim).trim()] of line 336. *)
Definition regenerationSource (s : AppState) : string :=
  or_string
    (match selectedHaiku s with Some h => trim h | None => "" end)
    (or_string (lastSource s) (trim (transcript s ++ " " ++ interim s))).

(** [regenerateFromLast] (lines 335-344). *)
Definition regenerateFromLast (s : AppState) : AppState :=
  let source := regenerationSource s in
  if negb (JS.truthy source) then s
  else
    let offset := (regenCount s * 3)%Z in
    {| transcript := transcript s; interim := interim s;
       listening := listening s; seconds := seconds s;
       haikus := [composeHaikuRiTa RiTa source (5 + offset);
                  composeHaikuRiTa RiTa source (9 + offset);
                  composeHaikuRiTa RiTa source (15 + offset)];
       selectedHaiku := selectedHaiku s; error := error s;
       lastSource := lastSource s; regenCount := (regenCount s + 1)%Z;
       copiedPrompt := copiedPrompt s; timerOn := timerOn s |}.

End Handlers.

(** [canGenerate] and [safeSeconds] (lines 365-366), and [clamp]
    (line 27) on whole numbers. *)
Definition canGenerate (s : AppState) : bool :=
  JS.truthy (or_string (transcript s) (interim s)).

Definition clamp (n min max : Z) : Z := Z.max min (Z.min max n).

Definition safeSeconds (s : AppState) : Z := clamp (seconds s) 0 60.

(** ** Sessions *)

(** What can happen to the component: the buttons, the text box, the choice
    of a haiku, and the events of the recognizer and of the timer. *)
Inductive Action : Type :=
| Start (b : Browser)
| Stop
| Clear
| Hear (e : SpeechEvent)
| MicError (code : option string)
| Tick
| Edit (value : string)
| Select (h : string)
| Generate
| Regenerate.

Definition act (RiTa : RiTaLib) (a : Action) (s : AppState) : AppState :=
  match a with
  | Start b => startListening b s
  | Stop => stopListening s
  | Clear => clearAll s
  | Hear e => onresult e s
  | MicError code => onerror code s
  | Tick => tick s
  | Edit value => setTranscript value s
  | Select h => setSelectedHaiku (Some h) s
  | Generate => generateHaikus RiTa s
  | Regenerate => regenerateFromLast RiTa s
  end.

Definition run (RiTa : RiTaLib) (actions : list Action) (s : AppState)
  : AppState :=
  fold_left (fun s a => act RiTa a s) actions s.

(** The state of the first render (lines 220-231). *)
Definition initial_state : AppState :=
  {| transcript := ""; interim := ""; listening := false; seconds := 0;
     haikus := []; selectedHaiku := None; error := None; lastSource := "";
     regenCount := 0; copiedPrompt := false; timerOn := false |}.

(** ** The word-count composer *)

(** The earlier composer of the repository, kept in [types.d.ts]: it cuts
    the text into words and shows 5, 7 and 5 of them. *)

(** [\w], and the characters [wordsFrom] keeps besides the space: [\w], the
    apostrophe and the hyphen.  (The typographic apostrophe it also keeps is
    not a code unit below 256.) *)
Definition is_word (c : ascii) : bool :=
  let n := JS.code c in
  (((48 <=? n) && (n <=? 57)) || ((65 <=? n) && (n <=? 90))
   || ((97 <=? n) && (n <=? 122)) || (n =? 95))%N.

Definition is_kept (c : ascii) : bool :=
  is_word c || Ascii.eqb c "'" || Ascii.eqb c "-".

(** The class [[^\w'\- ]] of line 51. *)
Definition is_dropped (c : ascii) : bool :=
  negb (is_kept c || Ascii.eqb c " ").

(** [wordsFrom] (lines 49-57). *)
Definition wordsFrom (text : string) : list string :=
  filter JS.truthy
    (JS.split " "
       (trim (replace_runs JS.is_space (replace_runs is_dropped text)))).

(** [arr.slice(start, end)]: a negative index counts from the end. *)
Definition slice {A : Type} (arr : list A) (start stop : Z) : list A :=
  let len := Z.of_nat (List.length arr) in
  let from :=
    if (start <? 0)%Z then Z.max (len + start) 0 else Z.min start len in
  let to :=
    if (stop <? 0)%Z then Z.max (len + stop) 0 else Z.min stop len in
  firstn (Z.to_nat (to - from)) (skipn (Z.to_nat from) arr).

(** [linesFromWords] (lines 58-68), from the index [idx] on. *)
Fixpoint linesFromWords_from (idx : Z) (words : list string)
         (pattern : list nat) : list string :=
  match pattern with
  | [] => []
  | count :: rest =>
      JS.join " " (slice words idx (idx + Z.of_nat count))
      :: linesFromWords_from (idx + Z.of_nat count) words rest
  end.

Definition linesFromWords (words : list string) (pattern : list nat)
  : list string :=
  linesFromWords_from 0 words pattern.

(** [simpleHaikuFrom] (lines 69-81).  [seed % (maxStart + 1)] has the sign
    of the seed. *)
Definition simpleHaikuFrom (text : string) (seed : Z) : string :=
  let w := wordsFrom text in
  if List.length w <? 5 then
    JS.join (String (ascii_of_nat 10) "") [trim text; ""; ""]
  else
    let pattern := [5; 7; 5] in
    let total := fold_left Nat.add pattern 0 in
    let maxStart :=
      Z.max 0 (Z.of_nat (List.length w) - Z.of_nat total) in
    let start :=
      if (maxStart =? 0)%Z then 0%Z else Z.rem seed (maxStart + 1) in
    let sliced := slice w start (start + Z.of_nat total) in
    let lines := linesFromWords sliced pattern in
    JS.join (String (ascii_of_nat 10) "")
            (map trim [nth 0 lines ""; nth 1 lines ""; nth 2 lines ""]).

(** * Properties *)

Arguments scoreTopic : simpl never.
Arguments topicOf : simpl never.
Arguments imageryWords : simpl never.
Arguments uniquePool : simpl never.
Arguments syllablesInWord : simpl never.

(** ** Loops: invariants and termination *)

Section WhileFacts.

Context {St : Type}.
Variable test : St -> bool.
Variable body : St -> St.

(** An invariant of the body holds when the loop stops. *)
Lemma while_invariant (P : St -> Prop) :
  (forall s, P s -> test s = true -> P (body s)) ->
  forall fuel s, P s -> P (while test body fuel s).
Proof.
  intros Hbody fuel.
  induction fuel as [|fuel IH]; intros s Hs; simpl.
  - exact Hs.
  - destruct (test s) eqn:Ht.
    + apply IH. now apply Hbody.
    + exact Hs.
Qed.

(** A measure that the body decreases bounds the number of iterations,
    and fuel above the measure is never used up. *)
Lemma while_runs (measure : St -> nat) :
  (forall s, test s = true -> measure (body s) < measure s) ->
  forall fuel s, measure s <= fuel ->
  exists n, n <= measure s /\ runs test body s n (while test body fuel s).
Proof.
  intros Hdec fuel.
  induction fuel as [|fuel IH]; intros s Hm; simpl.
  - exists 0. split; [lia|]. apply runs_exit.
    destruct (test s) eqn:Ht; [|reflexivity].
    specialize (Hdec s Ht). lia.
  - destruct (test s) eqn:Ht.
    + specialize (Hdec s Ht).
      destruct (IH (body s)) as [n [Hn Hr]]; [lia|].
      exists (S n). split; [lia|]. now apply runs_iter.
    + exists 0. split; [lia|]. now apply runs_exit.
Qed.

(** The loop is a function of its starting state. *)
Lemma runs_functional s n1 s1 n2 s2 :
  runs test body s n1 s1 -> runs test body s n2 s2 -> n1 = n2 /\ s1 = s2.
Proof.
  intros H1. revert n2 s2.
  induction H1 as [s Ht|s n s' Ht H1 IH]; intros n2 s2 H2.
  - inversion H2; subst; [auto|congruence].
  - inversion H2 as [|? m ? ? H2']; subst; [congruence|].
    destruct (IH _ _ H2') as [-> ->]. auto.
Qed.

(** Two loops that run in lock step stay related. *)
Lemma while_related {St'} (test' : St' -> bool) (body' : St' -> St')
      (R : St -> St' -> Prop) :
  (forall s s', R s s' -> test s = test' s') ->
  (forall s s', R s s' -> test s = true -> R (body s) (body' s')) ->
  forall fuel s s', R s s' ->
  R (while test body fuel s) (while test' body' fuel s').
Proof.
  intros Htest Hbody fuel.
  induction fuel as [|fuel IH]; intros s s' HR; simpl.
  - exact HR.
  - rewrite <- (Htest _ _ HR).
    destruct (test s) eqn:Ht; [|exact HR].
    apply IH. now apply Hbody.
Qed.

End WhileFacts.

(** ** The generator *)

Lemma ToUint32_mod (x : Z) : JS.ToUint32 x = (x mod 2 ^ 32)%Z.
Proof.
  unfold JS.ToUint32. change 4294967295%Z with (Z.ones 32).
  apply Z.land_ones. lia.
Qed.

(** Every draw is a number in [0, 1). *)
Lemma mulberry32_draw_range (t : Z) :
  (0 <= fst (mulberry32_rand t) < JS.two32)%Z.
Proof.
  unfold mulberry32_rand. cbv zeta. cbn [fst]. rewrite ToUint32_mod.
  apply Z.mod_pos_bound. reflexivity.
Qed.

(** For such a draw [Math.floor(rand() * n)] is an index of the array. *)
Lemma draw_index_in_range (k : Z) (n : nat) :
  (0 <= k < JS.two32)%Z -> 0 < n -> draw_index k n < n.
Proof.
  intros Hk Hn. unfold draw_index.
  apply Nat2Z.inj_lt. rewrite Z2Nat.id.
  - apply Z.div_lt_upper_bound; [reflexivity|].
    unfold JS.two32 in *. nia.
  - apply Z.div_pos; [|reflexivity]. nia.
Qed.

(** ** Seeds *)

(** C10.  Seed 0 is replaced by 1 before the generator is created
    ([seed || 1]), so for every text the composer returns the same haiku
    for the seeds 0 and 1. *)
Theorem seed_zero_is_seed_one :
  forall (RiTa : RiTaLib) (text : string),
    composeHaikuRiTa RiTa text 0 = composeHaikuRiTa RiTa text 1.
Proof.
  intros RiTa text. unfold composeHaikuRiTa.
  replace (JS.or_else 0 1) with (JS.or_else 1 1) by reflexivity.
  reflexivity.
Qed.

(** ** The word pool *)

Lemma unique_from_keeps_first (w : string) (rest : list string) :
  unique_from [] (w :: rest) = w :: unique_from [JS.toLowerCase w] rest.
Proof. reflexivity. Qed.

Lemma nouns_nonempty (k : TopicKey) : nouns (TOPIC_FILLERS k) <> [].
Proof. destruct k; discriminate. Qed.

Lemma uniquePool_nonempty (RiTa : RiTaLib) (text : string) :
  uniquePool RiTa text <> [].
Proof.
  unfold uniquePool.
  destruct (filter _ (imageryWords RiTa text)) as [|w ws].
  - rewrite app_nil_l. pose proof (nouns_nonempty (topicOf text)) as Hn.
    destruct (nouns (TOPIC_FILLERS (topicOf text))) as [|n ns];
      [congruence|].
    rewrite unique_from_keeps_first. discriminate.
  - rewrite <- app_comm_cons, unique_from_keeps_first. discriminate.
Qed.

Lemma workingPool_contains_uniquePool
      (RiTa : RiTaLib) (Rand : Type) (rand : Rand -> Z * Rand)
      (text : string) (r : Rand) :
  exists kigoTokens,
    fst (workingPool RiTa Rand rand text r) = kigoTokens ++ uniquePool RiTa text.
Proof.
  unfold workingPool.
  destruct (nonempty _).
  - destruct (rand r) as [k r1].
    destruct (draw_lt k 1 2).
    + destruct (pick _ _ _ _ _) as [phrase r2]. eexists. reflexivity.
    + exists []. reflexivity.
  - exists []. reflexivity.
Qed.

(** C8.  For every text (so for every non-empty one) and every seed, the
    pool the composer hands to the packers is not empty: the nouns of the
    resolved topic are always appended to the extracted imagery, and no
    topic has an empty noun list. *)
Theorem workingPool_nonempty :
  forall (RiTa : RiTaLib) (text : string) (seed : Z),
    fst (workingPool RiTa Z mulberry32_rand text
                     (mulberry32 (JS.or_else seed 1))) <> [].
Proof.
  intros RiTa text seed.
  destruct (workingPool_contains_uniquePool RiTa Z mulberry32_rand text
              (mulberry32 (JS.or_else seed 1))) as [kt ->].
  pose proof (uniquePool_nonempty RiTa text) as Hu.
  destruct kt as [|w kt]; [exact Hu|].
  rewrite <- app_comm_cons. discriminate.
Qed.

(** ** Topic classification *)

(** The score of the specification: for every keyword of the topic, 2 points
    when the keyword is one of the lower-cased tokens, and 1 more point when
    some token contains it. *)
Definition spec_points (lower : list string) (kw : string) : nat :=
  (if JS.includes lower kw then 2 else 0)
  + (if existsb (fun t => JS.str_includes t kw) lower then 1 else 0).

Definition spec_score (lower : list string) (k : TopicKey) : nat :=
  list_sum (map (spec_points lower) (TOPIC_KEYWORDS k)).

(** Position in the declaration order beach, forest, mountain, snow, city,
    generic. *)
Definition topic_index (k : TopicKey) : nat :=
  match k with
  | beach => 0 | forest => 1 | mountain => 2
  | snow => 3 | city => 4 | generic => 5
  end.

Definition declared_before (a b : TopicKey) : Prop :=
  topic_index a < topic_index b.

Lemma fold_keyword_score (lower : list string) (kws : list string) (s : nat) :
  fold_left (keyword_score lower) kws s
  = s + list_sum (map (spec_points lower) kws).
Proof.
  revert s. induction kws as [|kw kws IH]; intros s; simpl.
  - lia.
  - rewrite IH. unfold keyword_score, spec_points. lia.
Qed.

Lemma topic_score_spec (lower : list string) (k : TopicKey) :
  topic_score lower k = spec_score lower k.
Proof. unfold topic_score. now rewrite fold_keyword_score. Qed.

Definition by_score_desc (a b : TopicKey * nat) : Z :=
  (Z.of_nat (snd b) - Z.of_nat (snd a))%Z.

(** The head of the entries sorted by descending score is the first entry
    of maximal score. *)
Lemma sorted_scores_head (sc : TopicKey -> nat) :
  exists best,
    (forall k, sc k <= sc best)
    /\ (forall k, declared_before k best -> sc k < sc best)
    /\ hd_error (JS.sort by_score_desc (map (fun k => (k, sc k)) topic_keys))
       = Some (best, sc best).
Proof.
  unfold topic_keys, by_score_desc. simpl.
  repeat match goal with
         | |- context [(?a <=? 0)%Z] => destruct (Z.leb_spec a 0); simpl
         end;
    match goal with
    | |- context [Some (?b, _)] => exists b
    end;
    (split; [intros k; destruct k; simpl in *; lia|]);
    (split; [intros k; unfold declared_before; destruct k; simpl in *; lia
            |reflexivity]).
Qed.

(** C6.  [scoreTopic] returns the topic of highest score, the first one in
    declaration order among those of highest score, and [generic] when that
    score is 0; the score of a topic is the sum over its keywords of 2 for an
    exact match with a lower-cased token plus 1 when some token contains the
    keyword. *)
Theorem scoreTopic_first_best :
  forall (tokens : list string),
    let lower := map JS.toLowerCase tokens in
    exists best,
      (forall k, spec_score lower k <= spec_score lower best)
      /\ (forall k, declared_before k best ->
                    spec_score lower k < spec_score lower best)
      /\ scoreTopic tokens
         = if spec_score lower best =? 0 then generic else best.
Proof.
  intros tokens lower.
  destruct (sorted_scores_head (spec_score lower)) as [best [Hmax [Hfirst Hhd]]].
  exists best. split; [exact Hmax|]. split; [exact Hfirst|].
  unfold scoreTopic. fold lower.
  replace (map (fun k => (k, topic_score lower k)) topic_keys)
    with (map (fun k => (k, spec_score lower k)) topic_keys)
    by (apply map_ext; intros k; now rewrite topic_score_spec).
  change (fun a b : TopicKey * nat => (Z.of_nat (snd b) - Z.of_nat (snd a))%Z)
    with by_score_desc.
  destruct (JS.sort by_score_desc _) as [|hd tl]; [discriminate|].
  simpl in Hhd. injection Hhd as ->. simpl.
  destruct (spec_score lower best); reflexivity.
Qed.

(** ** Sorting and picking keep the elements *)

Lemma insert_In {A} (cmp : A -> A -> Z) (x y : A) (l : list A) :
  In x (JS.insert cmp y l) -> x = y \/ In x l.
Proof.
  induction l as [|z l IH]; simpl.
  - intros [H|[]]; auto.
  - destruct (cmp y z <=? 0)%Z; simpl; intuition.
Qed.

Lemma sort_In {A} (cmp : A -> A -> Z) (x : A) (l : list A) :
  In x (JS.sort cmp l) -> In x l.
Proof.
  induction l as [|y l IH]; simpl; [auto|].
  intros H. apply insert_In in H. destruct H as [->|H]; auto.
Qed.

Lemma nonempty_true {T} (arr : list T) :
  nonempty arr = true -> arr <> [].
Proof. destruct arr; [discriminate|discriminate]. Qed.

Section PickFacts.

Variable Rand : Type.
Variable rand : Rand -> Z * Rand.

(** A pick among a non-empty array, with its first element as fallback,
    is an element of the array. *)
Lemma pick_In (r : Rand) (arr : list string) :
  nonempty arr = true ->
  In (fst (pick Rand rand r arr (hd "" arr))) arr.
Proof.
  destruct arr as [|a arr]; [discriminate|]. intros _.
  unfold pick. destruct (rand r) as [k r']. cbn [fst hd].
  destruct (nth_in_or_default (draw_index k (List.length (a :: arr)))
                              (a :: arr) a) as [H|H].
  - exact H.
  - rewrite H. now left.
Qed.

End PickFacts.

(** ** What the packers return *)

Definition imageryCount (words : list string) : nat :=
  List.length (filter (fun w => negb (isGlue w)) words).

Definition glueCount (words : list string) : nat :=
  List.length (filter isGlue words).

Lemma imagery_plus_glue (words : list string) :
  imageryCount words + glueCount words = List.length words.
Proof.
  unfold imageryCount, glueCount.
  induction words as [|w ws IH]; simpl; [reflexivity|].
  destruct (isGlue w); simpl; lia.
Qed.

Lemma glueCount_complement (words : list string) :
  List.length words - imageryCount words = glueCount words.
Proof. pose proof (imagery_plus_glue words). lia. Qed.

(** [ceil_mul n num den] is the least integer not below [n * num / den]. *)
Lemma ceil_mul_ceiling (n num den : nat) :
  0 < den ->
  n * num <= ceil_mul n num den * den
  /\ ceil_mul n num den * den < n * num + den.
Proof.
  intros Hden. unfold ceil_mul.
  pose proof (Nat.div_mod_eq (n * num + (den - 1)) den) as Hd.
  pose proof (Nat.mod_upper_bound (n * num + (den - 1)) den
                                   ltac:(lia)) as Hm.
  generalize dependent ((n * num + (den - 1)) / den).
  generalize dependent ((n * num + (den - 1)) mod den).
  generalize (n * num). intros m r Hr q Hq.
  rewrite (Nat.mul_comm q den). split; lia.
Qed.

Section PackerFacts.

Variable RiTa : RiTaLib.
Variable Rand : Type.
Variable rand : Rand -> Z * Rand.

Local Abbreviation syl_of := (syllablesInWord RiTa).

(** Syllables of a line, as the packers accumulate them. *)
Definition total_syl (words : list string) : nat :=
  list_sum (map syl_of words).

Lemma total_syl_app (ws : list string) (w : string) :
  total_syl (ws ++ [w]) = total_syl ws + syl_of w.
Proof.
  unfold total_syl. rewrite map_app, list_sum_app. simpl. lia.
Qed.

Section NaturalFacts.

Variable pool : list string.
Variable imagerySorted : list string.
Variable glueSorted : list string.
Variable target : nat.
Variable minWords : nat.

Hypothesis imagery_from_pool : forall w, In w imagerySorted -> In w pool.
Hypothesis glue_from_list : forall w, In w glueSorted -> In w GLUE_WORDS.

(** Words a natural line is made of. *)
Definition natural_word (w : string) : Prop :=
  In w pool \/ In w GLUE_WORDS.

Definition grow_inv (s : Grow Rand) : Prop :=
  total_syl (g_words s) = g_syl s /\ Forall natural_word (g_words s).

Lemma source_words (b : bool) (w : string) :
  In w (if b then glueSorted else imagerySorted) -> natural_word w.
Proof.
  unfold natural_word.
  destruct b; intros H;
    [right; apply glue_from_list|left; apply imagery_from_pool]; exact H.
Qed.

Lemma pickPool_of_sub (fits : list string) (w : string) :
  In w (pickPool_of RiTa fits) -> In w fits.
Proof.
  unfold pickPool_of.
  destruct (nonempty (filter (fun w => syl_of w =? 1) fits));
    [intros H; apply filter_In in H; apply H|].
  destruct (nonempty (filter (fun w => syl_of w =? 2) fits));
    [intros H; apply filter_In in H; apply H|auto].
Qed.

Lemma pickPool_of_nonempty (fits : list string) :
  nonempty fits = true -> nonempty (pickPool_of RiTa fits) = true.
Proof.
  intros H. unfold pickPool_of.
  destruct (nonempty (filter (fun w => syl_of w =? 1) fits)) eqn:E1;
    [exact E1|].
  destruct (nonempty (filter (fun w => syl_of w =? 2) fits)) eqn:E2;
    [exact E2|exact H].
Qed.

Lemma push_inv (s : Grow Rand) (picked : string * Rand) :
  grow_inv s -> natural_word (fst picked) ->
  grow_inv (push RiTa Rand s picked).
Proof.
  intros [Hsyl Hwords] Hw. split; cbn [push g_words g_syl].
  - rewrite total_syl_app. lia.
  - apply Forall_app. split; [assumption|]. now constructor.
Qed.

Lemma grow_body_inv (s : Grow Rand) :
  grow_inv s ->
  grow_inv (grow_body RiTa Rand rand imagerySorted glueSorted target s).
Proof.
  intros Hs. unfold grow_body.
  destruct (_ && _ && isGlue _); [exact Hs|].
  destruct (nonempty (fits_of _ _ _ _)) eqn:Hfits; cbn [negb].
  - apply push_inv; [exact Hs|].
    pose proof (pick_In Rand rand (snd (preferGlue Rand rand s)) _
                  (pickPool_of_nonempty _ Hfits)) as Hin.
    apply pickPool_of_sub in Hin. apply filter_In in Hin.
    apply (source_words (fst (preferGlue Rand rand s))). apply Hin.
  - destruct (nonempty (alt_of _ _ _ _)) eqn:Halt; cbn [negb];
      [|exact Hs].
    apply push_inv; [exact Hs|].
    pose proof (pick_In Rand rand (snd (preferGlue Rand rand s)) _ Halt)
      as Hin.
    apply filter_In in Hin. destruct Hin as [Hin _].
    destruct (fst (preferGlue Rand rand s)); cbn [negb] in Hin.
    + apply (source_words false). exact Hin.
    + apply (source_words true). exact Hin.
Qed.

Lemma grow_inv_holds (r : Rand) :
  grow_inv (grow RiTa Rand rand imagerySorted glueSorted target r).
Proof.
  unfold grow. apply while_invariant.
  - intros s Hs _. now apply grow_body_inv.
  - split; [reflexivity|constructor].
Qed.

(** What a returned natural line satisfies. *)
Definition natural_line (words : list string) : Prop :=
  total_syl words = target
  /\ Forall natural_word words
  /\ natural_enough minWords words = true.

Definition natural_inv (s : NaturalAttempt Rand) : Prop :=
  forall words, n_result s = Some words -> natural_line words.

Lemma natural_body_inv (s : NaturalAttempt Rand) :
  natural_inv s ->
  natural_inv (natural_body RiTa Rand rand imagerySorted glueSorted
                            target minWords s).
Proof.
  intros _ words. unfold natural_body.
  pose proof (grow_inv_holds (n_rand s)) as [Hsyl Hwords].
  destruct (g_syl _ =? target) eqn:Ht; cbn [negb n_result];
    [|discriminate].
  destruct (natural_enough _ _) eqn:Hn; cbn [n_result]; [|discriminate].
  intros [= <-]. apply Nat.eqb_eq in Ht.
  split; [congruence|]. split; assumption.
Qed.

Lemma natural_attempts_line (r : Rand) (words : list string) :
  n_result (while (natural_test Rand)
                  (natural_body RiTa Rand rand imagerySorted glueSorted
                                target minWords) 36
                  (natural_start Rand r))
  = Some words ->
  natural_line words.
Proof.
  apply (while_invariant (natural_test Rand)
           (natural_body RiTa Rand rand imagerySorted glueSorted
                         target minWords)
           natural_inv).
  - intros s Hs _. apply natural_body_inv. exact Hs.
  - intros ws. discriminate.
Qed.

End NaturalFacts.

Lemma packNatural_line (pool : list string) (target minWords : nat)
      (topic : TopicKey) (r : Rand) (words : list string) :
  fst (packNatural RiTa Rand rand pool target topic r minWords)
  = Some words ->
  natural_line pool target minWords words.
Proof.
  unfold packNatural. cbn [fst]. apply natural_attempts_line.
  - intros w. apply sort_In.
  - intros w. apply sort_In.
Qed.

Section ExactFacts.

Variable pool : list string.
Variable target : nat.
Variable topic : TopicKey.

(** Words an exact line is made of. *)
Definition exact_word (w : string) : Prop :=
  In w pool \/ In w (fillers topic).

Definition exact_line (words : list string) : Prop :=
  total_syl words = target /\ Forall exact_word words.

Lemma rotation_In (shift : nat) (w : string) :
  In w (JS.slice_from shift pool ++ JS.slice_to shift pool) -> In w pool.
Proof.
  unfold JS.slice_from, JS.slice_to. intros H.
  rewrite <- (firstn_skipn shift pool).
  apply in_or_app. apply in_app_or in H. tauto.
Qed.

Section RotatedFacts.

Variable rotated : list string.
Hypothesis rotated_in_pool : forall w, In w rotated -> In w pool.

Definition scan_inv (s : Scan) : Prop :=
  total_syl (sc_line s) = sc_syl s /\ Forall exact_word (sc_line s).

Lemma scan_body_inv (s : Scan) :
  scan_inv s -> scan_test target rotated s = true ->
  scan_inv (scan_body RiTa target rotated s).
Proof.
  intros [Hsyl Hwords] Ht. unfold scan_body.
  destruct (existsb _ _); [split; assumption|].
  destruct (syl_of _ =? 0); [split; assumption|].
  destruct (_ <=? target); [|split; assumption].
  unfold scan_test in Ht. apply andb_prop in Ht. destruct Ht as [Hi _].
  apply Nat.ltb_lt in Hi.
  split; cbn [sc_line sc_syl].
  - rewrite total_syl_app. lia.
  - apply Forall_app. split; [assumption|]. constructor; [|constructor].
    left. apply rotated_in_pool. now apply nth_In.
Qed.

Lemma scan_inv_holds (line : list string) (syl : nat) (used : list nat) :
  total_syl line = syl -> Forall exact_word line ->
  scan_inv (scan RiTa target rotated line syl used).
Proof.
  intros Hsyl Hwords. unfold scan. apply while_invariant.
  - apply scan_body_inv.
  - split; assumption.
Qed.

Definition pass_inv (s : Pass Rand) : Prop :=
  total_syl (p_line s) = p_syl s /\ Forall exact_word (p_line s).

Lemma filler_pick (r : Rand) (n : nat) :
  nonempty (fillers_of RiTa topic n) = true ->
  let w := fst (pick Rand rand r (fillers_of RiTa topic n)
                     (hd "" (fillers_of RiTa topic n))) in
  syl_of w = n /\ exact_word w.
Proof.
  intros Hne w.
  pose proof (pick_In Rand rand r _ Hne) as Hin. fold w in Hin.
  unfold fillers_of in Hin. apply filter_In in Hin.
  destruct Hin as [Hin Hn]. apply Nat.eqb_eq in Hn.
  split; [exact Hn|]. right. exact Hin.
Qed.

Lemma pass_body_inv (s : Pass Rand) :
  pass_inv s -> pass_inv (pass_body RiTa Rand rand target topic rotated s).
Proof.
  intros [Hsyl Hwords]. unfold pass_body.
  pose proof (scan_inv_holds _ _ (p_used s) Hsyl Hwords) as [Hsc Hscw].
  set (sc := scan RiTa target rotated (p_line s) (p_syl s) (p_used s))
    in *.
  assert (Hfill : forall n,
    pass_inv
      (if nonempty (fillers_of RiTa topic n)
       then {| p_pass := S (p_pass s);
               p_line := sc_line sc
                 ++ [fst (pick Rand rand (p_rand s)
                            (fillers_of RiTa topic n)
                            (hd "" (fillers_of RiTa topic n)))];
               p_syl := sc_syl sc + n; p_used := sc_used sc;
               p_rand := snd (pick Rand rand (p_rand s)
                            (fillers_of RiTa topic n)
                            (hd "" (fillers_of RiTa topic n)));
               p_break := false |}
       else {| p_pass := S (p_pass s); p_line := sc_line sc;
               p_syl := sc_syl sc; p_used := sc_used sc;
               p_rand := p_rand s; p_break := false |})).
  { intros n. destruct (nonempty (fillers_of RiTa topic n)) eqn:Hne;
      [|split; assumption].
    destruct (filler_pick (p_rand s) n Hne) as [Hn Hw].
    split; cbn [p_line p_syl].
    - rewrite total_syl_app. lia.
    - apply Forall_app. split; [assumption|]. now constructor. }
  destruct (sc_syl sc =? target) eqn:Heq; [split; assumption|].
  destruct (sc_syl sc <? target) eqn:Hlt; [|split; assumption].
  apply Nat.ltb_lt in Hlt.
  destruct (nonempty (fillers_of RiTa topic (target - sc_syl sc)))
    eqn:Hne.
  - destruct (filler_pick (p_rand s) _ Hne) as [Hn Hw].
    split; cbn [p_line p_syl].
    + rewrite total_syl_app. lia.
    + apply Forall_app. split; [assumption|]. now constructor.
  - destruct (2 <=? target - sc_syl sc); apply Hfill.
Qed.

Lemma passes_inv (r : Rand) :
  pass_inv (passes RiTa Rand rand target topic rotated r).
Proof.
  unfold passes. apply while_invariant.
  - intros s Hs _. now apply pass_body_inv.
  - split; [reflexivity|constructor].
Qed.

End RotatedFacts.

Definition exact_inv (s : ExactAttempt Rand) : Prop :=
  forall words, e_result s = Some words -> exact_line words.

Lemma exact_body_inv (s : ExactAttempt Rand) :
  exact_inv (exact_body RiTa Rand rand pool target topic s).
Proof.
  intros words. unfold exact_body.
  match goal with
  | |- context [passes RiTa Rand rand target topic ?rot ?r] =>
      assert (Hp : pass_inv (passes RiTa Rand rand target topic rot r))
  end.
  { apply passes_inv. intros w.
    destruct (nonempty pool); [apply rotation_In|intros []]. }
  destruct Hp as [Hsyl Hwords].
  destruct (p_syl _ =? target) eqn:Ht; cbn [e_result]; [|discriminate].
  intros [= <-]. apply Nat.eqb_eq in Ht.
  split; [congruence|assumption].
Qed.

Lemma packExact_line (r : Rand) (words : list string) :
  fst (packExact RiTa Rand rand pool target topic r) = Some words ->
  exact_line words.
Proof.
  unfold packExact. cbn [fst].
  apply (while_invariant (exact_test Rand)
           (exact_body RiTa Rand rand pool target topic) exact_inv).
  - intros s _ _. apply exact_body_inv.
  - intros ws. discriminate.
Qed.

End ExactFacts.

End PackerFacts.

(** C5.  A line returned by [packNatural] has at least [minWords] words,
    at least [ceil(minWords * 0.6)] imagery words (words outside the glue
    set) and at most [ceil(wordCount * 0.5)] glue words. *)
Theorem packNatural_naturalness :
  forall (RiTa : RiTaLib) (Rand : Type) (rand : Rand -> Z * Rand)
         (pool : list string) (target : nat) (topic : TopicKey) (r : Rand)
         (minWords : nat) (words : list string),
    fst (packNatural RiTa Rand rand pool target topic r minWords) = Some words ->
    minWords <= List.length words
    /\ ceil_mul minWords 3 5 <= imageryCount words
    /\ glueCount words <= ceil_mul (List.length words) 1 2.
Proof.
  intros RiTa Rand rand pool target topic r minWords words H.
  apply packNatural_line in H. destruct H as [_ [_ H]].
  unfold natural_enough in H.
  fold (imageryCount words) in H. rewrite glueCount_complement in H.
  apply andb_prop in H. destruct H as [H H3].
  apply andb_prop in H. destruct H as [H1 H2].
  apply Nat.leb_le in H1, H2, H3. auto.
Qed.

Lemma packNatural_naturalness_witness :
  let words := ["bright"; "to"; "sand"; "waves"; "and"] in
  fst (packNatural Demo.RiTa Z mulberry32_rand
                   ["waves"; "warm"; "sand"; "bright"; "sky"] 5 beach
                   (mulberry32 3) 3)
  = Some words
  /\ (3 <= List.length words
      /\ ceil_mul 3 3 5 <= imageryCount words
      /\ glueCount words <= ceil_mul (List.length words) 1 2).
Proof.
  intros words. split; [vm_compute; reflexivity|].
  apply (packNatural_naturalness Demo.RiTa Z mulberry32_rand
           ["waves"; "warm"; "sand"; "bright"; "sky"] 5 beach
           (mulberry32 3) 3 words).
  vm_compute; reflexivity.
Defined.

(** ** Joining words and splitting them again *)

(** A word without white space. *)
Fixpoint spaceless (w : string) : bool :=
  match w with
  | EmptyString => true
  | String c w' => negb (JS.is_space c) && spaceless w'
  end.

Definition newline : ascii := ascii_of_nat 10.

Lemma split_spaces_from_letter (b : bool) (c : ascii) (s : string) :
  JS.is_space c = false ->
  JS.split_spaces_from b (String c s) = JS.split_spaces_from false (String c s).
Proof. intros H. simpl. now rewrite H. Qed.

Lemma split_spaces_word_then (x : string) (sp : ascii) (rest : string) :
  spaceless x = true -> JS.is_space sp = true ->
  JS.split_spaces_from false (x ++ String sp rest)
  = x :: JS.split_spaces_from true rest.
Proof.
  intros Hx Hsp. induction x as [|c x IH]; simpl.
  - now rewrite Hsp.
  - simpl in Hx. apply andb_prop in Hx. destruct Hx as [Hc Hx].
    apply negb_true_iff in Hc. rewrite Hc, (IH Hx). reflexivity.
Qed.

Lemma split_spaces_word (x : string) :
  spaceless x = true -> JS.split_spaces_from false x = [x].
Proof.
  intros Hx. induction x as [|c x IH]; simpl; [reflexivity|].
  simpl in Hx. apply andb_prop in Hx. destruct Hx as [Hc Hx].
  apply negb_true_iff in Hc. rewrite Hc, (IH Hx). reflexivity.
Qed.

Lemma words_word_then (b : bool) (x : string) (sp : ascii) (rest : string) :
  spaceless x = true -> JS.is_space sp = true ->
  filter JS.truthy (JS.split_spaces_from b (x ++ String sp rest))
  = filter JS.truthy [x]
    ++ filter JS.truthy (JS.split_spaces_from true rest).
Proof.
  intros Hx Hsp. destruct x as [|c x].
  - simpl. rewrite Hsp. destruct b; reflexivity.
  - assert (Hc : JS.is_space c = false).
    { simpl in Hx. apply andb_prop in Hx. now apply negb_true_iff. }
    change (String c x ++ String sp rest)%string
      with (String c (x ++ String sp rest)).
    rewrite (split_spaces_from_letter b _ _ Hc).
    change (String c (x ++ String sp rest))
      with (String c x ++ String sp rest)%string.
    rewrite (split_spaces_word_then _ _ _ Hx Hsp). reflexivity.
Qed.

Lemma words_word (b : bool) (x : string) :
  spaceless x = true ->
  filter JS.truthy (JS.split_spaces_from b x) = filter JS.truthy [x].
Proof.
  intros Hx. destruct x as [|c x]; [reflexivity|].
  assert (Hc : JS.is_space c = false).
  { simpl in Hx. apply andb_prop in Hx. now apply negb_true_iff. }
  rewrite (split_spaces_from_letter b _ _ Hc).
  now rewrite (split_spaces_word _ Hx).
Qed.

Lemma append_assoc (a b c : string) :
  ((a ++ b) ++ c = a ++ (b ++ c))%string.
Proof. induction a as [|x a IH]; simpl; [reflexivity|now rewrite IH]. Qed.

(** The words of a line joined with single spaces, followed by a white
    space and more text. *)
Lemma words_join_then (ws : list string) (b : bool) (sp : ascii)
      (rest : string) :
  Forall (fun w => spaceless w = true) ws -> JS.is_space sp = true ->
  filter JS.truthy
         (JS.split_spaces_from b (JS.join " " ws ++ String sp rest))
  = filter JS.truthy ws ++ filter JS.truthy (JS.split_spaces_from true rest).
Proof.
  intros Hws Hsp. revert b.
  induction Hws as [|x ws Hx Hws IH]; intros b.
  - simpl. rewrite Hsp. destruct b; reflexivity.
  - destruct ws as [|y ws].
    + cbn [JS.join]. rewrite (words_word_then b _ _ _ Hx Hsp).
      reflexivity.
    + change (JS.join " " (x :: y :: ws))
        with (x ++ String " " (JS.join " " (y :: ws)))%string.
      rewrite append_assoc.
      change (String " " (JS.join " " (y :: ws)) ++ String sp rest)%string
        with (String " " (JS.join " " (y :: ws) ++ String sp rest)).
      rewrite (words_word_then b x " "%char _ Hx eq_refl), (IH true).
      simpl. destruct (JS.truthy x); reflexivity.
Qed.

Lemma words_join (ws : list string) (b : bool) :
  Forall (fun w => spaceless w = true) ws ->
  filter JS.truthy (JS.split_spaces_from b (JS.join " " ws))
  = filter JS.truthy ws.
Proof.
  intros Hws. revert b.
  induction Hws as [|x ws Hx Hws IH]; intros b.
  - reflexivity.
  - destruct ws as [|y ws].
    + cbn [JS.join]. now rewrite (words_word b _ Hx).
    + change (JS.join " " (x :: y :: ws))
        with (x ++ String " " (JS.join " " (y :: ws)))%string.
      rewrite (words_word_then b x " "%char _ Hx eq_refl), (IH true).
      simpl. destruct (JS.truthy x); reflexivity.
Qed.

(** A string without line feed. *)
Fixpoint single_line (s : string) : bool :=
  match s with
  | EmptyString => true
  | String c s' => negb (Ascii.eqb c newline) && single_line s'
  end.

Lemma split_line_then (x rest : string) :
  single_line x = true ->
  JS.split newline (x ++ String newline rest) = x :: JS.split newline rest.
Proof.
  intros Hx. induction x as [|c x IH]; simpl.
  - reflexivity.
  - simpl in Hx. apply andb_prop in Hx. destruct Hx as [Hc Hx].
    apply negb_true_iff in Hc. rewrite Hc, (IH Hx). reflexivity.
Qed.

Lemma split_line (x : string) :
  single_line x = true -> JS.split newline x = [x].
Proof.
  intros Hx. induction x as [|c x IH]; simpl; [reflexivity|].
  simpl in Hx. apply andb_prop in Hx. destruct Hx as [Hc Hx].
  apply negb_true_iff in Hc. rewrite Hc, (IH Hx). reflexivity.
Qed.

Lemma single_line_app (a b : string) :
  single_line a = true -> single_line b = true ->
  single_line (a ++ b) = true.
Proof.
  intros Ha Hb. induction a as [|c a IH]; simpl; [exact Hb|].
  simpl in Ha. apply andb_prop in Ha. destruct Ha as [Hc Ha].
  rewrite Hc. now apply IH.
Qed.

Lemma line_feed_is_space (c : ascii) :
  JS.is_space c = false -> Ascii.eqb c newline = false.
Proof.
  intros H. destruct (Ascii.eqb c newline) eqn:E; [|reflexivity].
  apply Ascii.eqb_eq in E. subst c. discriminate H.
Qed.

Lemma spaceless_single_line (w : string) :
  spaceless w = true -> single_line w = true.
Proof.
  induction w as [|c w IH]; simpl; [reflexivity|].
  intros H. apply andb_prop in H. destruct H as [Hc Hw].
  apply negb_true_iff in Hc. rewrite (line_feed_is_space _ Hc).
  now apply IH.
Qed.

Lemma join_single_line (ws : list string) :
  Forall (fun w => spaceless w = true) ws ->
  single_line (JS.join " " ws) = true.
Proof.
  induction 1 as [|x ws Hx Hws IH]; [reflexivity|].
  destruct ws as [|y ws].
  - now apply spaceless_single_line.
  - change (JS.join " " (x :: y :: ws))
      with (x ++ String " " (JS.join " " (y :: ws)))%string.
    apply single_line_app; [now apply spaceless_single_line|].
    exact IH.
Qed.

(** [haiku.split("\n")] gives back the three lines. *)
Lemma split_three_lines (a b c : string) :
  single_line a = true -> single_line b = true -> single_line c = true ->
  JS.split newline (JS.join (String newline "") [a; b; c]) = [a; b; c].
Proof.
  intros Ha Hb Hc.
  change (JS.join (String newline "") [a; b; c])
    with (a ++ String newline (b ++ String newline c))%string.
  now rewrite (split_line_then _ _ Ha), (split_line_then _ _ Hb),
    (split_line _ Hc).
Qed.

(** ** The vocabulary of a haiku *)

Ltac each_ascii c :=
  destruct c as [[] [] [] [] [] [] [] []].

Lemma is_space_lower_char (c : ascii) :
  JS.is_space (JS.lower_char c) = JS.is_space c.
Proof. each_ascii c; reflexivity. Qed.

Lemma spaceless_toLowerCase (w : string) :
  spaceless (JS.toLowerCase w) = spaceless w.
Proof.
  induction w as [|c w IH]; simpl; [reflexivity|].
  now rewrite is_space_lower_char, IH.
Qed.

Lemma includes_In (arr : list string) (x : string) :
  JS.includes arr x = true <-> In x arr.
Proof.
  unfold JS.includes. rewrite existsb_exists. split.
  - intros [y [Hy E]]. apply String.eqb_eq in E. now subst.
  - intros H. exists x. split; [exact H|apply String.eqb_refl].
Qed.

Lemma unique_from_In (seen pool : list string) (w : string) :
  In w (unique_from seen pool) -> In w pool.
Proof.
  revert seen. induction pool as [|x pool IH]; intros seen; simpl; [auto|].
  destruct (JS.includes seen (JS.toLowerCase x)).
  - intros H. right. now apply (IH seen).
  - intros [H|H]; [now left|right; now apply (IH _ H)].
Qed.

Lemma imageryWords_from_In (pos : list string) (i : nat) (rest : list string)
      (w : string) :
  In w (imageryWords_from pos i rest) ->
  exists tok, In tok rest /\ w = JS.toLowerCase tok.
Proof.
  revert i. induction rest as [|tok rest IH]; intros i; simpl; [intros []|].
  destruct (_ && _).
  - intros [H|H].
    + exists tok. auto.
    + destruct (IH _ H) as [t [Ht E]]. exists t. auto.
  - intros H. destruct (IH _ H) as [t [Ht E]]. exists t. auto.
Qed.

Lemma imageryWords_In (RiTa : RiTaLib) (text w : string) :
  In w (imageryWords RiTa text) ->
  exists tok, In tok (tokenize RiTa text) /\ w = JS.toLowerCase tok.
Proof. unfold imageryWords, tokenizePOS. apply imageryWords_from_In. Qed.

(** The tokens of a seasonal phrase of a topic. *)
Definition kigo_token (k : TopicKey) (w : string) : Prop :=
  exists phrase,
    In phrase (or_empty (kigo (TOPIC_FILLERS k)))
    /\ In w (JS.split " " phrase).

Section Vocabulary.

Variable RiTa : RiTaLib.
Variable Rand : Type.
Variable rand : Rand -> Z * Rand.
Variable text : string.

(** Imagery of the text that the topic does not ban. *)
Definition allowed_imagery (w : string) : Prop :=
  In w (imageryWords RiTa text)
  /\ ~ In w (map JS.toLowerCase
                 (or_empty (banned (TOPIC_FILLERS (topicOf text))))).

(** Every word the strict path can place in a line. *)
Definition vocabulary (w : string) : Prop :=
  kigo_token (topicOf text) w
  \/ allowed_imagery w
  \/ In w (nouns (TOPIC_FILLERS (topicOf text)))
  \/ In w GLUE_WORDS
  \/ In w (fillers (topicOf text)).

Lemma uniquePool_words (w : string) :
  In w (uniquePool RiTa text) ->
  allowed_imagery w \/ In w (nouns (TOPIC_FILLERS (topicOf text))).
Proof.
  unfold uniquePool. intros H. apply unique_from_In in H.
  apply in_app_or in H. destruct H as [H|H]; [left|right; exact H].
  apply filter_In in H. destruct H as [Hin Hb]. split; [exact Hin|].
  apply negb_true_iff in Hb. intros Hc. apply includes_In in Hc.
  congruence.
Qed.

Lemma workingPool_words (r : Rand) (w : string) :
  In w (fst (workingPool RiTa Rand rand text r)) ->
  kigo_token (topicOf text) w
  \/ allowed_imagery w
  \/ In w (nouns (TOPIC_FILLERS (topicOf text))).
Proof.
  unfold workingPool.
  destruct (nonempty _) eqn:Hk.
  - destruct (rand r) as [k r1]. destruct (draw_lt k 1 2).
    + pose proof (pick_In Rand rand r1 _ Hk) as Hin.
      destruct (pick _ _ _ _ _) as [phrase r2]. cbn [fst] in Hin |- *.
      intros H. apply in_app_or in H. destruct H as [H|H].
      * left. exists phrase. split; assumption.
      * right. apply uniquePool_words. exact H.
    + cbn [fst]. rewrite app_nil_l. intros H. right.
      apply uniquePool_words. exact H.
  - cbn [fst]. rewrite app_nil_l. intros H. right.
    apply uniquePool_words. exact H.
Qed.

(** A line of the strict path: its syllables add up to the target and
    its words are in the vocabulary. *)
Definition strict_line (target : nat) (line : list string) : Prop :=
  total_syl RiTa line = target /\ Forall vocabulary line.

Lemma packLine_strict (r0 r : Rand) (target minWords : nat)
      (line : list string) :
  fst (packLine RiTa Rand rand (fst (workingPool RiTa Rand rand text r0))
                target (topicOf text) r minWords) = Some line ->
  strict_line target line.
Proof.
  unfold packLine.
  destruct (packNatural _ _ _ _ _ _ _ _) as [[l|] r'] eqn:Hn.
  - cbn [fst]. intros [= <-].
    pose proof (packNatural_line RiTa Rand rand
                  (fst (workingPool RiTa Rand rand text r0)) target
                  minWords (topicOf text) r l) as H.
    rewrite Hn in H. destruct (H eq_refl) as [Hsyl [Hw _]].
    split; [exact Hsyl|].
    apply Forall_forall. intros w Hin.
    rewrite Forall_forall in Hw. destruct (Hw w Hin) as [Hp|Hg].
    + apply workingPool_words in Hp.
      destruct Hp as [Hp|[Hp|Hp]];
        [left; exact Hp|right; left; exact Hp
        |right; right; left; exact Hp].
    + right; right; right; left. exact Hg.
  - intros He. apply packExact_line in He. destruct He as [Hsyl Hw].
    split; [exact Hsyl|].
    apply Forall_forall. intros w Hin.
    rewrite Forall_forall in Hw. destruct (Hw w Hin) as [Hp|Hf].
    + apply workingPool_words in Hp.
      destruct Hp as [Hp|[Hp|Hp]];
        [left; exact Hp|right; left; exact Hp
        |right; right; left; exact Hp].
    + right; right; right; right. exact Hf.
Qed.

Lemma strictLines_strict (r : Rand) (L1 L2 L3 : list string) :
  strictLines RiTa Rand rand text r = (Some L1, Some L2, Some L3) ->
  strict_line 5 L1 /\ strict_line 7 L2 /\ strict_line 5 L3.
Proof.
  unfold strictLines.
  pose proof (packLine_strict r) as Hline.
  destruct (workingPool RiTa Rand rand text r) as [pool r0].
  cbn [fst] in Hline.
  pose proof (Hline r0 5 3) as H1.
  destruct (packLine _ _ _ pool 5 _ r0 3) as [l1 r1].
  pose proof (Hline r1 7 4) as H2.
  destruct (packLine _ _ _ pool 7 _ r1 4) as [l2 r2].
  pose proof (Hline r2 5 3) as H3.
  destruct (packLine _ _ _ pool 5 _ r2 3) as [l3 r3].
  cbn [fst] in H1, H2, H3. intros [= -> -> ->].
  split; [apply H1; reflexivity|].
  split; [apply H2; reflexivity|apply H3; reflexivity].
Qed.

End Vocabulary.

(** ** Exactness of the strict path *)

(** The fixed words of a topic: tokens of its seasonal phrases, its nouns,
    the glue words and its fillers. *)
Definition topic_words (k : TopicKey) : list string :=
  List.concat (map (JS.split " ") (or_empty (kigo (TOPIC_FILLERS k))))
  ++ nouns (TOPIC_FILLERS k) ++ GLUE_WORDS ++ fillers k.

Lemma kigo_token_topic_word (k : TopicKey) (w : string) :
  kigo_token k w -> In w (topic_words k).
Proof.
  intros [phrase [Hp Hw]]. unfold topic_words. apply in_or_app. left.
  apply in_concat. exists (JS.split " " phrase). split; [|exact Hw].
  apply in_map. exact Hp.
Qed.

Lemma topic_words_spaceless (k : TopicKey) :
  forallb spaceless (topic_words k) = true.
Proof. destruct k; vm_compute; reflexivity. Qed.

Section Exactness.

Variable RiTa : RiTaLib.
Variable text : string.

(** The tokenizer cuts the text into tokens without white space. *)
Hypothesis tokens_spaceless :
  forallb spaceless (tokenize RiTa text) = true.

Lemma vocabulary_spaceless (w : string) :
  vocabulary RiTa text w -> spaceless w = true.
Proof.
  pose proof (topic_words_spaceless (topicOf text)) as Ht.
  rewrite forallb_forall in Ht.
  intros [H|[H|[H|[H|H]]]].
  - apply Ht. apply kigo_token_topic_word. exact H.
  - destruct H as [H _]. apply imageryWords_In in H.
    destruct H as [tok [Htok ->]]. rewrite spaceless_toLowerCase.
    rewrite forallb_forall in tokens_spaceless.
    apply tokens_spaceless. exact Htok.
  - apply Ht. unfold topic_words. apply in_or_app. right.
    apply in_or_app. left. exact H.
  - apply Ht. unfold topic_words. apply in_or_app. right.
    apply in_or_app. right. apply in_or_app. left. exact H.
  - apply Ht. unfold topic_words. apply in_or_app. right.
    apply in_or_app. right. apply in_or_app. right. exact H.
Qed.

Lemma strict_line_spaceless (target : nat) (line : list string) :
  strict_line RiTa text target line ->
  Forall (fun w => spaceless w = true) line.
Proof.
  intros [_ H]. apply Forall_forall. intros w Hw.
  rewrite Forall_forall in H. apply vocabulary_spaceless. apply H.
  exact Hw.
Qed.

Lemma fold_syllables (ws : list string) (a : nat) :
  fold_left (fun s w => s + syllablesInWord RiTa w) ws a
  = a + total_syl RiTa ws.
Proof.
  unfold total_syl. revert a.
  induction ws as [|w ws IH]; intros a; simpl; [lia|].
  rewrite IH. lia.
Qed.

Lemma total_syl_truthy (ws : list string) :
  total_syl RiTa (filter JS.truthy ws) = total_syl RiTa ws.
Proof.
  unfold total_syl.
  induction ws as [|w ws IH]; simpl; [reflexivity|].
  destruct w as [|c w]; simpl; [exact IH|].
  now rewrite IH.
Qed.

(** Counting a line that was joined from words without white space gives
    the syllables of its words. *)
Lemma countLine_join (ws : list string) :
  Forall (fun w => spaceless w = true) ws ->
  countLine RiTa (JS.join " " ws) = total_syl RiTa ws.
Proof.
  intros Hws. unfold countLine, JS.split_spaces.
  rewrite (words_join ws false Hws), fold_syllables, total_syl_truthy.
  reflexivity.
Qed.

Lemma count575_strict (L1 L2 L3 : list string) :
  strict_line RiTa text 5 L1 ->
  strict_line RiTa text 7 L2 ->
  strict_line RiTa text 5 L3 ->
  count575 RiTa (JS.join (String newline "")
                         [JS.join " " L1; JS.join " " L2; JS.join " " L3])
  = [5; 7; 5].
Proof.
  intros H1 H2 H3.
  pose proof (strict_line_spaceless _ _ H1) as S1.
  pose proof (strict_line_spaceless _ _ H2) as S2.
  pose proof (strict_line_spaceless _ _ H3) as S3.
  unfold count575. fold newline.
  rewrite split_three_lines by (apply join_single_line; assumption).
  cbn [nth].
  rewrite !countLine_join by assumption.
  destruct H1 as [-> _], H2 as [-> _], H3 as [-> _]. reflexivity.
Qed.

End Exactness.

(** C1, as the code has it.  Whenever the composer returns through the
    natural-or-exact path (the three lines all come from [packNatural] or
    [packExact]) on a text that RiTa cuts into tokens without white space,
    [count575] of the returned haiku is [5, 7, 5]. *)
Theorem strict_path_counts_575 :
  forall (RiTa : RiTaLib) (text : string) (seed : Z)
         (L1 L2 L3 : list string),
    forallb spaceless (tokenize RiTa text) = true ->
    strictLines RiTa Z mulberry32_rand text (mulberry32 (JS.or_else seed 1))
    = (Some L1, Some L2, Some L3) ->
    count575 RiTa (composeHaikuRiTa RiTa text seed) = [5; 7; 5].
Proof.
  intros RiTa text seed L1 L2 L3 Htok Hstrict.
  unfold composeHaikuRiTa, composeFrom. rewrite Hstrict.
  apply strictLines_strict in Hstrict.
  destruct Hstrict as [H1 [H2 H3]].
  apply (count575_strict RiTa text Htok); assumption.
Qed.

Definition example_text : string :=
  "the waves crashed on the warm sand under a bright sky".

Lemma strict_path_counts_575_witness :
  forallb spaceless (tokenize Demo.RiTa example_text) = true
  /\ strictLines Demo.RiTa Z mulberry32_rand example_text
                 (mulberry32 (JS.or_else 3 1))
     = (Some ["waves"; "warm"; "dunes"; "sand"; "and"],
        Some ["bright"; "through"; "surf"; "sea"; "sky"; "dunes"; "tide"],
        Some ["waves"; "sea"; "surf"; "foam"; "with"])
  /\ count575 Demo.RiTa (composeHaikuRiTa Demo.RiTa example_text 3)
     = [5; 7; 5].
Proof.
  assert (Htok : forallb spaceless (tokenize Demo.RiTa example_text) = true)
    by (vm_compute; reflexivity).
  assert (Hstrict :
    strictLines Demo.RiTa Z mulberry32_rand example_text
                (mulberry32 (JS.or_else 3 1))
    = (Some ["waves"; "warm"; "dunes"; "sand"; "and"],
       Some ["bright"; "through"; "surf"; "sea"; "sky"; "dunes"; "tide"],
       Some ["waves"; "sea"; "surf"; "foam"; "with"]))
    by (vm_compute; reflexivity).
  split; [exact Htok|]. split; [exact Hstrict|].
  exact (strict_path_counts_575 Demo.RiTa example_text 3 _ _ _ Htok Hstrict).
Defined.

(** With the tokenizer that does not cut, the text "sea snow" is one
    imagery word of the pool, and seed 3 takes the natural-or-exact path. *)
Lemma whole_sea_snow_lines :
  strictLines Whole Z mulberry32_rand "sea snow" (mulberry32 (JS.or_else 3 1))
  = (Some ["sea snow"; "sea"; "tides"; "shore"; "and"],
     Some ["shore"; "through"; "surf"; "dune"; "dune"; "tides"; "wave"],
     Some ["sea snow"; "dune"; "surf"; "foam"; "with"]).
Proof. vm_compute. reflexivity. Qed.

Lemma whole_sea_snow_haiku :
  composeHaikuRiTa Whole "sea snow" 3
  = JS.join (String (ascii_of_nat 10) "")
            ["sea snow sea tides shore and";
             "shore through surf dune dune tides wave";
             "sea snow dune surf foam with"].
Proof. vm_compute. reflexivity. Qed.

(** C1 does not hold when a token contains white space: the packers count
    the token "sea snow" as RiTa counts it, one syllable, and [count575]
    counts its two words.  The path is the natural-or-exact one and the
    counts are [6, 7, 6]. *)
Lemma strict_path_miscounts_spaced_token :
  strictLines Whole Z mulberry32_rand "sea snow" (mulberry32 (JS.or_else 3 1))
  = (Some ["sea snow"; "sea"; "tides"; "shore"; "and"],
     Some ["shore"; "through"; "surf"; "dune"; "dune"; "tides"; "wave"],
     Some ["sea snow"; "dune"; "surf"; "foam"; "with"])
  /\ forallb spaceless (tokenize Whole "sea snow") = false
  /\ count575 Whole (composeHaikuRiTa Whole "sea snow" 3) = [6; 7; 6]
  /\ count575 Whole (composeHaikuRiTa Whole "sea snow" 3) <> [5; 7; 5].
Proof.
  split; [exact whole_sea_snow_lines|]. split; [reflexivity|].
  rewrite whole_sea_snow_haiku.
  assert (H : count575 Whole
                (JS.join (String (ascii_of_nat 10) "")
                   ["sea snow sea tides shore and";
                    "shore through surf dune dune tides wave";
                    "sea snow dune surf foam with"]) = [6; 7; 6])
    by (vm_compute; reflexivity).
  split; [exact H|]. rewrite H. discriminate.
Qed.

(** ** Banned words *)

Definition beach_banned : list string :=
  or_empty (banned (TOPIC_FILLERS beach)).

Lemma haikuWords_three_lines (A B C : list string) :
  Forall (fun w => spaceless w = true) A ->
  Forall (fun w => spaceless w = true) B ->
  Forall (fun w => spaceless w = true) C ->
  haikuWords (JS.join (String newline "")
                      [JS.join " " A; JS.join " " B; JS.join " " C])
  = filter JS.truthy A ++ filter JS.truthy B ++ filter JS.truthy C.
Proof.
  intros HA HB HC. unfold haikuWords, JS.split_spaces.
  change (JS.join (String newline "")
                  [JS.join " " A; JS.join " " B; JS.join " " C])
    with (JS.join " " A
          ++ String newline (JS.join " " B ++ String newline (JS.join " " C)))
         %string.
  rewrite (words_join_then A false newline _ HA eq_refl).
  rewrite (words_join_then B true newline _ HB eq_refl).
  rewrite (words_join C true HC). reflexivity.
Qed.

Lemma in_three_filtered (A B C : list string) (w : string) :
  In w (filter JS.truthy A ++ filter JS.truthy B ++ filter JS.truthy C) ->
  In w A \/ In w B \/ In w C.
Proof.
  intros H. apply in_app_or in H. destruct H as [H|H].
  - left. apply filter_In in H. apply H.
  - apply in_app_or in H. destruct H as [H|H]; apply filter_In in H.
    + right. left. apply H.
    + right. right. apply H.
Qed.

Lemma beach_words_allowed :
  forallb (fun w => negb (JS.includes beach_banned w)) (topic_words beach)
  = true.
Proof. vm_compute. reflexivity. Qed.

Section Banned.

Variable RiTa : RiTaLib.
Variable text : string.

Hypothesis topic_is_beach : topicOf text = beach.

Lemma vocabulary_allowed (w : string) :
  vocabulary RiTa text w -> ~ In w beach_banned.
Proof.
  pose proof beach_words_allowed as Ht. rewrite forallb_forall in Ht.
  assert (Hfixed : In w (topic_words beach) -> ~ In w beach_banned).
  { intros Hin Hb. specialize (Ht w Hin). apply negb_true_iff in Ht.
    apply includes_In in Hb. congruence. }
  unfold vocabulary. rewrite topic_is_beach.
  intros [H|[H|[H|[H|H]]]].
  - apply Hfixed. apply kigo_token_topic_word. exact H.
  - destruct H as [_ H]. rewrite topic_is_beach in H. exact H.
  - apply Hfixed. unfold topic_words. apply in_or_app. right.
    apply in_or_app. left. exact H.
  - apply Hfixed. unfold topic_words. apply in_or_app. right.
    apply in_or_app. right. apply in_or_app. left. exact H.
  - apply Hfixed. unfold topic_words. apply in_or_app. right.
    apply in_or_app. right. apply in_or_app. right. exact H.
Qed.

(** The loose fallback only places imagery words of the text. *)
Lemma loose_line_words (pool : list string) (t : nat) :
  exists out,
    loose_line RiTa pool t = JS.join " " out
    /\ forall w, In w out -> In w pool.
Proof.
  unfold loose_line. eexists. split; [reflexivity|].
  apply (while_invariant (loose_test pool) (loose_body RiTa pool t)
           (fun s => forall w, In w (l_out s) -> In w pool)).
  - intros s Hs Ht w. unfold loose_body.
    unfold loose_test in Ht. apply andb_prop in Ht. destruct Ht as [_ Hi].
    apply Nat.ltb_lt in Hi.
    destruct (_ <=? t); cbn [l_out]; [|apply Hs].
    intros H. apply in_app_or in H. destruct H as [H|[<-|[]]].
    + apply Hs. exact H.
    + apply nth_In. exact Hi.
  - intros w [].
Qed.

End Banned.

Lemma imageryWords_spaceless (RiTa : RiTaLib) (text w : string) :
  forallb spaceless (tokenize RiTa text) = true ->
  In w (imageryWords RiTa text) -> spaceless w = true.
Proof.
  intros Htok H. apply imageryWords_In in H.
  destruct H as [tok [Hin ->]]. rewrite spaceless_toLowerCase.
  rewrite forallb_forall in Htok. apply Htok. exact Hin.
Qed.

Lemma fallbackLoose_words (RiTa : RiTaLib) (text w : string) :
  forallb spaceless (tokenize RiTa text) = true ->
  In w (haikuWords (fallbackLoose RiTa text)) ->
  In w (imageryWords RiTa text).
Proof.
  intros Htok. unfold fallbackLoose. cbn [map].
  destruct (loose_line_words RiTa (imageryWords RiTa text) 5)
    as [A [-> HA]].
  destruct (loose_line_words RiTa (imageryWords RiTa text) 7)
    as [B [-> HB]].
  assert (Hs : forall out,
             (forall x, In x out -> In x (imageryWords RiTa text)) ->
             Forall (fun x => spaceless x = true) out).
  { intros out Hout. apply Forall_forall. intros x Hx.
    apply (imageryWords_spaceless RiTa text x Htok). apply Hout. exact Hx. }
  fold newline.
  rewrite (haikuWords_three_lines A B A (Hs A HA) (Hs B HB) (Hs A HA)).
  intros H. apply in_three_filtered in H.
  destruct H as [H|[H|H]]; [apply HA|apply HB|apply HA]; exact H.
Qed.

(** C7, as the code has it.  For a text classified as beach that RiTa cuts
    into tokens without white space, no word of the returned haiku is in the
    beach banned set, provided the haiku comes from the natural-or-exact
    path or no imagery word of the text is banned.  (The loose fallback
    takes the imagery of the text without the banned-word filter.) *)
Theorem beach_haiku_avoids_banned :
  forall (RiTa : RiTaLib) (text : string) (seed : Z),
    topicOf text = beach ->
    forallb spaceless (tokenize RiTa text) = true ->
    (exists L1 L2 L3,
        strictLines RiTa Z mulberry32_rand text
                    (mulberry32 (JS.or_else seed 1))
        = (Some L1, Some L2, Some L3))
    \/ (forall w, In w (imageryWords RiTa text) -> ~ In w beach_banned) ->
    forall w,
      In w (haikuWords (composeHaikuRiTa RiTa text seed)) ->
      ~ In w beach_banned.
Proof.
  intros RiTa text seed Hbeach Htok Hpath w.
  unfold composeHaikuRiTa, composeFrom.
  assert (Hloose :
    (forall x, In x (imageryWords RiTa text) -> ~ In x beach_banned) ->
    In w (haikuWords (fallbackLoose RiTa text)) -> ~ In w beach_banned).
  { intros Hclean Hw. apply Hclean.
    apply (fallbackLoose_words RiTa text w Htok Hw). }
  destruct (strictLines RiTa Z mulberry32_rand text
              (mulberry32 (JS.or_else seed 1)))
    as [[[l1|] [l2|]] [l3|]] eqn:Hstrict;
    try (destruct Hpath as [[L1 [L2 [L3 Hp]]]|Hclean];
         [discriminate Hp|exact (Hloose Hclean)]).
  apply strictLines_strict in Hstrict. destruct Hstrict as [H1 [H2 H3]].
  fold newline.
  rewrite (haikuWords_three_lines l1 l2 l3
             (strict_line_spaceless RiTa text Htok _ _ H1)
             (strict_line_spaceless RiTa text Htok _ _ H2)
             (strict_line_spaceless RiTa text Htok _ _ H3)).
  intros Hw. apply in_three_filtered in Hw.
  apply (vocabulary_allowed RiTa text Hbeach).
  destruct H1 as [_ V1], H2 as [_ V2], H3 as [_ V3].
  rewrite Forall_forall in V1, V2, V3.
  destruct Hw as [Hw|[Hw|Hw]]; [apply V1|apply V2|apply V3]; exact Hw.
Qed.

Lemma beach_haiku_avoids_banned_witness :
  topicOf example_text = beach
  /\ forallb spaceless (tokenize Demo.RiTa example_text) = true
  /\ forall w,
       In w (haikuWords (composeHaikuRiTa Demo.RiTa example_text 3)) ->
       ~ In w beach_banned.
Proof.
  assert (Hbeach : topicOf example_text = beach) by (vm_compute; reflexivity).
  assert (Htok : forallb spaceless (tokenize Demo.RiTa example_text) = true)
    by (vm_compute; reflexivity).
  split; [exact Hbeach|]. split; [exact Htok|].
  apply (beach_haiku_avoids_banned Demo.RiTa example_text 3 Hbeach Htok).
  left.
  exists ["waves"; "warm"; "dunes"; "sand"; "and"],
         ["bright"; "through"; "surf"; "sea"; "sky"; "dunes"; "tide"],
         ["waves"; "sea"; "surf"; "foam"; "with"].
  vm_compute; reflexivity.
Defined.

(** With a RiTa whose syllable lookups all fail no line can be packed, and
    the composer returns the loose fallback. *)
Lemma mute_beach_haiku :
  composeHaikuRiTa Mute "snow on the beach" 3
  = JS.join (String newline "") ["snow beach"; "snow beach"; "snow beach"].
Proof. vm_compute. reflexivity. Qed.

(** C7 does not hold on the loose fallback: with a RiTa whose syllable
    lookups all fail, the text "snow on the beach" is classified as beach,
    its tokens have no white space, no line can be packed, and the fallback
    returns the banned word "snow".  Nor does it hold when a token contains
    white space: with the tokenizer that does not cut, the text "sea snow"
    is classified as beach, its one imagery word "sea snow" is not banned,
    the path is the natural-or-exact one, and "snow" is a word of the
    haiku. *)
Lemma beach_haiku_returns_banned_word :
  (topicOf "snow on the beach" = beach
   /\ forallb spaceless (tokenize Mute "snow on the beach") = true
   /\ composeHaikuRiTa Mute "snow on the beach" 3
      = JS.join (String newline "") ["snow beach"; "snow beach"; "snow beach"]
   /\ In "snow" (haikuWords (composeHaikuRiTa Mute "snow on the beach" 3))
   /\ In "snow" beach_banned)
  /\ (topicOf "sea snow" = beach
      /\ strictLines Whole Z mulberry32_rand "sea snow"
                     (mulberry32 (JS.or_else 3 1))
         = (Some ["sea snow"; "sea"; "tides"; "shore"; "and"],
            Some ["shore"; "through"; "surf"; "dune"; "dune"; "tides"; "wave"],
            Some ["sea snow"; "dune"; "surf"; "foam"; "with"])
      /\ (forall w, In w (imageryWords Whole "sea snow") ->
                    ~ In w beach_banned)
      /\ In "snow" (haikuWords (composeHaikuRiTa Whole "sea snow" 3))
      /\ In "snow" beach_banned).
Proof.
  assert (Hbanned : In "snow" beach_banned)
    by (apply includes_In; vm_compute; reflexivity).
  split.
  - split; [vm_compute; reflexivity|]. split; [vm_compute; reflexivity|].
    split; [exact mute_beach_haiku|].
    rewrite mute_beach_haiku.
    split; [apply includes_In; vm_compute; reflexivity|exact Hbanned].
  - split; [vm_compute; reflexivity|]. split; [exact whole_sea_snow_lines|].
    split.
    + assert (E : imageryWords Whole "sea snow" = ["sea snow"])
        by (vm_compute; reflexivity).
      rewrite E. intros w [<-|[]] Hin.
      assert (F : JS.includes beach_banned "sea snow" = false)
        by (vm_compute; reflexivity).
      apply (includes_In beach_banned "sea snow") in Hin. congruence.
    + rewrite whole_sea_snow_haiku.
      split; [apply includes_In; vm_compute; reflexivity|exact Hbanned].
Qed.

(** ** Termination *)

Section Termination.

Variable RiTa : RiTaLib.
Variable Rand : Type.
Variable rand : Rand -> Z * Rand.

(** The growth loop: every path through the body counts [guard] up. *)
Lemma grow_body_guard (imagerySorted glueSorted : list string)
      (target : nat) (s : Grow Rand) :
  g_guard (grow_body RiTa Rand rand imagerySorted glueSorted target s)
  = S (g_guard s).
Proof.
  unfold grow_body.
  destruct (_ && _ && isGlue _); [reflexivity|].
  destruct (negb (nonempty (fits_of _ _ _ _))); [|reflexivity].
  destruct (negb (nonempty (alt_of _ _ _ _))); reflexivity.
Qed.

Lemma grow_terminates (imagerySorted glueSorted : list string)
      (target : nat) (r : Rand) :
  exists n,
    n <= 160
    /\ runs (grow_test Rand target)
            (grow_body RiTa Rand rand imagerySorted glueSorted target)
            (grow_start Rand r) n
            (grow RiTa Rand rand imagerySorted glueSorted target r).
Proof.
  unfold grow.
  destruct (while_runs (grow_test Rand target)
              (grow_body RiTa Rand rand imagerySorted glueSorted target)
              (fun s => 160 - g_guard s)) with (fuel := 160)
              (s := grow_start Rand r) as [n [Hn Hr]].
  - intros s Ht. rewrite grow_body_guard.
    unfold grow_test in Ht. apply andb_prop in Ht. destruct Ht as [_ Hg].
    apply Nat.ltb_lt in Hg. lia.
  - cbn [grow_start g_guard]. lia.
  - exists n. split; [cbn [grow_start g_guard] in Hn; lia|exact Hr].
Qed.

(** The attempts of [packNatural]. *)
Definition natural_measure (s : NaturalAttempt Rand) : nat :=
  match n_result s with Some _ => 0 | None => 36 - n_attempt s end.

Lemma natural_terminates (imagerySorted glueSorted : list string)
      (target minWords : nat) (r : Rand) :
  exists n,
    n <= 36
    /\ runs (natural_test Rand)
            (natural_body RiTa Rand rand imagerySorted glueSorted
                          target minWords)
            (natural_start Rand r) n
            (while (natural_test Rand)
                   (natural_body RiTa Rand rand imagerySorted glueSorted
                                 target minWords)
                   36 (natural_start Rand r)).
Proof.
  destruct (while_runs (natural_test Rand)
              (natural_body RiTa Rand rand imagerySorted glueSorted
                            target minWords)
              natural_measure) with (fuel := 36)
              (s := natural_start Rand r) as [n [Hn Hr]].
  - intros s Ht. unfold natural_test in Ht.
    apply andb_prop in Ht. destruct Ht as [Ha Hres].
    apply Nat.ltb_lt in Ha.
    unfold natural_measure at 2.
    destruct (n_result s); [discriminate|].
    unfold natural_measure, natural_body.
    destruct (negb _); cbn [n_result n_attempt]; [lia|].
    destruct (natural_enough _ _); cbn [n_result n_attempt]; lia.
  - unfold natural_measure. cbn. lia.
  - exists n. split; [unfold natural_measure in Hn; cbn in Hn; lia|exact Hr].
Qed.

(** The scan of the rotated pool. *)
Lemma scan_terminates (target : nat) (rotated line : list string)
      (syl : nat) (used : list nat) :
  exists n,
    n <= List.length rotated
    /\ runs (scan_test target rotated) (scan_body RiTa target rotated)
            {| sc_i := 0; sc_line := line; sc_syl := syl; sc_used := used |}
            n (scan RiTa target rotated line syl used).
Proof.
  unfold scan.
  destruct (while_runs (scan_test target rotated)
              (scan_body RiTa target rotated)
              (fun s => List.length rotated - sc_i s))
    with (fuel := List.length rotated)
         (s := {| sc_i := 0; sc_line := line; sc_syl := syl;
                  sc_used := used |}) as [n [Hn Hr]].
  - intros s Ht. unfold scan_test in Ht.
    apply andb_prop in Ht. destruct Ht as [Hi _]. apply Nat.ltb_lt in Hi.
    assert (Hi' : sc_i (scan_body RiTa target rotated s) = S (sc_i s)).
    { unfold scan_body. destruct (existsb _ _); [reflexivity|].
      destruct (_ =? 0); [reflexivity|].
      destruct (_ <=? target); reflexivity. }
    rewrite Hi'. lia.
  - cbn [sc_i]. lia.
  - exists n. split; [cbn [sc_i] in Hn; lia|exact Hr].
Qed.

(** The two passes of an attempt of [packExact]. *)
Definition pass_measure (s : Pass Rand) : nat :=
  if p_break s then 0 else 2 - p_pass s.

Lemma pass_body_measure (target : nat) (topic : TopicKey)
      (rotated : list string) (s : Pass Rand) :
  pass_test Rand s = true ->
  pass_measure (pass_body RiTa Rand rand target topic rotated s)
  < pass_measure s.
Proof.
  intros Ht. unfold pass_test in Ht.
  apply andb_prop in Ht. destruct Ht as [Hb Hp].
  apply negb_true_iff in Hb. apply Nat.ltb_lt in Hp.
  unfold pass_measure at 2. rewrite Hb.
  unfold pass_measure, pass_body.
  destruct (_ =? target); cbn [p_break p_pass]; [lia|].
  destruct (_ <? target); cbn [p_break p_pass]; [|lia].
  destruct (nonempty (fillers_of RiTa topic (target - _)));
    cbn [p_break p_pass]; [lia|].
  destruct (2 <=? _);
    match goal with
    | |- context [nonempty ?l] => destruct (nonempty l)
    end; cbn [p_break p_pass]; lia.
Qed.

Lemma passes_terminate (target : nat) (topic : TopicKey)
      (rotated : list string) (r : Rand) :
  exists n,
    n <= 2
    /\ runs (pass_test Rand)
            (pass_body RiTa Rand rand target topic rotated)
            {| p_pass := 0; p_line := []; p_syl := 0; p_used := [];
               p_rand := r; p_break := false |}
            n (passes RiTa Rand rand target topic rotated r).
Proof.
  unfold passes.
  destruct (while_runs (pass_test Rand)
              (pass_body RiTa Rand rand target topic rotated)
              pass_measure (pass_body_measure target topic rotated))
    with (fuel := 2)
         (s := {| p_pass := 0; p_line := []; p_syl := 0; p_used := [];
                  p_rand := r; p_break := false |}) as [n [Hn Hr]].
  - unfold pass_measure. cbn. lia.
  - exists n. split; [unfold pass_measure in Hn; cbn in Hn; lia|exact Hr].
Qed.

(** The attempts of [packExact]. *)
Definition exact_measure (s : ExactAttempt Rand) : nat :=
  match e_result s with Some _ => 0 | None => 6 - e_attempt s end.

Lemma exact_terminates (pool : list string) (target : nat)
      (topic : TopicKey) (r : Rand) :
  exists n,
    n <= 6
    /\ runs (exact_test Rand) (exact_body RiTa Rand rand pool target topic)
            {| e_attempt := 0; e_rand := r; e_result := None |} n
            (while (exact_test Rand)
                   (exact_body RiTa Rand rand pool target topic) 6
                   {| e_attempt := 0; e_rand := r; e_result := None |}).
Proof.
  destruct (while_runs (exact_test Rand)
              (exact_body RiTa Rand rand pool target topic) exact_measure)
    with (fuel := 6)
         (s := {| e_attempt := 0; e_rand := r;
                  e_result := @None (list string) |}) as [n [Hn Hr]].
  - intros s Ht. unfold exact_test in Ht.
    apply andb_prop in Ht. destruct Ht as [Ha Hres].
    apply Nat.leb_le in Ha.
    unfold exact_measure at 2.
    destruct (e_result s); [discriminate|].
    unfold exact_measure, exact_body.
    destruct (_ =? target); cbn [e_result e_attempt]; lia.
  - unfold exact_measure. cbn. lia.
  - exists n. split; [unfold exact_measure in Hn; cbn in Hn; lia|exact Hr].
Qed.

(** A line of the loose fallback. *)
Lemma loose_terminates (pool : list string) (t : nat) :
  exists n,
    n <= List.length pool
    /\ runs (loose_test pool) (loose_body RiTa pool t)
            {| l_i := 0; l_out := []; l_syl := 0; l_break := false |} n
            (while (loose_test pool) (loose_body RiTa pool t)
                   (List.length pool)
                   {| l_i := 0; l_out := []; l_syl := 0;
                      l_break := false |}).
Proof.
  destruct (while_runs (loose_test pool) (loose_body RiTa pool t)
              (fun s => List.length pool - l_i s))
    with (fuel := List.length pool)
         (s := {| l_i := 0; l_out := []; l_syl := 0; l_break := false |})
    as [n [Hn Hr]].
  - intros s Ht. unfold loose_test in Ht.
    apply andb_prop in Ht. destruct Ht as [_ Hi]. apply Nat.ltb_lt in Hi.
    unfold loose_body. destruct (_ <=? t); cbn [l_i]; lia.
  - cbn [l_i]. lia.
  - exists n. split; [cbn [l_i] in Hn; lia|exact Hr].
Qed.

End Termination.

(** C9.  Every loop of the composer leaves through its own test within the
    ceiling of the code: [packNatural] makes at most 36 attempts, each one
    growing its line in at most 160 steps; [packExact] makes at most 6
    attempts of at most two passes, each pass scanning the rotated pool at
    most once; a line of the loose fallback is one pass over the imagery
    words.  The values of [packNatural], [packExact] and [loose_line] are
    those of these runs, so the composer runs to completion. *)
Theorem composer_loops_terminate :
  forall (RiTa : RiTaLib) (Rand : Type) (rand : Rand -> Z * Rand),
    (forall pool target topic r minWords,
        exists n s,
          n <= 36
          /\ runs (natural_test Rand)
                  (natural_body RiTa Rand rand
                     (JS.sort (by_syllables RiTa) pool)
                     (JS.sort (by_syllables RiTa) GLUE_WORDS)
                     target minWords)
                  (natural_start Rand r) n s
          /\ packNatural RiTa Rand rand pool target topic r minWords
             = (n_result s, n_rand s))
    /\ (forall imagerySorted glueSorted target r,
           exists n,
             n <= 160
             /\ runs (grow_test Rand target)
                     (grow_body RiTa Rand rand imagerySorted glueSorted target)
                     (grow_start Rand r) n
                     (grow RiTa Rand rand imagerySorted glueSorted target r))
    /\ (forall pool target topic r,
           exists n s,
             n <= 6
             /\ runs (exact_test Rand)
                     (exact_body RiTa Rand rand pool target topic)
                     {| e_attempt := 0; e_rand := r; e_result := None |} n s
             /\ packExact RiTa Rand rand pool target topic r
                = (e_result s, e_rand s))
    /\ (forall target topic rotated r,
           exists n,
             n <= 2
             /\ runs (pass_test Rand)
                     (pass_body RiTa Rand rand target topic rotated)
                     {| p_pass := 0; p_line := []; p_syl := 0; p_used := [];
                        p_rand := r; p_break := false |}
                     n (passes RiTa Rand rand target topic rotated r))
    /\ (forall target rotated line syl used,
           exists n,
             n <= List.length rotated
             /\ runs (scan_test target rotated)
                     (scan_body RiTa target rotated)
                     {| sc_i := 0; sc_line := line; sc_syl := syl;
                        sc_used := used |}
                     n (scan RiTa target rotated line syl used))
    /\ (forall pool t,
           exists n s,
             n <= List.length pool
             /\ runs (loose_test pool) (loose_body RiTa pool t)
                     {| l_i := 0; l_out := []; l_syl := 0;
                        l_break := false |} n s
             /\ loose_line RiTa pool t = JS.join " " (l_out s)).
Proof.
  intros RiTa Rand rand.
  split; [|split; [|split; [|split; [|split]]]].
  - intros pool target topic r minWords.
    destruct (natural_terminates RiTa Rand rand
                (JS.sort (by_syllables RiTa) pool)
                (JS.sort (by_syllables RiTa) GLUE_WORDS)
                target minWords r) as [n [Hn Hr]].
    eexists n, _. split; [exact Hn|]. split; [exact Hr|reflexivity].
  - intros. apply grow_terminates.
  - intros pool target topic r.
    destruct (exact_terminates RiTa Rand rand pool target topic r)
      as [n [Hn Hr]].
    eexists n, _. split; [exact Hn|]. split; [exact Hr|reflexivity].
  - intros. apply passes_terminate.
  - intros. apply scan_terminates.
  - intros pool t.
    destruct (loose_terminates RiTa pool t) as [n [Hn Hr]].
    eexists n, _. split; [exact Hn|]. split; [exact Hr|reflexivity].
Qed.

(** ** Determinism *)

(** Two generators that yield the same draws.  [sim] relates their states;
    the composer only ever looks at the draws. *)
Section Simulation.

Variable RiTa : RiTaLib.
Variables Rand1 Rand2 : Type.
Variable rand1 : Rand1 -> Z * Rand1.
Variable rand2 : Rand2 -> Z * Rand2.
Variable sim : Rand1 -> Rand2 -> Prop.

Hypothesis rand_sim :
  forall r1 r2, sim r1 r2 ->
    fst (rand1 r1) = fst (rand2 r2) /\ sim (snd (rand1 r1)) (snd (rand2 r2)).

(** Same value, related generators. *)
Definition same {A : Type} (x : A * Rand1) (y : A * Rand2) : Prop :=
  fst x = fst y /\ sim (snd x) (snd y).

Lemma pick_same {T : Type} (r1 : Rand1) (r2 : Rand2) (arr : list T)
      (fallback : T) :
  sim r1 r2 ->
  same (pick Rand1 rand1 r1 arr fallback) (pick Rand2 rand2 r2 arr fallback).
Proof.
  intros Hr. unfold pick, same. destruct arr as [|a arr].
  - split; [reflexivity|exact Hr].
  - destruct (rand_sim _ _ Hr) as [Hk Hr'].
    destruct (rand1 r1) as [k1 r1'], (rand2 r2) as [k2 r2'].
    cbn [fst snd] in *. subst k2. split; [reflexivity|exact Hr'].
Qed.

(** *** [packNatural] *)

Definition grow_rel (s1 : Grow Rand1) (s2 : Grow Rand2) : Prop :=
  g_words s1 = g_words s2 /\ g_syl s1 = g_syl s2
  /\ g_guard s1 = g_guard s2 /\ g_break s1 = g_break s2
  /\ sim (g_rand s1) (g_rand s2).

Lemma preferGlue_same (s1 : Grow Rand1) (s2 : Grow Rand2) :
  grow_rel s1 s2 ->
  same (preferGlue Rand1 rand1 s1) (preferGlue Rand2 rand2 s2).
Proof.
  intros (Hw & _ & _ & _ & Hr). unfold preferGlue, same. rewrite Hw.
  destruct (0 <? List.length (g_words s2)).
  - destruct (rand_sim _ _ Hr) as [Hk Hr'].
    destruct (rand1 (g_rand s1)) as [k1 r1'],
             (rand2 (g_rand s2)) as [k2 r2'].
    cbn [fst snd] in *. subst k2. split; [reflexivity|exact Hr'].
  - split; [reflexivity|exact Hr].
Qed.

Lemma push_rel (s1 : Grow Rand1) (s2 : Grow Rand2)
      (p1 : string * Rand1) (p2 : string * Rand2) :
  grow_rel s1 s2 -> same p1 p2 ->
  grow_rel (push RiTa Rand1 s1 p1) (push RiTa Rand2 s2 p2).
Proof.
  intros (Hw & Hs & Hg & _ & _) [Hp Hr]. unfold grow_rel, push.
  cbn [g_words g_syl g_guard g_break g_rand].
  rewrite Hw, Hs, Hg, Hp. repeat split; exact Hr.
Qed.

Section GrowSim.

Variables imagerySorted glueSorted : list string.
Variable target : nat.

Lemma grow_test_rel (s1 : Grow Rand1) (s2 : Grow Rand2) :
  grow_rel s1 s2 -> grow_test Rand1 target s1 = grow_test Rand2 target s2.
Proof.
  intros (_ & Hs & Hg & Hb & _). unfold grow_test.
  now rewrite Hs, Hg, Hb.
Qed.

Lemma grow_body_rel (s1 : Grow Rand1) (s2 : Grow Rand2) :
  grow_rel s1 s2 ->
  grow_rel (grow_body RiTa Rand1 rand1 imagerySorted glueSorted target s1)
           (grow_body RiTa Rand2 rand2 imagerySorted glueSorted target s2).
Proof.
  intros Hrel. pose proof Hrel as (Hw & Hs & Hg & Hb & Hr).
  destruct (preferGlue_same _ _ Hrel) as [Ha Hr1].
  unfold grow_body. rewrite Hw, Hs, Ha.
  destruct (_ && _ && isGlue _).
  - unfold grow_rel, skip. cbn [g_words g_syl g_guard g_break g_rand].
    rewrite Hw, Hs, Hg. repeat split; exact Hr1.
  - destruct (negb (nonempty (fits_of _ _ _ _))).
    + destruct (negb (nonempty (alt_of _ _ _ _))).
      * unfold grow_rel, stop.
        cbn [g_words g_syl g_guard g_break g_rand].
        rewrite Hw, Hs, Hg. repeat split; exact Hr1.
      * apply push_rel; [exact Hrel|]. apply pick_same. exact Hr1.
    + apply push_rel; [exact Hrel|]. apply pick_same. exact Hr1.
Qed.

Lemma grow_sim (r1 : Rand1) (r2 : Rand2) :
  sim r1 r2 ->
  grow_rel (grow RiTa Rand1 rand1 imagerySorted glueSorted target r1)
           (grow RiTa Rand2 rand2 imagerySorted glueSorted target r2).
Proof.
  intros Hr. unfold grow. apply while_related.
  - apply grow_test_rel.
  - intros s1 s2 Hrel _. apply grow_body_rel. exact Hrel.
  - unfold grow_rel, grow_start. cbn. repeat split. exact Hr.
Qed.

Variable minWords : nat.

Definition natural_rel (s1 : NaturalAttempt Rand1)
           (s2 : NaturalAttempt Rand2) : Prop :=
  n_attempt s1 = n_attempt s2 /\ n_result s1 = n_result s2
  /\ sim (n_rand s1) (n_rand s2).

Lemma natural_body_rel (s1 : NaturalAttempt Rand1)
      (s2 : NaturalAttempt Rand2) :
  natural_rel s1 s2 ->
  natural_rel
    (natural_body RiTa Rand1 rand1 imagerySorted glueSorted target
                  minWords s1)
    (natural_body RiTa Rand2 rand2 imagerySorted glueSorted target
                  minWords s2).
Proof.
  intros (Ha & _ & Hr). unfold natural_body.
  destruct (grow_sim _ _ Hr) as (Hw & Hs & _ & _ & Hr').
  rewrite Hw, Hs, Ha.
  destruct (negb _); [|destruct (natural_enough _ _)];
    unfold natural_rel; cbn [n_attempt n_result n_rand];
    repeat split; exact Hr'.
Qed.

End GrowSim.

Lemma packNatural_same (pool : list string) (target : nat)
      (topic : TopicKey) (r1 : Rand1) (r2 : Rand2) (minWords : nat) :
  sim r1 r2 ->
  same (packNatural RiTa Rand1 rand1 pool target topic r1 minWords)
       (packNatural RiTa Rand2 rand2 pool target topic r2 minWords).
Proof.
  intros Hr. unfold packNatural, same. cbn [fst snd].
  assert (H : natural_rel
    (while (natural_test Rand1)
           (natural_body RiTa Rand1 rand1
              (JS.sort (by_syllables RiTa) pool)
              (JS.sort (by_syllables RiTa) GLUE_WORDS) target minWords)
           36 (natural_start Rand1 r1))
    (while (natural_test Rand2)
           (natural_body RiTa Rand2 rand2
              (JS.sort (by_syllables RiTa) pool)
              (JS.sort (by_syllables RiTa) GLUE_WORDS) target minWords)
           36 (natural_start Rand2 r2))).
  { apply while_related.
    - intros s1 s2 (Ha & Hres & _). unfold natural_test.
      now rewrite Ha, Hres.
    - intros s1 s2 Hrel _. apply natural_body_rel. exact Hrel.
    - unfold natural_rel, natural_start. cbn. repeat split. exact Hr. }
  destruct H as (_ & Hres & Hr'). split; assumption.
Qed.

(** *** [packExact] *)

Definition pass_rel (s1 : Pass Rand1) (s2 : Pass Rand2) : Prop :=
  p_pass s1 = p_pass s2 /\ p_line s1 = p_line s2 /\ p_syl s1 = p_syl s2
  /\ p_used s1 = p_used s2 /\ p_break s1 = p_break s2
  /\ sim (p_rand s1) (p_rand s2).

Definition exact_rel (s1 : ExactAttempt Rand1) (s2 : ExactAttempt Rand2)
  : Prop :=
  e_attempt s1 = e_attempt s2 /\ e_result s1 = e_result s2
  /\ sim (e_rand s1) (e_rand s2).

Section ExactSim.

Variable target : nat.
Variable topic : TopicKey.

Lemma pass_body_rel (rotated : list string) (s1 : Pass Rand1)
      (s2 : Pass Rand2) :
  pass_rel s1 s2 ->
  pass_rel (pass_body RiTa Rand1 rand1 target topic rotated s1)
           (pass_body RiTa Rand2 rand2 target topic rotated s2).
Proof.
  intros (Hp & Hl & Hs & Hu & _ & Hr). unfold pass_body.
  rewrite Hp, Hl, Hs, Hu.
  set (sc := scan RiTa target rotated (p_line s2) (p_syl s2) (p_used s2)).
  assert (Hpick : forall n,
    same (pick Rand1 rand1 (p_rand s1) (fillers_of RiTa topic n)
               (hd "" (fillers_of RiTa topic n)))
         (pick Rand2 rand2 (p_rand s2) (fillers_of RiTa topic n)
               (hd "" (fillers_of RiTa topic n))))
    by (intros n; apply pick_same; exact Hr).
  assert (Hfill : forall n,
    pass_rel
      (if nonempty (fillers_of RiTa topic n)
       then {| p_pass := S (p_pass s2);
               p_line := sc_line sc
                 ++ [fst (pick Rand1 rand1 (p_rand s1)
                            (fillers_of RiTa topic n)
                            (hd "" (fillers_of RiTa topic n)))];
               p_syl := sc_syl sc + n; p_used := sc_used sc;
               p_rand := snd (pick Rand1 rand1 (p_rand s1)
                            (fillers_of RiTa topic n)
                            (hd "" (fillers_of RiTa topic n)));
               p_break := false |}
       else {| p_pass := S (p_pass s2); p_line := sc_line sc;
               p_syl := sc_syl sc; p_used := sc_used sc;
               p_rand := p_rand s1; p_break := false |})
      (if nonempty (fillers_of RiTa topic n)
       then {| p_pass := S (p_pass s2);
               p_line := sc_line sc
                 ++ [fst (pick Rand2 rand2 (p_rand s2)
                            (fillers_of RiTa topic n)
                            (hd "" (fillers_of RiTa topic n)))];
               p_syl := sc_syl sc + n; p_used := sc_used sc;
               p_rand := snd (pick Rand2 rand2 (p_rand s2)
                            (fillers_of RiTa topic n)
                            (hd "" (fillers_of RiTa topic n)));
               p_break := false |}
       else {| p_pass := S (p_pass s2); p_line := sc_line sc;
               p_syl := sc_syl sc; p_used := sc_used sc;
               p_rand := p_rand s2; p_break := false |})).
  { intros n. destruct (Hpick n) as [Hw Hr'].
    destruct (nonempty (fillers_of RiTa topic n));
      unfold pass_rel; cbn [p_pass p_line p_syl p_used p_break p_rand];
      [rewrite Hw|]; repeat split; assumption. }
  destruct (sc_syl sc =? target).
  - unfold pass_rel. cbn [p_pass p_line p_syl p_used p_break p_rand].
    repeat split; exact Hr.
  - destruct (sc_syl sc <? target).
    + destruct (nonempty (fillers_of RiTa topic (target - sc_syl sc))).
      * destruct (Hpick (target - sc_syl sc)) as [Hw Hr'].
        unfold pass_rel. cbn [p_pass p_line p_syl p_used p_break p_rand].
        rewrite Hw. repeat split; exact Hr'.
      * destruct (2 <=? target - sc_syl sc); apply Hfill.
    + unfold pass_rel. cbn [p_pass p_line p_syl p_used p_break p_rand].
      repeat split; exact Hr.
Qed.

Lemma passes_sim (rotated : list string) (r1 : Rand1) (r2 : Rand2) :
  sim r1 r2 ->
  pass_rel (passes RiTa Rand1 rand1 target topic rotated r1)
           (passes RiTa Rand2 rand2 target topic rotated r2).
Proof.
  intros Hr. unfold passes. apply while_related.
  - intros s1 s2 (Hp & _ & _ & _ & Hb & _). unfold pass_test.
    now rewrite Hp, Hb.
  - intros s1 s2 Hrel _. apply pass_body_rel. exact Hrel.
  - unfold pass_rel. cbn. repeat split. exact Hr.
Qed.

Lemma exact_body_rel (pool : list string) (s1 : ExactAttempt Rand1)
      (s2 : ExactAttempt Rand2) :
  exact_rel s1 s2 ->
  exact_rel (exact_body RiTa Rand1 rand1 pool target topic s1)
            (exact_body RiTa Rand2 rand2 pool target topic s2).
Proof.
  intros (Ha & _ & Hr). unfold exact_body.
  destruct (rand_sim _ _ Hr) as [Hk Hr1]. rewrite Hk, Ha.
  match goal with
  | |- context [passes RiTa Rand2 rand2 target topic ?rot _] =>
      destruct (passes_sim rot _ _ Hr1)
        as (_ & Hl & Hs & _ & _ & Hr')
  end.
  rewrite Hl, Hs.
  destruct (_ =? target); unfold exact_rel;
    cbn [e_attempt e_result e_rand]; repeat split; exact Hr'.
Qed.

End ExactSim.

Lemma packExact_same (pool : list string) (target : nat)
      (topic : TopicKey) (r1 : Rand1) (r2 : Rand2) :
  sim r1 r2 ->
  same (packExact RiTa Rand1 rand1 pool target topic r1)
       (packExact RiTa Rand2 rand2 pool target topic r2).
Proof.
  intros Hr. unfold packExact, same. cbn [fst snd].
  assert (H : exact_rel
    (while (exact_test Rand1)
           (exact_body RiTa Rand1 rand1 pool target topic) 6
           {| e_attempt := 0; e_rand := r1; e_result := None |})
    (while (exact_test Rand2)
           (exact_body RiTa Rand2 rand2 pool target topic) 6
           {| e_attempt := 0; e_rand := r2; e_result := None |})).
  { apply while_related.
    - intros s1 s2 (Ha & Hres & _). unfold exact_test.
      now rewrite Ha, Hres.
    - intros s1 s2 Hrel _. apply exact_body_rel. exact Hrel.
    - unfold exact_rel. cbn. repeat split. exact Hr. }
  destruct H as (_ & Hres & Hr'). split; assumption.
Qed.

(** *** The composer *)

Lemma packLine_same (pool : list string) (target : nat)
      (topic : TopicKey) (r1 : Rand1) (r2 : Rand2) (minWords : nat) :
  sim r1 r2 ->
  same (packLine RiTa Rand1 rand1 pool target topic r1 minWords)
       (packLine RiTa Rand2 rand2 pool target topic r2 minWords).
Proof.
  intros Hr. unfold packLine.
  destruct (packNatural_same pool target topic _ _ minWords Hr)
    as [Hl Hr'].
  destruct (packNatural RiTa Rand1 rand1 pool target topic r1 minWords)
    as [l1 r1'].
  destruct (packNatural RiTa Rand2 rand2 pool target topic r2 minWords)
    as [l2 r2'].
  cbn [fst snd] in Hl, Hr'. subst l2.
  destruct l1 as [line|].
  - split; [reflexivity|exact Hr'].
  - apply packExact_same. exact Hr'.
Qed.

Lemma workingPool_same (text : string) (r1 : Rand1) (r2 : Rand2) :
  sim r1 r2 ->
  same (workingPool RiTa Rand1 rand1 text r1)
       (workingPool RiTa Rand2 rand2 text r2).
Proof.
  intros Hr. unfold workingPool.
  destruct (nonempty _); [|split; [reflexivity|exact Hr]].
  destruct (rand_sim _ _ Hr) as [Hk Hr1].
  destruct (rand1 r1) as [k1 r1'], (rand2 r2) as [k2 r2'].
  cbn [fst snd] in Hk, Hr1. subst k2.
  destruct (draw_lt k1 1 2); [|split; [reflexivity|exact Hr1]].
  match goal with
  | |- context [pick Rand1 rand1 r1' ?arr ?fb] =>
      destruct (pick_same r1' r2' arr fb Hr1) as [Hp Hr2];
      destruct (pick Rand1 rand1 r1' arr fb) as [ph1 q1];
      destruct (pick Rand2 rand2 r2' arr fb) as [ph2 q2]
  end.
  cbn [fst snd] in Hp, Hr2. subst ph2. split; [reflexivity|exact Hr2].
Qed.

Lemma strictLines_sim (text : string) (r1 : Rand1) (r2 : Rand2) :
  sim r1 r2 ->
  strictLines RiTa Rand1 rand1 text r1 = strictLines RiTa Rand2 rand2 text r2.
Proof.
  intros Hr. unfold strictLines.
  destruct (workingPool_same text _ _ Hr) as [Hp Hr0].
  destruct (workingPool RiTa Rand1 rand1 text r1) as [pool a0].
  destruct (workingPool RiTa Rand2 rand2 text r2) as [pool' b0].
  cbn [fst snd] in Hp, Hr0. subst pool'.
  destruct (packLine_same pool 5 (topicOf text) _ _ 3 Hr0) as [H1 Hr1].
  destruct (packLine RiTa Rand1 rand1 pool 5 (topicOf text) a0 3)
    as [l1 a1].
  destruct (packLine RiTa Rand2 rand2 pool 5 (topicOf text) b0 3)
    as [l1' b1].
  cbn [fst snd] in H1, Hr1. subst l1'.
  destruct (packLine_same pool 7 (topicOf text) _ _ 4 Hr1) as [H2 Hr2].
  destruct (packLine RiTa Rand1 rand1 pool 7 (topicOf text) a1 4)
    as [l2 a2].
  destruct (packLine RiTa Rand2 rand2 pool 7 (topicOf text) b1 4)
    as [l2' b2].
  cbn [fst snd] in H2, Hr2. subst l2'.
  destruct (packLine_same pool 5 (topicOf text) _ _ 3 Hr2) as [H3 Hr3].
  destruct (packLine RiTa Rand1 rand1 pool 5 (topicOf text) a2 3)
    as [l3 a3].
  destruct (packLine RiTa Rand2 rand2 pool 5 (topicOf text) b2 3)
    as [l3' b3].
  cbn [fst snd] in H3. subst l3'. reflexivity.
Qed.

Lemma composeFrom_sim (text : string) (r1 : Rand1) (r2 : Rand2) :
  sim r1 r2 ->
  composeFrom RiTa Rand1 rand1 text r1 = composeFrom RiTa Rand2 rand2 text r2.
Proof.
  intros Hr. unfold composeFrom. now rewrite (strictLines_sim text _ _ Hr).
Qed.

End Simulation.

(** The usual mulberry32 keeps its state within 32 bits; the one of the
    code lets it grow.  Both yield the same draws. *)
Definition mulberry32_wrapped (a : Z) : Z * Z :=
  (fst (mulberry32_rand a), JS.ToUint32 (snd (mulberry32_rand a))).

Lemma ToUint32_add (x c : Z) :
  JS.ToUint32 (JS.ToUint32 x + c) = JS.ToUint32 (x + c).
Proof. rewrite !ToUint32_mod. apply Zplus_mod_idemp_l. Qed.

Lemma mulberry32_draw_low_bits (t a : Z) :
  JS.ToUint32 t = JS.ToUint32 a ->
  fst (mulberry32_rand t) = fst (mulberry32_rand a).
Proof.
  intros H.
  assert (H' : JS.ToUint32 (t + 1831565813) = JS.ToUint32 (a + 1831565813))
    by (rewrite <- (ToUint32_add t), <- (ToUint32_add a), H; reflexivity).
  assert (Hint : JS.ToInt32 (t + 1831565813) = JS.ToInt32 (a + 1831565813))
    by (unfold JS.ToInt32; rewrite H'; reflexivity).
  assert (Hushr : JS.ushr (t + 1831565813) 15 = JS.ushr (a + 1831565813) 15)
    by (unfold JS.ushr; rewrite H'; reflexivity).
  assert (Hxor : JS.xor (t + 1831565813) (JS.ushr (t + 1831565813) 15)
                 = JS.xor (a + 1831565813) (JS.ushr (a + 1831565813) 15))
    by (unfold JS.xor; rewrite Hint, Hushr; reflexivity).
  assert (Hor : JS.or 1 (t + 1831565813) = JS.or 1 (a + 1831565813))
    by (unfold JS.or; rewrite Hint; reflexivity).
  unfold mulberry32_rand. cbv zeta. cbn [fst].
  rewrite Hxor, Hor. reflexivity.
Qed.

Lemma wrapped_simulates (t a : Z) :
  JS.ToUint32 t = a ->
  fst (mulberry32_rand t) = fst (mulberry32_wrapped a)
  /\ JS.ToUint32 (snd (mulberry32_rand t)) = snd (mulberry32_wrapped a).
Proof.
  intros <-. unfold mulberry32_wrapped. cbn [fst snd]. split.
  - apply mulberry32_draw_low_bits. rewrite !ToUint32_mod.
    now rewrite Zmod_mod.
  - unfold mulberry32_rand. cbn [snd]. now rewrite ToUint32_add.
Qed.

(** A generator [(Rand, rand, r)] that yields the draws of
    [mulberry32(seed || 1)]: some relation between the state of the seeded
    generator and its own is kept by every call, and the two draw alike. *)
Definition seeded (seed : Z) (Rand : Type) (rand : Rand -> Z * Rand)
           (r : Rand) : Prop :=
  exists sim : Z -> Rand -> Prop,
    (forall t r', sim t r' ->
        fst (mulberry32_rand t) = fst (rand r')
        /\ sim (snd (mulberry32_rand t)) (snd (rand r')))
    /\ sim (mulberry32 (JS.or_else seed 1)) r.

Lemma seeded_composeFrom (RiTa : RiTaLib) (text : string) (seed : Z)
      (Rand : Type) (rand : Rand -> Z * Rand) (r : Rand) :
  seeded seed Rand rand r ->
  composeFrom RiTa Rand rand text r = composeHaikuRiTa RiTa text seed.
Proof.
  intros [sim [Hsim Hr]]. unfold composeHaikuRiTa. symmetry.
  apply (composeFrom_sim RiTa Z Rand mulberry32_rand rand sim Hsim text).
  exact Hr.
Qed.

Lemma mulberry32_seeded (seed : Z) :
  seeded seed Z mulberry32_rand (mulberry32 (JS.or_else seed 1)).
Proof.
  exists eq. split; [|reflexivity].
  intros t r' <-. split; reflexivity.
Qed.

Lemma mulberry32_wrapped_seeded (seed : Z) :
  seeded seed Z mulberry32_wrapped (mulberry32 (JS.or_else seed 1)).
Proof.
  exists (fun t a => JS.ToUint32 t = a). split.
  - exact wrapped_simulates.
  - unfold mulberry32. rewrite !ToUint32_mod. apply Zmod_mod.
Qed.

(** The usual mulberry32, of 32-bit state, gives the haikus of the code. *)
Lemma wrapped_generator_same_haiku (RiTa : RiTaLib) (text : string)
      (seed : Z) :
  composeFrom RiTa Z mulberry32_wrapped text (mulberry32 (JS.or_else seed 1))
  = composeHaikuRiTa RiTa text seed.
Proof. apply seeded_composeFrom. apply mulberry32_wrapped_seeded. Qed.

(** *** Invocations in a store *)



(** The other variables of the store are left alone by a call. *)
Lemma store_set_other (l l' : nat) (v : Z) (st : Store) :
  l' <> l -> nth l' (store_set l v st) 0%Z = nth l' st 0%Z.
Proof.
  revert l l'. induction st as [|x st IH]; intros [|l] [|l'] H; simpl;
    try reflexivity; try congruence.
  apply IH. congruence.
Qed.



(** ** Where the code departs from its specification *)

(** Two adjacent words of a line that are both glue words. *)
Fixpoint adjacent_glue (words : list string) : bool :=
  match words with
  | a :: (b :: _) as rest => (isGlue a && isGlue b) || adjacent_glue rest
  | _ => false
  end.

(** C3.  Tokens of zero syllables are placed in lines.  The loose fallback
    tests [syl + s <= t] at line 204 without the test [s === 0] of
    [packExact]: with the imagery ["--"; "waves"] every line is "-- waves",
    and "--" counts zero syllables; through the composer, when the syllable
    lookups all fail, the haiku returned consists of words of zero syllables
    only.  In [packNatural] the filter of line 126 lacks the test [> 0] of
    line 124: when the lookup of "a" fails, a returned line contains "a". *)
Theorem zero_syllable_tokens_are_placed :
  (imageryWords Demo.RiTa "-- waves" = ["--"; "waves"]
   /\ syllablesInWord Demo.RiTa "--" = 0
   /\ fallbackLoose Demo.RiTa "-- waves"
      = JS.join (String newline "") ["-- waves"; "-- waves"; "-- waves"])
  /\ (haikuWords (composeHaikuRiTa Mute "snow on the beach" 3)
      = ["snow"; "beach"; "snow"; "beach"; "snow"; "beach"]
      /\ syllablesInWord Mute "snow" = 0
      /\ syllablesInWord Mute "beach" = 0)
  /\ (fst (packNatural Patchy Z mulberry32_rand
                       ["ocean"; "seagull"; "sunblock"] 5 beach
                       (mulberry32 55) 3)
      = Some ["seagull"; "sunblock"; "a"; "with"]
      /\ syllablesInWord Patchy "a" = 0).
Proof.
  split; [|split].
  - repeat split; vm_compute; reflexivity.
  - rewrite mute_beach_haiku. repeat split; vm_compute; reflexivity.
  - split; vm_compute; reflexivity.
Qed.

(** C4.  [packNatural] returns lines with two adjacent glue words: the
    test of line 123 only skips a glue attempt, and the words taken from the
    other source at line 126 are not tested.  With the pool ["summit"],
    target 7, at least 3 words and the generator [mulberry32(1)], the line
    ends with "at of".  A pool word that is itself a glue word is not tested
    either: with "near" in the pool, target 5 and at least 3 words, the line
    starts with "near near". *)
Theorem packNatural_adjacent_glue :
  (fst (packNatural Demo.RiTa Z mulberry32_rand ["summit"] 7 generic
                    (mulberry32 1) 3)
   = Some ["summit"; "and"; "summit"; "at"; "of"]
   /\ adjacent_glue ["summit"; "and"; "summit"; "at"; "of"] = true)
  /\ (fst (packNatural Demo.RiTa Z mulberry32_rand
                       ["summit"; "alpine"; "ridge"; "near"] 5 mountain
                       (mulberry32 2) 3)
      = Some ["near"; "near"; "ridge"; "from"; "ridge"]
      /\ adjacent_glue ["near"; "near"; "ridge"; "from"; "ridge"] = true).
Proof. repeat split; vm_compute; reflexivity. Qed.

(** * Further properties of the code *)

(** ** The generator and [pick] *)

(** The first [n] draws of a generator. *)
Fixpoint draws {Rand : Type} (rand : Rand -> Z * Rand) (n : nat) (r : Rand)
  : list Z :=
  match n with
  | 0 => []
  | S n' => fst (rand r) :: draws rand n' (snd (rand r))
  end.

(** The state of the generator of the code after [n] calls. *)
Fixpoint state_after (n : nat) (t : Z) : Z :=
  match n with
  | 0 => t
  | S n' => state_after n' (snd (mulberry32_rand t))
  end.

Lemma state_after_sum (n : nat) (t : Z) :
  state_after n t = (t + Z.of_nat n * 1831565813)%Z.
Proof.
  revert t. induction n as [|n IH]; intros t.
  - simpl. lia.
  - cbn [state_after]. rewrite IH. unfold mulberry32_rand. cbn [snd]. lia.
Qed.

Lemma draws_wrapped (n : nat) (t a : Z) :
  JS.ToUint32 t = a ->
  draws mulberry32_rand n t = draws mulberry32_wrapped n a.
Proof.
  revert t a. induction n as [|n IH]; intros t a H; [reflexivity|].
  cbn [draws]. destruct (wrapped_simulates t a H) as [Hk Hs].
  rewrite Hk. f_equal. apply IH. exact Hs.
Qed.

Lemma draws_range (n : nat) (t : Z) :
  Forall (fun k => (0 <= k < JS.two32)%Z) (draws mulberry32_rand n t).
Proof.
  revert t. induction n as [|n IH]; intros t; cbn [draws]; constructor.
  - apply mulberry32_draw_range.
  - apply IH.
Qed.

(** [mulberry32] lets its state [t] grow ([t += 0x6D2B79F5] without
    [| 0]).  During the first 4194304 calls, for every seed: the state is
    the seed, as an unsigned 32-bit number, plus the number of calls times
    the increment, and is below 2^53, so that the double of the code holds
    it exactly; the draws are those of the generator that keeps its state
    within 32 bits; and every draw is a number in [0, 1). *)
Theorem mulberry32_stream :
  forall (seed : Z) (n : nat),
    (Z.of_nat n <= 4194304)%Z ->
    draws mulberry32_rand n (mulberry32 seed)
    = draws mulberry32_wrapped n (mulberry32 seed)
    /\ Forall (fun k => (0 <= k < JS.two32)%Z)
              (draws mulberry32_rand n (mulberry32 seed))
    /\ state_after n (mulberry32 seed)
       = (JS.ToUint32 seed + Z.of_nat n * 1831565813)%Z
    /\ (0 <= state_after n (mulberry32 seed) < 2 ^ 53)%Z.
Proof.
  intros seed n Hn. split; [|split; [|split]].
  - apply draws_wrapped. unfold mulberry32. rewrite !ToUint32_mod.
    apply Zmod_mod.
  - apply draws_range.
  - apply state_after_sum.
  - rewrite state_after_sum. unfold mulberry32.
    rewrite ToUint32_mod.
    pose proof (Z.mod_pos_bound seed (2 ^ 32) ltac:(lia)) as Hb.
    generalize dependent (seed mod 2 ^ 32)%Z. intros u Hu.
    change (2 ^ 32)%Z with 4294967296%Z in Hu.
    change (2 ^ 53)%Z with 9007199254740992%Z.
    pose proof (Nat2Z.is_nonneg n) as Hn'.
    generalize dependent (Z.of_nat n). intros m Hm Hm'. lia.
Qed.

Lemma mulberry32_stream_witness :
  (Z.of_nat 3 <= 4194304)%Z
  /\ draws mulberry32_rand 3 (mulberry32 3)
     = draws mulberry32_wrapped 3 (mulberry32 3)
  /\ state_after 3 (mulberry32 3) = 5494697442%Z.
Proof.
  assert (H : (Z.of_nat 3 <= 4194304)%Z) by (vm_compute; discriminate).
  destruct (mulberry32_stream 3 3 H) as (Hd & _ & Hs & _).
  split; [exact H|]. split; [exact Hd|]. rewrite Hs. reflexivity.
Defined.

(** On a non-empty array [pick] with the generator of the code returns an
    element of the array, whatever the fallback, after exactly one call of
    the generator: [Math.floor(rand() * arr.length)] is always an index of
    the array. *)
Theorem pick_in_bounds :
  forall (T : Type) (t : Z) (arr : list T) (fallback : T),
    arr <> [] ->
    exists i,
      i < List.length arr
      /\ nth_error arr i
         = Some (fst (pick Z mulberry32_rand t arr fallback))
      /\ snd (pick Z mulberry32_rand t arr fallback)
         = snd (mulberry32_rand t).
Proof.
  intros T t arr fallback Hne. unfold pick.
  destruct arr as [|a arr]; [congruence|].
  pose proof (mulberry32_draw_range t) as Hk.
  destruct (mulberry32_rand t) as [k t']. cbn [fst snd] in *.
  exists (draw_index k (List.length (a :: arr))).
  assert (Hi : draw_index k (List.length (a :: arr))
               < List.length (a :: arr))
    by (apply draw_index_in_range; [exact Hk|simpl; lia]).
  split; [exact Hi|]. split; [|reflexivity].
  apply nth_error_nth'. exact Hi.
Qed.

Lemma pick_in_bounds_witness :
  ["hot sand"; "salt wind"] <> []
  /\ exists i,
       i < List.length ["hot sand"; "salt wind"]
       /\ nth_error ["hot sand"; "salt wind"] i
          = Some (fst (pick Z mulberry32_rand (mulberry32 3)
                            ["hot sand"; "salt wind"] ""))
       /\ snd (pick Z mulberry32_rand (mulberry32 3)
                    ["hot sand"; "salt wind"] "")
          = snd (mulberry32_rand (mulberry32 3)).
Proof.
  split; [discriminate|].
  apply (pick_in_bounds string (mulberry32 3) ["hot sand"; "salt wind"] "").
  discriminate.
Defined.

(** ** Syllables and imagery *)

(** [syllablesInWord] is 0 exactly for a word without any letter (the empty
    word included) and for a word RiTa has no usable answer for (not a
    string, or the empty string); any other answer counts at least 1, even
    one made of separators only. *)
Theorem syllablesInWord_zero_iff :
  forall (RiTa : RiTaLib) (word : string),
    syllablesInWord RiTa word = 0
    <-> JS.has_letter word = false
        \/ syllables RiTa word = None
        \/ syllables RiTa word = Some "".
Proof.
  intros RiTa word. unfold syllablesInWord.
  destruct word as [|c w].
  - simpl. split; auto.
  - cbn [JS.truthy negb orb].
    destruct (JS.has_letter (String c w)) eqn:Hl; cbn [negb].
    + destruct (syllables RiTa (String c w)) as [[|d sylStr]|].
      * cbn. split; auto.
      * cbn [JS.truthy negb].
        destruct (0 <? List.length _) eqn:Hn.
        -- apply Nat.ltb_lt in Hn. split.
           ++ intros H. lia.
           ++ intros [H|[H|H]]; discriminate.
        -- split; [discriminate|].
           intros [H|[H|H]]; discriminate.
      * split; auto.
    + split; auto.
Qed.

Lemma lower_char_idempotent (c : ascii) :
  JS.lower_char (JS.lower_char c) = JS.lower_char c.
Proof. each_ascii c; reflexivity. Qed.

Lemma toLowerCase_idempotent (s : string) :
  JS.toLowerCase (JS.toLowerCase s) = JS.toLowerCase s.
Proof.
  induction s as [|c s IH]; simpl; [reflexivity|].
  now rewrite lower_char_idempotent, IH.
Qed.

Lemma imageryWords_from_shape (pos : list string) (i : nat)
      (rest : list string) :
  Forall (fun w => JS.toLowerCase w = w /\ w <> "other" /\ w <> "another")
         (imageryWords_from pos i rest)
  /\ List.length (imageryWords_from pos i rest) <= List.length rest.
Proof.
  revert i. induction rest as [|tok rest IH]; intros i; simpl.
  - split; [constructor|lia].
  - destruct (IH (S i)) as [IHf IHl].
    destruct (_ && _) eqn:Hkeep.
    + split; [|simpl; lia]. constructor; [|exact IHf].
      apply andb_prop in Hkeep. destruct Hkeep as [_ Hstop].
      apply negb_true_iff in Hstop.
      split; [apply toLowerCase_idempotent|].
      split; intros E; rewrite E in Hstop; discriminate Hstop.
    + split; [exact IHf|lia].
Qed.

(** The imagery extracted from a text is in lower case, never contains the
    words "other" and "another", and has at most one word per token. *)
Theorem imageryWords_shape :
  forall (RiTa : RiTaLib) (text : string),
    Forall (fun w => JS.toLowerCase w = w /\ w <> "other" /\ w <> "another")
           (imageryWords RiTa text)
    /\ List.length (imageryWords RiTa text)
       <= List.length (tokenize RiTa text).
Proof.
  intros RiTa text. unfold imageryWords, tokenizePOS.
  apply imageryWords_from_shape.
Qed.




(** ** More on the topic *)

Lemma scoreTopic_best (tokens : list string) :
  exists best,
    (forall k, spec_score (map JS.toLowerCase tokens) k
               <= spec_score (map JS.toLowerCase tokens) best)
    /\ scoreTopic tokens
       = if spec_score (map JS.toLowerCase tokens) best =? 0
         then generic else best.
Proof.
  set (lower := map JS.toLowerCase tokens).
  destruct (sorted_scores_head (spec_score lower)) as [best [Hmax [_ Hhd]]].
  exists best. split; [exact Hmax|].
  unfold scoreTopic. fold lower.
  replace (map (fun k => (k, topic_score lower k)) topic_keys)
    with (map (fun k => (k, spec_score lower k)) topic_keys)
    by (apply map_ext; intros k; now rewrite topic_score_spec).
  change (fun a b : TopicKey * nat => (Z.of_nat (snd b) - Z.of_nat (snd a))%Z)
    with by_score_desc.
  destruct (JS.sort by_score_desc _) as [|hd tl]; [discriminate|].
  simpl in Hhd. injection Hhd as ->. simpl.
  destruct (spec_score lower best); reflexivity.
Qed.

(** Some token contains the keyword. *)
Definition mentions (lower : list string) (kw : string) : bool :=
  existsb (fun t => JS.str_includes t kw) lower.

Lemma startsWith_refl (s : string) : JS.startsWith s s = true.
Proof.
  induction s as [|c s IH]; simpl; [reflexivity|].
  now rewrite Ascii.eqb_refl, IH.
Qed.

Lemma str_includes_refl (s : string) : JS.str_includes s s = true.
Proof. destruct s; simpl; [reflexivity|]. now rewrite Ascii.eqb_refl, startsWith_refl. Qed.

Lemma includes_mentions (lower : list string) (kw : string) :
  JS.includes lower kw = true -> mentions lower kw = true.
Proof.
  intros H. apply includes_In in H. unfold mentions.
  apply existsb_exists. exists kw. split; [exact H|apply str_includes_refl].
Qed.

Lemma spec_points_zero (lower : list string) (kw : string) :
  spec_points lower kw = 0 <-> mentions lower kw = false.
Proof.
  unfold spec_points. fold (mentions lower kw).
  destruct (JS.includes lower kw) eqn:Hi.
  - rewrite (includes_mentions _ _ Hi). split; [lia|discriminate].
  - destruct (mentions lower kw); split; try lia; try discriminate; auto.
Qed.

Lemma list_sum_zero (l : list nat) :
  list_sum l = 0 <-> forall n, In n l -> n = 0.
Proof.
  induction l as [|x l IH]; simpl.
  - split; [intros _ n []|reflexivity].
  - split.
    + intros H n [<-|Hn]; [lia|]. apply IH; [lia|exact Hn].
    + intros H. rewrite (H x (or_introl eq_refl)).
      apply IH. intros n Hn. apply H. now right.
Qed.

Lemma spec_score_zero (lower : list string) (k : TopicKey) :
  spec_score lower k = 0
  <-> forall kw, In kw (TOPIC_KEYWORDS k) -> mentions lower kw = false.
Proof.
  unfold spec_score. rewrite list_sum_zero. split.
  - intros H kw Hkw. apply spec_points_zero. apply H.
    apply in_map. exact Hkw.
  - intros H n Hn. apply in_map_iff in Hn. destruct Hn as [kw [<- Hkw]].
    apply spec_points_zero. apply H. exact Hkw.
Qed.

(** [scoreTopic] answers [generic] exactly when no token contains, in lower
    case, a keyword of any topic. *)
Theorem scoreTopic_generic_iff :
  forall (tokens : list string),
    scoreTopic tokens = generic
    <-> forall k kw,
          In kw (TOPIC_KEYWORDS k) ->
          mentions (map JS.toLowerCase tokens) kw = false.
Proof.
  intros tokens.
  destruct (scoreTopic_best tokens) as [best [Hmax Hres]].
  set (lower := map JS.toLowerCase tokens) in *. clearbody lower.
  split.
  - intros Hg k kw Hkw.
    assert (Hzero : spec_score lower best = 0).
    { destruct (spec_score lower best =? 0) eqn:E;
        [apply Nat.eqb_eq; exact E|].
      rewrite Hres in Hg. rewrite Hg. reflexivity. }
    assert (Hk : spec_score lower k = 0) by (specialize (Hmax k); lia).
    apply (proj1 (spec_score_zero lower k) Hk). exact Hkw.
  - intros Hnone. rewrite Hres.
    assert (Hzero : spec_score lower best = 0)
      by (apply spec_score_zero; intros kw Hkw; apply (Hnone best); exact Hkw).
    rewrite Hzero. reflexivity.
Qed.

(** When a keyword of a topic is one of the tokens, in lower case, and no
    token contains a keyword of any other topic, [scoreTopic] answers that
    topic. *)
Theorem scoreTopic_stable :
  forall (tokens : list string) (topic : TopicKey) (kw : string),
    In kw (TOPIC_KEYWORDS topic) ->
    JS.includes (map JS.toLowerCase tokens) kw = true ->
    (forall k kw',
        k <> topic -> In kw' (TOPIC_KEYWORDS k) ->
        mentions (map JS.toLowerCase tokens) kw' = false) ->
    scoreTopic tokens = topic.
Proof.
  intros tokens topic kw Hkw Hin Hothers.
  destruct (scoreTopic_best tokens) as [best [Hmax Hres]].
  set (lower := map JS.toLowerCase tokens) in *. clearbody lower.
  assert (Hpos : 0 < spec_score lower topic).
  { destruct (spec_score lower topic) eqn:E; [|lia].
    pose proof (proj1 (spec_score_zero lower topic) E kw Hkw) as Hm.
    rewrite (includes_mentions _ _ Hin) in Hm. discriminate. }
  assert (Hbest : best = topic).
  { destruct (TopicKey_eqb best topic) eqn:E.
    - destruct best, topic; try discriminate E; reflexivity.
    - assert (Hne : best <> topic)
        by (intros ->; destruct topic; discriminate E).
      assert (Hz : spec_score lower best = 0)
        by (apply spec_score_zero; intros kw' Hkw';
            apply (Hothers best); assumption).
      specialize (Hmax topic). lia. }
  rewrite Hres, Hbest.
  destruct (spec_score lower topic); [lia|reflexivity].
Qed.

Lemma scoreTopic_stable_witness :
  In "waves" (TOPIC_KEYWORDS beach)
  /\ JS.includes (map JS.toLowerCase ["the"; "Waves"; "rolled"]) "waves" = true
  /\ scoreTopic ["the"; "Waves"; "rolled"] = beach.
Proof.
  assert (H1 : In "waves" (TOPIC_KEYWORDS beach))
    by (apply includes_In; vm_compute; reflexivity).
  assert (H2 : JS.includes (map JS.toLowerCase ["the"; "Waves"; "rolled"])
                           "waves" = true) by (vm_compute; reflexivity).
  split; [exact H1|]. split; [exact H2|].
  apply (scoreTopic_stable ["the"; "Waves"; "rolled"] beach "waves" H1 H2).
  intros k kw' Hk Hkw'.
  destruct k; try congruence; simpl in Hkw';
    repeat (destruct Hkw' as [<-|Hkw']; [vm_compute; reflexivity|]);
    destruct Hkw'.
Defined.

(** ** The pool without duplicates *)

Lemma unique_from_distinct (seen pool : list string) :
  NoDup (map JS.toLowerCase (unique_from seen pool))
  /\ (forall k, In k (map JS.toLowerCase (unique_from seen pool)) ->
                ~ In k seen)
  /\ (forall w, In w pool ->
                In (JS.toLowerCase w) seen
                \/ In (JS.toLowerCase w)
                      (map JS.toLowerCase (unique_from seen pool))).
Proof.
  revert seen. induction pool as [|w rest IH]; intros seen; simpl.
  - split; [constructor|]. split; [intros k []|intros w []].
  - destruct (JS.includes seen (JS.toLowerCase w)) eqn:Hseen.
    + destruct (IH seen) as [Hnd [Hfresh Hall]].
      split; [exact Hnd|]. split; [exact Hfresh|].
      intros x [<-|Hx]; [left; apply includes_In; exact Hseen|].
      apply Hall. exact Hx.
    + destruct (IH (JS.toLowerCase w :: seen)) as [Hnd [Hfresh Hall]].
      assert (Hw : ~ In (JS.toLowerCase w) seen).
      { intros Hin. apply includes_In in Hin. congruence. }
      split; [|split].
      * simpl. constructor; [|exact Hnd].
        intros Hin. apply (Hfresh _ Hin). left. reflexivity.
      * simpl. intros k [<-|Hk]; [exact Hw|].
        intros Hin. apply (Hfresh _ Hk). right. exact Hin.
      * intros x [<-|Hx]; [right; left; reflexivity|].
        destruct (Hall x Hx) as [[E|Hs]|Hu].
        -- right. left. exact E.
        -- left. exact Hs.
        -- right. right. exact Hu.
Qed.

(** The pool built from the imagery and the nouns of the topic holds no two
    words that are equal up to case, and every imagery word the topic does
    not ban and every noun of the topic is in it up to case. *)
Theorem uniquePool_distinct :
  forall (RiTa : RiTaLib) (text : string),
    NoDup (map JS.toLowerCase (uniquePool RiTa text))
    /\ forall w,
         allowed_imagery RiTa text w
         \/ In w (nouns (TOPIC_FILLERS (topicOf text))) ->
         In (JS.toLowerCase w) (map JS.toLowerCase (uniquePool RiTa text)).
Proof.
  intros RiTa text. unfold uniquePool.
  match goal with
  | |- context [unique_from [] ?pool] =>
      destruct (unique_from_distinct [] pool) as [Hnd [_ Hall]]
  end.
  split; [exact Hnd|].
  intros w Hw.
  match type of Hall with
  | forall x, In x ?pool -> _ => assert (Hin : In w pool)
  end.
  { apply in_or_app. destruct Hw as [[Hi Hb]|Hn]; [left|right; exact Hn].
    apply filter_In. split; [exact Hi|].
    apply negb_true_iff.
    destruct (JS.includes _ w) eqn:E; [|reflexivity].
    apply includes_In in E. contradiction. }
  destruct (Hall w Hin) as [[]|H]. exact H.
Qed.

(** ** The contract of the packers *)

(** A line returned by [packNatural] counts exactly [target] syllables and
    is made of words of the pool and of glue words. *)
Theorem packNatural_contract :
  forall (RiTa : RiTaLib) (Rand : Type) (rand : Rand -> Z * Rand)
         (pool : list string) (target : nat) (topic : TopicKey) (r : Rand)
         (minWords : nat) (words : list string),
    fst (packNatural RiTa Rand rand pool target topic r minWords) = Some words ->
    total_syl RiTa words = target
    /\ Forall (fun w => In w pool \/ In w GLUE_WORDS) words.
Proof.
  intros RiTa Rand rand pool target topic r minWords words H.
  apply packNatural_line in H. destruct H as [Hsyl [Hw _]].
  split; [exact Hsyl|exact Hw].
Qed.

Lemma packNatural_contract_witness :
  let words := ["bright"; "to"; "sand"; "waves"; "and"] in
  fst (packNatural Demo.RiTa Z mulberry32_rand
                   ["waves"; "warm"; "sand"; "bright"; "sky"] 5 beach
                   (mulberry32 3) 3)
  = Some words
  /\ total_syl Demo.RiTa words = 5
  /\ Forall (fun w => In w ["waves"; "warm"; "sand"; "bright"; "sky"]
                      \/ In w GLUE_WORDS) words.
Proof.
  intros words.
  assert (H : fst (packNatural Demo.RiTa Z mulberry32_rand
                     ["waves"; "warm"; "sand"; "bright"; "sky"] 5 beach
                     (mulberry32 3) 3) = Some words)
    by (vm_compute; reflexivity).
  split; [exact H|].
  exact (packNatural_contract Demo.RiTa Z mulberry32_rand _ 5 beach _ 3
           words H).
Defined.

Section ExactPositive.

Variable RiTa : RiTaLib.
Variable Rand : Type.
Variable rand : Rand -> Z * Rand.
Variable target : nat.
Variable topic : TopicKey.

Definition voiced (w : string) : Prop := 0 < syllablesInWord RiTa w.

Lemma scan_voiced (rotated line : list string) (syl : nat)
      (used : list nat) :
  Forall voiced line ->
  Forall voiced (sc_line (scan RiTa target rotated line syl used)).
Proof.
  intros Hline. unfold scan.
  apply (while_invariant (scan_test target rotated)
           (scan_body RiTa target rotated)
           (fun s => Forall voiced (sc_line s))); [|exact Hline].
  intros s Hs _. unfold scan_body.
  destruct (existsb _ _); [exact Hs|].
  destruct (syllablesInWord RiTa (nth (sc_i s) rotated "") =? 0) eqn:Hz;
    [exact Hs|].
  destruct (_ <=? target); [|exact Hs].
  cbn [sc_line]. apply Forall_app. split; [exact Hs|].
  constructor; [|constructor].
  apply Nat.eqb_neq in Hz. unfold voiced. lia.
Qed.

Lemma filler_voiced (r : Rand) (n : nat) :
  0 < n ->
  nonempty (fillers_of RiTa topic n) = true ->
  voiced (fst (pick Rand rand r (fillers_of RiTa topic n)
                    (hd "" (fillers_of RiTa topic n)))).
Proof.
  intros Hn Hne.
  pose proof (pick_In Rand rand r _ Hne) as Hin.
  unfold fillers_of in Hin at 3. apply filter_In in Hin.
  destruct Hin as [_ E]. apply Nat.eqb_eq in E.
  unfold voiced. rewrite E. exact Hn.
Qed.

Lemma pass_body_voiced (rotated : list string) (s : Pass Rand) :
  Forall voiced (p_line s) ->
  Forall voiced (p_line (pass_body RiTa Rand rand target topic rotated s)).
Proof.
  intros Hs. unfold pass_body.
  pose proof (scan_voiced rotated (p_line s) (p_syl s) (p_used s) Hs) as Hsc.
  set (sc := scan RiTa target rotated (p_line s) (p_syl s) (p_used s)) in *.
  assert (Hpush : forall n, 0 < n ->
                    nonempty (fillers_of RiTa topic n) = true ->
                    Forall voiced
                      (sc_line sc
                       ++ [fst (pick Rand rand (p_rand s)
                                  (fillers_of RiTa topic n)
                                  (hd "" (fillers_of RiTa topic n)))])).
  { intros n Hn Hne. apply Forall_app. split; [exact Hsc|].
    constructor; [|constructor]. apply filler_voiced; assumption. }
  destruct (sc_syl sc =? target); [exact Hsc|].
  destruct (sc_syl sc <? target) eqn:Hlt; [|exact Hsc].
  apply Nat.ltb_lt in Hlt.
  destruct (nonempty (fillers_of RiTa topic (target - sc_syl sc))) eqn:Hne.
  - cbn [p_line]. apply Hpush; [lia|exact Hne].
  - destruct (2 <=? target - sc_syl sc).
    + destruct (nonempty (fillers_of RiTa topic 2)) eqn:H2;
        cbn [p_line]; [apply Hpush; [lia|exact H2]|exact Hsc].
    + destruct (nonempty (fillers_of RiTa topic 1)) eqn:H1;
        cbn [p_line]; [apply Hpush; [lia|exact H1]|exact Hsc].
Qed.

Lemma packExact_voiced (pool : list string) (r : Rand)
      (words : list string) :
  fst (packExact RiTa Rand rand pool target topic r) = Some words ->
  Forall voiced words.
Proof.
  unfold packExact. cbn [fst].
  apply (while_invariant (exact_test Rand)
           (exact_body RiTa Rand rand pool target topic)
           (fun s => forall ws, e_result s = Some ws -> Forall voiced ws)).
  - intros s _ _ ws. unfold exact_body.
    match goal with
    | |- context [passes RiTa Rand rand target topic ?rot ?r0] =>
        assert (Hp : Forall voiced
                       (p_line (passes RiTa Rand rand target topic rot r0)))
    end.
    { unfold passes.
      apply (while_invariant (pass_test Rand)
               (pass_body RiTa Rand rand target topic _)
               (fun p => Forall voiced (p_line p))); [|constructor].
      intros p Hp _. apply pass_body_voiced. exact Hp. }
    destruct (_ =? target); cbn [e_result]; [|discriminate].
    intros [= <-]. exact Hp.
  - intros ws. discriminate.
Qed.

End ExactPositive.

(** A line returned by [packExact] counts exactly [target] syllables, is
    made of words of the pool and of fillers of the topic, and every one of
    its words counts at least one syllable. *)
Theorem packExact_contract :
  forall (RiTa : RiTaLib) (Rand : Type) (rand : Rand -> Z * Rand)
         (pool : list string) (target : nat) (topic : TopicKey) (r : Rand)
         (words : list string),
    fst (packExact RiTa Rand rand pool target topic r) = Some words ->
    total_syl RiTa words = target
    /\ Forall (fun w => In w pool \/ In w (fillers topic)) words
    /\ Forall (fun w => 0 < syllablesInWord RiTa w) words.
Proof.
  intros RiTa Rand rand pool target topic r words H.
  pose proof (packExact_line RiTa Rand rand pool target topic r words H)
    as [Hsyl Hw].
  split; [exact Hsyl|]. split; [exact Hw|].
  exact (packExact_voiced RiTa Rand rand target topic pool r words H).
Qed.

Lemma packExact_contract_witness :
  let words := ["understory"; "summit"; "still"] in
  fst (packExact Demo.RiTa Z mulberry32_rand ["summit"; "understory"] 7
                 generic (mulberry32 1))
  = Some words
  /\ total_syl Demo.RiTa words = 7
  /\ Forall (fun w => In w ["summit"; "understory"]
                      \/ In w (fillers generic)) words
  /\ Forall (fun w => 0 < syllablesInWord Demo.RiTa w) words.
Proof.
  intros words.
  assert (H : fst (packExact Demo.RiTa Z mulberry32_rand
                     ["summit"; "understory"] 7 generic (mulberry32 1))
              = Some words) by (vm_compute; reflexivity).
  split; [exact H|].
  exact (packExact_contract Demo.RiTa Z mulberry32_rand _ 7 generic _
           words H).
Defined.

(** ** Three lines within the budget *)

Lemma loose_line_budget (RiTa : RiTaLib) (pool : list string) (t : nat) :
  exists out,
    loose_line RiTa pool t = JS.join " " out
    /\ (forall w, In w out -> In w pool)
    /\ total_syl RiTa out <= t.
Proof.
  unfold loose_line. eexists. split; [reflexivity|].
  assert (H : (fun s => (forall w, In w (l_out s) -> In w pool)
                        /\ total_syl RiTa (l_out s) = l_syl s
                        /\ l_syl s <= t)
                (while (loose_test pool) (loose_body RiTa pool t)
                       (List.length pool)
                       {| l_i := 0; l_out := []; l_syl := 0;
                          l_break := false |})).
  { apply while_invariant.
    - intros s (Hin & Hsum & Hle) Ht. unfold loose_body.
      unfold loose_test in Ht. apply andb_prop in Ht. destruct Ht as [_ Hi].
      apply Nat.ltb_lt in Hi.
      destruct (_ <=? t) eqn:Hfit; cbn [l_out l_syl].
      + apply Nat.leb_le in Hfit. split; [|split].
        * intros w H. apply in_app_or in H. destruct H as [H|[<-|[]]].
          -- apply Hin. exact H.
          -- apply nth_In. exact Hi.
        * rewrite total_syl_app. lia.
        * exact Hfit.
      + split; [exact Hin|]. split; assumption.
    - cbn. split; [intros w []|]. split; [reflexivity|lia]. }
  cbv beta in H. destruct H as (Hin & Hsum & Hle).
  split; [exact Hin|lia].
Qed.

(** Shape of every haiku the composer returns: three lines of words without
    white space joined by single spaces, none over its budget. *)
Lemma composeHaiku_shape (RiTa : RiTaLib) (text : string) (seed : Z) :
  forallb spaceless (tokenize RiTa text) = true ->
  exists A B C,
    composeHaikuRiTa RiTa text seed
    = JS.join (String newline "")
              [JS.join " " A; JS.join " " B; JS.join " " C]
    /\ Forall (fun w => spaceless w = true) A
    /\ Forall (fun w => spaceless w = true) B
    /\ Forall (fun w => spaceless w = true) C
    /\ total_syl RiTa A <= 5 /\ total_syl RiTa B <= 7
    /\ total_syl RiTa C <= 5.
Proof.
  intros Htok. unfold composeHaikuRiTa, composeFrom.
  assert (Hloose :
    exists A B C,
      fallbackLoose RiTa text
      = JS.join (String newline "")
                [JS.join " " A; JS.join " " B; JS.join " " C]
      /\ Forall (fun w => spaceless w = true) A
      /\ Forall (fun w => spaceless w = true) B
      /\ Forall (fun w => spaceless w = true) C
      /\ total_syl RiTa A <= 5 /\ total_syl RiTa B <= 7
      /\ total_syl RiTa C <= 5).
  { unfold fallbackLoose. cbn [map].
    destruct (loose_line_budget RiTa (imageryWords RiTa text) 5)
      as [A [-> [HA HA']]].
    destruct (loose_line_budget RiTa (imageryWords RiTa text) 7)
      as [B [-> [HB HB']]].
    assert (Hs : forall out,
               (forall x, In x out -> In x (imageryWords RiTa text)) ->
               Forall (fun x => spaceless x = true) out).
    { intros out Hout. apply Forall_forall. intros x Hx.
      apply (imageryWords_spaceless RiTa text x Htok). apply Hout.
      exact Hx. }
    exists A, B, A. fold newline.
    split; [reflexivity|].
    repeat split; try apply Hs; assumption. }
  destruct (strictLines RiTa Z mulberry32_rand text
              (mulberry32 (JS.or_else seed 1)))
    as [[[l1|] [l2|]] [l3|]] eqn:Hstrict; try exact Hloose.
  apply strictLines_strict in Hstrict. destruct Hstrict as [H1 [H2 H3]].
  exists l1, l2, l3. fold newline. split; [reflexivity|].
  pose proof (strict_line_spaceless RiTa text Htok _ _ H1) as S1.
  pose proof (strict_line_spaceless RiTa text Htok _ _ H2) as S2.
  pose proof (strict_line_spaceless RiTa text Htok _ _ H3) as S3.
  destruct H1 as [E1 _], H2 as [E2 _], H3 as [E3 _].
  repeat split; try assumption; lia.
Qed.

(** Whatever the path, the haiku returned for a text cut into tokens without
    white space has exactly three lines. *)
Theorem composeHaiku_three_lines :
  forall (RiTa : RiTaLib) (text : string) (seed : Z),
    forallb spaceless (tokenize RiTa text) = true ->
    List.length (JS.split newline (composeHaikuRiTa RiTa text seed)) = 3.
Proof.
  intros RiTa text seed Htok.
  destruct (composeHaiku_shape RiTa text seed Htok)
    as (A & B & C & -> & SA & SB & SC & _).
  rewrite split_three_lines by (apply join_single_line; assumption).
  reflexivity.
Qed.

Lemma composeHaiku_three_lines_witness :
  forallb spaceless (tokenize Mute "snow on the beach") = true
  /\ List.length (JS.split newline
                    (composeHaikuRiTa Mute "snow on the beach" 3)) = 3.
Proof.
  assert (H : forallb spaceless (tokenize Mute "snow on the beach") = true)
    by (vm_compute; reflexivity).
  split; [exact H|].
  exact (composeHaiku_three_lines Mute "snow on the beach" 3 H).
Defined.

(** Whatever the path, no line of the haiku is over its budget: the counts
    [count575] shows are at most 5, 7 and 5. *)
Theorem composeHaiku_within_budget :
  forall (RiTa : RiTaLib) (text : string) (seed : Z),
    forallb spaceless (tokenize RiTa text) = true ->
    exists a b c,
      count575 RiTa (composeHaikuRiTa RiTa text seed) = [a; b; c]
      /\ a <= 5 /\ b <= 7 /\ c <= 5.
Proof.
  intros RiTa text seed Htok.
  destruct (composeHaiku_shape RiTa text seed Htok)
    as (A & B & C & -> & SA & SB & SC & HA & HB & HC).
  exists (total_syl RiTa A), (total_syl RiTa B), (total_syl RiTa C).
  split; [|repeat split; assumption].
  unfold count575.
  rewrite split_three_lines by (apply join_single_line; assumption).
  cbn [nth]. rewrite !countLine_join by assumption. reflexivity.
Qed.

Lemma composeHaiku_within_budget_witness :
  forallb spaceless (tokenize Demo.RiTa example_text) = true
  /\ exists a b c,
       count575 Demo.RiTa (composeHaikuRiTa Demo.RiTa example_text 7)
       = [a; b; c]
       /\ a <= 5 /\ b <= 7 /\ c <= 5.
Proof.
  assert (H : forallb spaceless (tokenize Demo.RiTa example_text) = true)
    by (vm_compute; reflexivity).
  split; [exact H|].
  exact (composeHaiku_within_budget Demo.RiTa example_text 7 H).
Defined.

(** ** Words of a string *)

(** The words of a string do not depend on what came before it. *)
Lemma words_any_flag (b : bool) (s : string) :
  filter JS.truthy (JS.split_spaces_from b s)
  = filter JS.truthy (JS.split_spaces_from false s).
Proof.
  destruct b; [|reflexivity].
  destruct s as [|c s]; [reflexivity|].
  simpl. destruct (JS.is_space c); reflexivity.
Qed.

Lemma split_spaces_from_cons (b : bool) (s : string) :
  exists h t, JS.split_spaces_from b s = h :: t.
Proof.
  revert b. induction s as [|c s IH]; intros b; simpl.
  - eauto.
  - destruct (JS.is_space c).
    + destruct b; [apply IH|eauto].
    + destruct (IH false) as [h [t ->]]. eauto.
Qed.

(** Cutting [a], a white space and [b]: the first field is that of [a], and
    the words that follow are those of [a] and then those of [b]. *)
Lemma split_spaces_app (a : string) (sp : ascii) (b : string) :
  JS.is_space sp = true ->
  exists h t t',
    JS.split_spaces_from false (a ++ String sp b) = h :: t
    /\ JS.split_spaces_from false a = h :: t'
    /\ filter JS.truthy t
       = filter JS.truthy t'
         ++ filter JS.truthy (JS.split_spaces_from false b).
Proof.
  intros Hsp. induction a as [|c a IH].
  - simpl. rewrite Hsp. exists "", (JS.split_spaces_from true b), [].
    split; [reflexivity|]. split; [reflexivity|].
    apply words_any_flag.
  - destruct IH as (h & t & t' & E1 & E2 & E3).
    cbn [append JS.split_spaces_from].
    destruct (JS.is_space c).
    + exists "", (JS.split_spaces_from true (a ++ String sp b)),
             (JS.split_spaces_from true a).
      split; [reflexivity|]. split; [reflexivity|].
      rewrite (words_any_flag true (a ++ String sp b)),
              (words_any_flag true a), E1, E2.
      simpl. destruct (JS.truthy h); simpl; rewrite E3; reflexivity.
    + rewrite E1, E2. exists (String c h), t, t'.
      split; [reflexivity|]. split; [reflexivity|exact E3].
Qed.

Lemma haikuWords_app (a : string) (sp : ascii) (b : string) :
  JS.is_space sp = true ->
  haikuWords (a ++ String sp b) = haikuWords a ++ haikuWords b.
Proof.
  intros Hsp. unfold haikuWords, JS.split_spaces.
  destruct (split_spaces_app a sp b Hsp) as (h & t & t' & -> & -> & E).
  simpl. destruct (JS.truthy h); simpl; rewrite E; reflexivity.
Qed.

Lemma countLine_words (RiTa : RiTaLib) (line : string) :
  countLine RiTa line = total_syl RiTa (haikuWords line).
Proof. unfold countLine. rewrite fold_syllables. reflexivity. Qed.

(** [countLine] adds up over pieces separated by a white space: the count
    of a line is the sum of the counts of its parts, however it is cut. *)
Theorem countLine_additive :
  forall (RiTa : RiTaLib) (a b : string) (sp : ascii),
    JS.is_space sp = true ->
    countLine RiTa (a ++ String sp b)
    = countLine RiTa a + countLine RiTa b.
Proof.
  intros RiTa a b sp Hsp.
  rewrite !countLine_words, (haikuWords_app a sp b Hsp).
  unfold total_syl. rewrite map_app, list_sum_app. reflexivity.
Qed.

Lemma countLine_additive_witness :
  JS.is_space " " = true
  /\ countLine Demo.RiTa ("warm ocean" ++ String " " "silver sand")
     = countLine Demo.RiTa "warm ocean" + countLine Demo.RiTa "silver sand".
Proof.
  split; [reflexivity|].
  apply (countLine_additive Demo.RiTa "warm ocean" "silver sand" " ").
  reflexivity.
Defined.

(** ** White space in the transcript *)

Lemma trimEnd_app (a b : string) :
  trimEnd (a ++ b)
  = match trimEnd b with
    | EmptyString => trimEnd a
    | String c r => (a ++ String c r)%string
    end.
Proof.
  induction a as [|x a IH].
  - simpl. destruct (trimEnd b); reflexivity.
  - cbn [append trimEnd]. rewrite IH.
    destruct (trimEnd b) as [|c r]; [reflexivity|].
    destruct a; reflexivity.
Qed.

Lemma trimEnd_spaceless (p : string) :
  spaceless p = true -> trimEnd p = p.
Proof.
  induction p as [|c p IH]; [reflexivity|].
  simpl. intros H. apply andb_prop in H. destruct H as [Hc Hp].
  apply negb_true_iff in Hc. rewrite (IH Hp), Hc.
  destruct p; reflexivity.
Qed.

Lemma append_nil_r (s : string) : (s ++ "")%string = s.
Proof. induction s as [|c s IH]; simpl; [reflexivity|now rewrite IH]. Qed.

Lemma spaceless_app (a b : string) :
  spaceless (a ++ b) = spaceless a && spaceless b.
Proof.
  induction a as [|c a IH]; simpl; [reflexivity|].
  rewrite IH. now rewrite andb_assoc.
Qed.

(** With the leading white space gone, what is left of a string, cut at its
    white space, is its words joined by single spaces. *)
Lemma collapse_words (s : string) :
  trimEnd (replace_runs_from JS.is_space true s)
  = JS.join " " (filter JS.truthy (JS.split_spaces_from false s))
  /\ forall p h t,
       p <> EmptyString -> spaceless p = true ->
       JS.split_spaces_from false s = h :: t ->
       trimEnd (p ++ replace_runs_from JS.is_space false s)
       = JS.join " " ((p ++ h)%string :: filter JS.truthy t).
Proof.
  induction s as [|c s [IHa IHb]].
  - split; [reflexivity|].
    intros p h t Hp Hs [= <- <-]. simpl.
    rewrite !append_nil_r. apply trimEnd_spaceless. exact Hs.
  - split.
    + cbn [replace_runs_from JS.split_spaces_from].
      destruct (JS.is_space c) eqn:Hc.
      * rewrite IHa. cbn [filter JS.truthy].
        now rewrite (words_any_flag true s).
      * destruct (split_spaces_from_cons false s) as [h [t E]].
        rewrite E.
        specialize (IHb (String c "") h t ltac:(discriminate)
                        ltac:(simpl; now rewrite Hc) E).
        exact IHb.
    + intros p h t Hp Hs E.
      cbn [replace_runs_from JS.split_spaces_from] in *.
      destruct (JS.is_space c) eqn:Hc.
      * injection E as <- <-. rewrite append_nil_r.
        rewrite trimEnd_app. cbn [trimEnd]. rewrite IHa.
        rewrite (words_any_flag true s).
        destruct (filter JS.truthy (JS.split_spaces_from false s))
          as [|w ws] eqn:Ew.
        -- cbn [JS.join JS.is_space]. apply trimEnd_spaceless. exact Hs.
        -- assert (Hj : JS.join " " (w :: ws) <> EmptyString).
           { assert (Hw : In w (filter JS.truthy
                                  (JS.split_spaces_from false s)))
               by (rewrite Ew; left; reflexivity).
             apply filter_In in Hw. destruct Hw as [_ Hw].
             destruct w; [discriminate Hw|].
             destruct ws; discriminate. }
           destruct (JS.join " " (w :: ws)) as [|j js] eqn:Ej;
             [congruence|].
           rewrite <- Ej. reflexivity.
      * destruct (split_spaces_from_cons false s) as [h' [t' E']].
        rewrite E' in E. injection E as <- <-.
        assert (Hp' : (p ++ String c "")%string <> EmptyString)
          by (destruct p; discriminate).
        assert (Hs' : spaceless (p ++ String c "") = true)
          by (rewrite spaceless_app, Hs; simpl; now rewrite Hc).
        specialize (IHb (p ++ String c "")%string h' t' Hp' Hs' E').
        rewrite !append_assoc in IHb. cbn [append] in IHb. exact IHb.
Qed.

Lemma replace_runs_leading (s : string) :
  trimStart (replace_runs_from JS.is_space false s)
  = replace_runs_from JS.is_space true s.
Proof.
  destruct s as [|c s]; [reflexivity|].
  cbn [replace_runs_from]. destruct (JS.is_space c) eqn:Hc.
  - cbn [trimStart JS.is_space]. simpl.
    induction s as [|d s IH]; [reflexivity|].
    cbn [replace_runs_from]. destruct (JS.is_space d) eqn:Hd.
    + exact IH.
    + cbn [trimStart]. now rewrite Hd.
  - cbn [trimStart]. now rewrite Hc.
Qed.

Lemma normalize_haikuWords :
  forall (s : string), normalize s = JS.join " " (haikuWords s).
Proof.
  intros s. unfold normalize, trim, replace_runs.
  rewrite replace_runs_leading. apply (proj1 (collapse_words s)).
Qed.

(** [s.replace(/\s+/g, " ").trim()] is the words of [s] joined by single
    spaces: no white space at either end, one space between two words, and
    the same words in the same order. *)
Theorem normalize_words :
  forall (s : string), normalize s = JS.join " " (haikuWords s).
Proof. exact normalize_haikuWords. Qed.

(** ** The component *)

(** *** Speech results *)

(** The texts of the final results of an event, from [resultIndex] on. *)
Definition final_texts (e : SpeechEvent) : list string :=
  map heard_text (filter isFinal (skipn (resultIndex e) (results e))).

(** [text + " "] for every text, in order. *)
Fixpoint spaced (texts : list string) : string :=
  match texts with
  | [] => EmptyString
  | t :: rest => ((t ++ " ") ++ spaced rest)%string
  end.

Lemma gather_spaced (rest : list SpeechResult) (f i : string) :
  gather rest f i
  = ((f ++ spaced (map heard_text (filter isFinal rest)))%string,
     (i ++ spaced (map heard_text
                       (filter (fun r => negb (isFinal r)) rest)))%string).
Proof.
  revert f i. induction rest as [|res rest IH]; intros f i; simpl.
  - now rewrite !append_nil_r.
  - destruct (isFinal res); simpl; rewrite IH, !append_assoc; reflexivity.
Qed.

Lemma haikuWords_spaced (texts : list string) :
  haikuWords (spaced texts) = List.concat (map haikuWords texts).
Proof.
  induction texts as [|t rest IH]; [reflexivity|].
  cbn [spaced map List.concat]. rewrite append_assoc.
  change (" " ++ spaced rest)%string with (String " " (spaced rest)).
  rewrite (haikuWords_app t " " (spaced rest) eq_refl), IH. reflexivity.
Qed.

Lemma spaced_truthy (texts : list string) :
  JS.truthy (spaced texts) = nonempty texts.
Proof.
  destruct texts as [|t rest]; [reflexivity|].
  cbn [spaced nonempty]. destruct t; reflexivity.
Qed.

(** A speech event with a final result makes the transcript the words it
    had followed by the words of the final results, joined by single
    spaces; an event without a final result leaves the transcript as it
    is.  Selection, haikus and last source are never touched. *)
Theorem onresult_transcript :
  forall (e : SpeechEvent) (s : AppState),
    transcript (onresult e s)
    = (if nonempty (final_texts e)
       then JS.join " " (haikuWords (transcript s)
                         ++ List.concat (map haikuWords (final_texts e)))
       else transcript s)
    /\ haikus (onresult e s) = haikus s
    /\ selectedHaiku (onresult e s) = selectedHaiku s
    /\ lastSource (onresult e s) = lastSource s.
Proof.
  intros e s. unfold onresult, final_texts.
  rewrite gather_spaced. cbn [append transcript haikus selectedHaiku
                              lastSource].
  split; [|repeat split].
  rewrite spaced_truthy.
  destruct (nonempty _); [|reflexivity].
  rewrite normalize_haikuWords.
  change (" " ++ spaced ?x)%string with (String " " (spaced x)).
  rewrite (haikuWords_app (transcript s) " " _ eq_refl), haikuWords_spaced.
  reflexivity.
Qed.

(** *** Generate and Regenerate *)

(** A string of white space only. *)
Fixpoint blank (s : string) : bool :=
  match s with
  | EmptyString => true
  | String c s' => JS.is_space c && blank s'
  end.

Lemma trimStart_blank (s : string) : blank s = true -> trimStart s = "".
Proof.
  induction s as [|c s IH]; [reflexivity|].
  simpl. intros H. apply andb_prop in H. destruct H as [Hc Hs].
  rewrite Hc. apply IH. exact Hs.
Qed.

Lemma blank_app (a b : string) : blank (a ++ b) = blank a && blank b.
Proof.
  induction a as [|c a IH]; simpl; [reflexivity|].
  rewrite IH. now rewrite andb_assoc.
Qed.

Lemma trim_blank (s : string) : blank s = true -> trim s = "".
Proof. intros H. unfold trim. now rewrite (trimStart_blank s H). Qed.

(** With nothing but white space in the transcript and the interim text,
    Generate leaves the state as it is, although [canGenerate] enables the
    button as soon as one of them is not empty; Regenerate does the same
    when in addition nothing is selected and there is no last source.  The
    state after Clear is such a state. *)
Theorem nothing_to_generate :
  forall (RiTa : RiTaLib) (s : AppState),
    blank (transcript s) = true ->
    blank (interim s) = true ->
    generateHaikus RiTa s = s
    /\ (transcript s <> "" \/ interim s <> "" -> canGenerate s = true)
    /\ (selectedHaiku s = None -> lastSource s = "" ->
        regenerateFromLast RiTa s = s)
    /\ generateHaikus RiTa (clearAll s) = clearAll s
    /\ regenerateFromLast RiTa (clearAll s) = clearAll s.
Proof.
  intros RiTa s Ht Hi.
  assert (Hbase : trim (transcript s ++ " " ++ interim s) = "").
  { apply trim_blank. rewrite blank_app, Ht. simpl. exact Hi. }
  split; [|split; [|split; [|split]]].
  - unfold generateHaikus. rewrite Hbase. reflexivity.
  - unfold canGenerate, or_string.
    destruct (transcript s) as [|c t]; [|reflexivity].
    destruct (interim s) as [|c i]; [|reflexivity].
    intros [H|H]; congruence.
  - intros Hsel Hlast. unfold regenerateFromLast, regenerationSource.
    rewrite Hsel, Hlast, Hbase. reflexivity.
  - reflexivity.
  - reflexivity.
Qed.

Definition idle_state : AppState :=
  {| transcript := " "; interim := ""; listening := false; seconds := 0;
     haikus := []; selectedHaiku := None; error := None; lastSource := "";
     regenCount := 0; copiedPrompt := false; timerOn := false |}.

Lemma nothing_to_generate_witness :
  blank (transcript idle_state) = true
  /\ blank (interim idle_state) = true
  /\ canGenerate idle_state = true
  /\ generateHaikus Demo.RiTa idle_state = idle_state.
Proof.
  split; [reflexivity|]. split; [reflexivity|].
  destruct (nothing_to_generate Demo.RiTa idle_state eq_refl eq_refl)
    as (Hgen & Hcan & _).
  split; [apply Hcan; left; discriminate|exact Hgen].
Defined.

Section Regeneration.

Variable RiTa : RiTaLib.

Lemma regenerate_keeps_source (s : AppState) :
  regenerationSource (regenerateFromLast RiTa s) = regenerationSource s.
Proof.
  unfold regenerateFromLast.
  destruct (negb (JS.truthy (regenerationSource s))); reflexivity.
Qed.

Lemma regenerate_rounds (s : AppState) (n : nat) :
  JS.truthy (regenerationSource s) = true ->
  let s' := Nat.iter (S n) (regenerateFromLast RiTa) s in
  let offset := ((regenCount s + Z.of_nat n) * 3)%Z in
  regenerationSource s' = regenerationSource s
  /\ regenCount s' = (regenCount s + Z.of_nat n + 1)%Z
  /\ haikus s'
     = [composeHaikuRiTa RiTa (regenerationSource s) (5 + offset);
        composeHaikuRiTa RiTa (regenerationSource s) (9 + offset);
        composeHaikuRiTa RiTa (regenerationSource s) (15 + offset)].
Proof.
  intros Hsrc. induction n as [|n IH].
  - cbv zeta.
    change (Nat.iter 1 (regenerateFromLast RiTa) s)
      with (regenerateFromLast RiTa s).
    split; [apply regenerate_keeps_source|].
    unfold regenerateFromLast. cbv zeta. rewrite Hsrc.
    cbn [negb regenCount haikus].
    rewrite Z.add_0_r. split; [lia|reflexivity].
  - cbv zeta in IH. destruct IH as (Es & Ec & _).
    cbv zeta. change (Nat.iter (S (S n)) (regenerateFromLast RiTa) s)
      with (regenerateFromLast RiTa
              (Nat.iter (S n) (regenerateFromLast RiTa) s)).
    set (s1 := Nat.iter (S n) (regenerateFromLast RiTa) s) in *.
    split; [rewrite regenerate_keeps_source; exact Es|].
    unfold regenerateFromLast. cbv zeta. rewrite Es, Hsrc.
    cbn [negb regenCount haikus]. rewrite Ec.
    replace ((regenCount s + Z.of_nat n + 1) * 3)%Z
      with ((regenCount s + Z.of_nat (S n)) * 3)%Z by lia.
    split; [lia|reflexivity].
Qed.

End Regeneration.

(** Regenerating again and again from the same source: the round number
    [n + 1] counts on from [regenCount] and shows the haikus of the seeds
    [5 + 3k], [9 + 3k] and [15 + 3k] for [k = regenCount + n]; the source
    stays the same. *)
Theorem regeneration_schedule :
  forall (RiTa : RiTaLib) (s : AppState) (n : nat),
    JS.truthy (regenerationSource s) = true ->
    let s' := Nat.iter (S n) (regenerateFromLast RiTa) s in
    let k := (regenCount s + Z.of_nat n)%Z in
    regenCount s' = (k + 1)%Z
    /\ regenerationSource s' = regenerationSource s
    /\ haikus s'
       = [composeHaikuRiTa RiTa (regenerationSource s) (5 + 3 * k);
          composeHaikuRiTa RiTa (regenerationSource s) (9 + 3 * k);
          composeHaikuRiTa RiTa (regenerationSource s) (15 + 3 * k)].
Proof.
  intros RiTa s n Hsrc. cbv zeta.
  destruct (regenerate_rounds RiTa s n Hsrc) as (Es & Ec & Eh).
  split; [exact Ec|]. split; [exact Es|].
  rewrite Eh. rewrite (Z.mul_comm _ 3). reflexivity.
Qed.

Definition sample_state : AppState :=
  {| transcript := "the waves crashed on the warm sand"; interim := "";
     listening := false; seconds := 0; haikus := [];
     selectedHaiku := None; error := None;
     lastSource := "the waves crashed on the warm sand";
     regenCount := 0; copiedPrompt := false; timerOn := false |}.

Lemma regeneration_schedule_witness :
  JS.truthy (regenerationSource sample_state) = true
  /\ regenCount (Nat.iter 2 (regenerateFromLast Demo.RiTa) sample_state)
     = 2%Z.
Proof.
  assert (H : JS.truthy (regenerationSource sample_state) = true)
    by reflexivity.
  split; [exact H|].
  exact (proj1 (regeneration_schedule Demo.RiTa sample_state 1 H)).
Defined.

(** The seeds of two rounds overlap: the third haiku of a round is shown
    again as the second haiku two rounds later, as [15 + 3k] is
    [9 + 3(k + 2)]. *)
Theorem regeneration_repeats :
  forall (RiTa : RiTaLib) (s : AppState) (n : nat),
    JS.truthy (regenerationSource s) = true ->
    nth_error (haikus (Nat.iter (S n) (regenerateFromLast RiTa) s)) 2
    = nth_error (haikus (Nat.iter (S (n + 2)) (regenerateFromLast RiTa) s)) 1.
Proof.
  intros RiTa s n Hsrc.
  destruct (regenerate_rounds RiTa s n Hsrc) as (_ & _ & ->).
  destruct (regenerate_rounds RiTa s (n + 2) Hsrc) as (_ & _ & ->).
  cbn [nth_error]. do 2 f_equal. lia.
Qed.

Lemma regeneration_repeats_witness :
  JS.truthy (regenerationSource sample_state) = true
  /\ nth_error
       (haikus (Nat.iter 1 (regenerateFromLast Demo.RiTa) sample_state)) 2
     = nth_error
         (haikus (Nat.iter 3 (regenerateFromLast Demo.RiTa) sample_state)) 1.
Proof.
  assert (H : JS.truthy (regenerationSource sample_state) = true)
    by reflexivity.
  split; [exact H|].
  exact (regeneration_repeats Demo.RiTa sample_state 0 H).
Defined.

(** *** The timer display *)

(** [clamp] keeps a number within its bounds, and leaves a number within
    them as it is. *)
Lemma clamp_range :
  forall (n min max : Z),
    (min <= max)%Z ->
    (min <= clamp n min max <= max)%Z
    /\ ((min <= n <= max)%Z -> clamp n min max = n)
    /\ ((n < min)%Z -> clamp n min max = min)
    /\ ((max < n)%Z -> clamp n min max = max).
Proof. intros n min max H. unfold clamp. repeat split; lia. Qed.

Lemma clamp_range_witness :
  (0 <= 60)%Z /\ (0 <= clamp 75 0 60 <= 60)%Z.
Proof.
  split; [lia|]. exact (proj1 (clamp_range 75 0 60 ltac:(lia))).
Defined.

(** *** Sessions *)

Definition timer_ok (s : AppState) : Prop :=
  (0 <= seconds s <= 60)%Z
  /\ timerOn s = listening s
  /\ (listening s = true -> (seconds s < 60)%Z).

Lemma act_timer_ok (RiTa : RiTaLib) (a : Action) (s : AppState) :
  timer_ok s -> timer_ok (act RiTa a s).
Proof.
  intros (Hr & Ht & Hl). unfold timer_ok. destruct a; cbn [act].
  - destruct b; cbn; repeat split; try lia; try congruence; auto.
  - cbn. repeat split; try lia; try congruence.
  - cbn. repeat split; try lia; try congruence.
  - unfold onresult.
    destruct (gather (skipn (resultIndex e) (results e)) "" "") as [f i].
    cbn [seconds timerOn listening]. auto.
  - cbn. repeat split; try lia; try congruence.
  - unfold tick. destruct (timerOn s) eqn:E; [|rewrite E; exact (conj Hr (conj Ht Hl))].
    cbv zeta. symmetry in Ht. specialize (Hl Ht).
    destruct (Z.geb_spec (seconds s + 1) 60).
    + cbn. repeat split; try lia; try congruence.
    + cbn. rewrite Ht. repeat split; try lia.
  - cbn. auto.
  - cbn. auto.
  - unfold generateHaikus. cbv zeta.
    destruct (negb _); cbn [seconds timerOn listening]; auto.
  - unfold regenerateFromLast. cbv zeta.
    destruct (negb _); cbn [seconds timerOn listening]; auto.
Qed.

Lemma run_timer_ok (RiTa : RiTaLib) (actions : list Action) (s : AppState) :
  timer_ok s -> timer_ok (run RiTa actions s).
Proof.
  revert s. induction actions as [|a rest IH]; intros s H; [exact H|].
  apply IH. apply act_timer_ok. exact H.
Qed.

(** Whatever happens to the component from its first render on, in any
    order: the seconds stay between 0 and 60, so that the timer display
    [safeSeconds] is the count itself; the interval runs exactly while the
    component is listening; and while it is listening the count is below
    60. *)
Theorem session_timer :
  forall (RiTa : RiTaLib) (actions : list Action),
    let s := run RiTa actions initial_state in
    (0 <= seconds s <= 60)%Z
    /\ safeSeconds s = seconds s
    /\ timerOn s = listening s
    /\ (listening s = true -> (seconds s < 60)%Z).
Proof.
  intros RiTa actions s.
  assert (H : timer_ok s).
  { apply run_timer_ok. unfold timer_ok. cbn. repeat split; lia || congruence. }
  destruct H as (Hr & Ht & Hl).
  split; [exact Hr|]. split; [|split; [exact Ht|exact Hl]].
  unfold safeSeconds. apply clamp_range; lia.
Qed.

(** After a Start that succeeds the component listens for 60 firings of the
    timer and no longer: after [n] of them the count is [n] and it is
    listening when [n < 60]; from the 60th on the count stays at 60, and
    listening and the timer are off. *)
Theorem recording_lasts_60_ticks :
  forall (s : AppState) (n : nat),
    let s' := Nat.iter n tick (startListening Started s) in
    seconds s' = Z.min (Z.of_nat n) 60
    /\ listening s' = (n <? 60)
    /\ timerOn s' = (n <? 60).
Proof.
  intros s n. cbv zeta. induction n as [|n IH]; [repeat split|].
  cbn [Nat.iter nat_rect].
  change (nat_rect (fun _ => AppState) (startListening Started s)
            (fun _ => tick) n)
    with (Nat.iter n tick (startListening Started s)).
  set (s1 := Nat.iter n tick (startListening Started s)) in *.
  destruct IH as (Hs & Hl & Ht). unfold tick. cbv zeta.
  destruct (n <? 60) eqn:En;
    [apply Nat.ltb_lt in En|apply Nat.ltb_ge in En]; rewrite Ht, Hs.
  - destruct (Z.geb_spec (Z.min (Z.of_nat n) 60 + 1) 60).
    + cbn [stopListening seconds listening timerOn].
      destruct (Nat.ltb_spec (S n) 60); [lia|]. repeat split. lia.
    + cbn [seconds listening timerOn]. rewrite Hl.
      destruct (Nat.ltb_spec (S n) 60); [|lia]. repeat split. lia.
  - destruct (Nat.ltb_spec (S n) 60); [lia|].
    split; [lia|]. split; [exact Hl|exact Ht].
Qed.

(** The actions that are neither Generate, Clear nor the choice of a
    haiku. *)
Definition keeps_source (a : Action) : bool :=
  match a with
  | Generate | Clear | Select _ => false
  | _ => true
  end.

Definition is_regenerate (a : Action) : bool :=
  match a with Regenerate => true | _ => false end.

Definition regenerations (actions : list Action) : nat :=
  List.length (filter is_regenerate actions).

Lemma run_keeps_source (RiTa : RiTaLib) (base : string)
      (actions : list Action) (s : AppState) :
  JS.truthy base = true ->
  forallb keeps_source actions = true ->
  selectedHaiku s = None ->
  lastSource s = base ->
  selectedHaiku (run RiTa actions s) = None
  /\ lastSource (run RiTa actions s) = base
  /\ regenCount (run RiTa actions s)
     = (regenCount s + Z.of_nat (regenerations actions))%Z.
Proof.
  intros Hbase. revert s.
  induction actions as [|a rest IH]; intros s Hk Hsel Hlast.
  - cbn. repeat split; auto. unfold regenerations. cbn. lia.
  - cbn [forallb] in Hk. apply andb_prop in Hk. destruct Hk as [Ha Hk].
    cbn [run fold_left].
    change (fold_left (fun s a => act RiTa a s) rest (act RiTa a s))
      with (run RiTa rest (act RiTa a s)).
    assert (Hstep : selectedHaiku (act RiTa a s) = None
                    /\ lastSource (act RiTa a s) = base
                    /\ regenCount (act RiTa a s)
                       = (regenCount s
                          + (if is_regenerate a then 1 else 0))%Z).
    { destruct a; try discriminate Ha; cbn [act is_regenerate].
      - destruct b; cbn; repeat split; auto; lia.
      - cbn. repeat split; auto; lia.
      - unfold onresult.
        destruct (gather (skipn (resultIndex e) (results e)) "" "")
          as [f i].
        cbn [selectedHaiku lastSource regenCount]. repeat split; auto; lia.
      - cbn. repeat split; auto; lia.
      - unfold tick. destruct (timerOn s); [|repeat split; auto; lia].
        cbv zeta. destruct (_ >=? _)%Z; cbn; repeat split; auto; lia.
      - cbn. repeat split; auto; lia.
      - unfold regenerateFromLast, regenerationSource, or_string.
        rewrite Hsel, Hlast. cbn [JS.truthy]. rewrite Hbase. cbn iota.
        rewrite Hbase. cbn [negb selectedHaiku lastSource regenCount].
        repeat split; auto. }
    destruct Hstep as (S1 & S2 & S3).
    destruct (IH (act RiTa a s) Hk S1 S2) as (R1 & R2 & R3).
    split; [exact R1|]. split; [exact R2|].
    rewrite R3, S3. unfold regenerations. cbn [filter].
    destruct (is_regenerate a); cbn [List.length]; lia.
Qed.

(** After Generate, Regenerate composes from the text Generate used, until
    the next Generate, Clear or choice of a haiku: what is typed or heard in
    between is ignored, and so are Start and Stop.  Its seeds are
    [5 + 3k], [9 + 3k] and [15 + 3k], where [k] counts the regenerations
    since Generate. *)
Theorem regenerate_source_is_sticky :
  forall (RiTa : RiTaLib) (s : AppState) (actions : list Action),
    JS.truthy (trim (transcript s ++ " " ++ interim s)) = true ->
    forallb keeps_source actions = true ->
    let base := trim (transcript s ++ " " ++ interim s) in
    let s' := run RiTa actions (generateHaikus RiTa s) in
    let k := Z.of_nat (regenerations actions) in
    regenerationSource s' = base
    /\ haikus (regenerateFromLast RiTa s')
       = [composeHaikuRiTa RiTa base (5 + 3 * k);
          composeHaikuRiTa RiTa base (9 + 3 * k);
          composeHaikuRiTa RiTa base (15 + 3 * k)].
Proof.
  intros RiTa s actions Hbase Hk base s' k.
  assert (Hgen : selectedHaiku (generateHaikus RiTa s) = None
                 /\ lastSource (generateHaikus RiTa s) = base
                 /\ regenCount (generateHaikus RiTa s) = 0%Z).
  { unfold generateHaikus. cbv zeta. rewrite Hbase. cbn [negb].
    repeat split. }
  destruct Hgen as (G1 & G2 & G3).
  destruct (run_keeps_source RiTa base actions (generateHaikus RiTa s)
              Hbase Hk G1 G2) as (R1 & R2 & R3).
  fold s' in R1, R2, R3. rewrite G3 in R3. fold k in R3.
  assert (Hsrc : regenerationSource s' = base).
  { unfold regenerationSource, or_string. rewrite R1, R2.
    cbn [JS.truthy]. fold base in Hbase. rewrite Hbase. reflexivity. }
  split; [exact Hsrc|].
  unfold regenerateFromLast. cbv zeta. rewrite Hsrc.
  fold base in Hbase. rewrite Hbase. cbn [negb haikus]. rewrite R3.
  replace ((0 + k) * 3)%Z with (3 * k)%Z by lia. reflexivity.
Qed.

Definition heard_snow : SpeechEvent :=
  {| resultIndex := 0;
     results := [{| isFinal := true; heard := Some "snow" |};
                 {| isFinal := false; heard := Some "on the" |}] |}.

Lemma regenerate_source_is_sticky_witness :
  let actions := [Edit "ice"; Regenerate; Hear heard_snow; Tick] in
  JS.truthy (trim (transcript sample_state ++ " " ++ interim sample_state))
  = true
  /\ forallb keeps_source actions = true
  /\ regenerationSource
       (run Demo.RiTa actions (generateHaikus Demo.RiTa sample_state))
     = trim (transcript sample_state ++ " " ++ interim sample_state).
Proof.
  intros actions.
  assert (H : JS.truthy (trim (transcript sample_state ++ " "
                               ++ interim sample_state)) = true)
    by reflexivity.
  split; [exact H|]. split; [reflexivity|].
  exact (proj1 (regenerate_source_is_sticky Demo.RiTa sample_state actions
                  H eq_refl)).
Defined.

(** ** The word-count composer *)

(** Every character of the string is in the class. *)
Fixpoint all_chars (class : ascii -> bool) (s : string) : bool :=
  match s with
  | EmptyString => true
  | String c s' => class c && all_chars class s'
  end.

(** A word as [wordsFrom] yields them. *)
Definition plain_word (w : string) : Prop :=
  w <> EmptyString /\ all_chars is_kept w = true.

Lemma is_kept_not_space (c : ascii) :
  is_kept c = true -> JS.is_space c = false.
Proof. each_ascii c; intros H; try reflexivity; discriminate H. Qed.

Lemma all_kept_spaceless (w : string) :
  all_chars is_kept w = true -> spaceless w = true.
Proof.
  induction w as [|c w IH]; [reflexivity|].
  simpl. intros H. apply andb_prop in H. destruct H as [Hc Hw].
  rewrite (is_kept_not_space c Hc). simpl. apply IH. exact Hw.
Qed.

(** Fields cut at white space are made of the other characters. *)
Lemma split_spaces_fields (class : ascii -> bool) (s : string) (b : bool) :
  all_chars (fun c => JS.is_space c || class c) s = true ->
  Forall (fun w => all_chars class w = true) (JS.split_spaces_from b s).
Proof.
  revert b. induction s as [|c s IH]; intros b H; simpl.
  - constructor; [reflexivity|constructor].
  - simpl in H. apply andb_prop in H. destruct H as [Hc Hs].
    destruct (JS.is_space c) eqn:Esp.
    + destruct b; [apply IH; exact Hs|].
      constructor; [reflexivity|apply IH; exact Hs].
    + specialize (IH false Hs). cbn [orb] in Hc.
      destruct (JS.split_spaces_from false s) as [|h t].
      * constructor; [simpl; now rewrite Hc|constructor].
      * inversion IH as [|? ? Hh Ht]; subst.
        constructor; [simpl; now rewrite Hh, Hc|exact Ht].
Qed.

Lemma replace_dropped_chars (s : string) (b : bool) :
  all_chars (fun c => JS.is_space c || is_kept c)
            (replace_runs_from is_dropped b s) = true.
Proof.
  revert b. induction s as [|c s IH]; intros b; simpl; [reflexivity|].
  destruct (is_dropped c) eqn:Hd.
  - destruct b; [apply IH|]. simpl. apply IH.
  - simpl. rewrite IH, andb_true_r.
    unfold is_dropped in Hd. apply negb_false_iff in Hd.
    apply orb_prop in Hd. destruct Hd as [Hk|Hsp].
    + rewrite Hk. apply orb_true_r.
    + apply Ascii.eqb_eq in Hsp. subst c. reflexivity.
Qed.

(** A string without the separator. *)
Fixpoint lacks (sep : ascii) (s : string) : bool :=
  match s with
  | EmptyString => true
  | String c s' => negb (Ascii.eqb c sep) && lacks sep s'
  end.

Lemma split_field_then (sep : ascii) (x rest : string) :
  lacks sep x = true ->
  JS.split sep (x ++ String sep rest) = x :: JS.split sep rest.
Proof.
  intros Hx. induction x as [|c x IH]; simpl.
  - now rewrite Ascii.eqb_refl.
  - simpl in Hx. apply andb_prop in Hx. destruct Hx as [Hc Hx].
    apply negb_true_iff in Hc. rewrite Hc, (IH Hx). reflexivity.
Qed.

Lemma split_field (sep : ascii) (x : string) :
  lacks sep x = true -> JS.split sep x = [x].
Proof.
  intros Hx. induction x as [|c x IH]; simpl; [reflexivity|].
  simpl in Hx. apply andb_prop in Hx. destruct Hx as [Hc Hx].
  apply negb_true_iff in Hc. rewrite Hc, (IH Hx). reflexivity.
Qed.

Lemma spaceless_lacks_space (w : string) :
  spaceless w = true -> lacks " " w = true.
Proof.
  induction w as [|c w IH]; [reflexivity|].
  simpl. intros H. apply andb_prop in H. destruct H as [Hc Hw].
  rewrite (IH Hw), andb_true_r. apply negb_true_iff in Hc.
  destruct (Ascii.eqb c " ") eqn:E; [|reflexivity].
  apply Ascii.eqb_eq in E. subst c. discriminate Hc.
Qed.

(** [split(" ")] gives back the words joined by single spaces. *)
Lemma split_join_words (ws : list string) :
  Forall (fun w => spaceless w = true) ws ->
  filter JS.truthy (JS.split " " (JS.join " " ws)) = filter JS.truthy ws.
Proof.
  induction 1 as [|x ws Hx Hws IH]; [reflexivity|].
  destruct ws as [|y ws].
  - cbn [JS.join]. now rewrite (split_field " " x (spaceless_lacks_space x Hx)).
  - change (JS.join " " (x :: y :: ws))
      with (x ++ String " " (JS.join " " (y :: ws)))%string.
    rewrite (split_field_then " " x _ (spaceless_lacks_space x Hx)).
    simpl filter. simpl filter in IH. rewrite IH. reflexivity.
Qed.

Lemma haikuWords_fields (s : string) :
  Forall (fun w => spaceless w = true) (haikuWords s)
  /\ filter JS.truthy (haikuWords s) = haikuWords s.
Proof.
  unfold haikuWords. split.
  - apply Forall_forall. intros w Hw. apply filter_In in Hw.
    destruct Hw as [Hw _].
    pose proof (split_spaces_fields (fun c => negb (JS.is_space c)) s false)
      as H.
    assert (Hall : all_chars
                     (fun c => JS.is_space c || negb (JS.is_space c)) s
                   = true).
    { clear. induction s as [|c s IH]; [reflexivity|].
      simpl. rewrite IH. destruct (JS.is_space c); reflexivity. }
    specialize (H Hall). rewrite Forall_forall in H. specialize (H w Hw).
    clear -H. induction w as [|c w IH]; [reflexivity|].
    simpl in *. apply andb_prop in H. destruct H as [Hc Hw].
    rewrite Hc. apply IH. exact Hw.
  - induction (JS.split_spaces s) as [|h t IH]; [reflexivity|].
    simpl. destruct (JS.truthy h) eqn:E; simpl; [rewrite E|]; now rewrite ?IH.
Qed.

(** [wordsFrom] is the words of the text once every run of other characters
    has become a space. *)
Lemma wordsFrom_haikuWords (text : string) :
  wordsFrom text = haikuWords (replace_runs is_dropped text).
Proof.
  unfold wordsFrom. fold (normalize (replace_runs is_dropped text)).
  rewrite normalize_haikuWords.
  destruct (haikuWords_fields (replace_runs is_dropped text)) as [Hs Hf].
  rewrite (split_join_words _ Hs). exact Hf.
Qed.

Lemma wordsFrom_all_plain :
  forall (text : string), Forall plain_word (wordsFrom text).
Proof.
  intros text. rewrite wordsFrom_haikuWords. unfold haikuWords.
  apply Forall_forall. intros w Hw. apply filter_In in Hw.
  destruct Hw as [Hin Hne]. split.
  - destruct w; [discriminate Hne|discriminate].
  - pose proof (split_spaces_fields is_kept
                  (replace_runs is_dropped text) false
                  (replace_dropped_chars text false)) as H.
    rewrite Forall_forall in H. apply H. exact Hin.
Qed.

(** Every word of [wordsFrom] is non-empty and made of letters, digits,
    underscores, apostrophes and hyphens only. *)
Theorem wordsFrom_plain :
  forall (text : string), Forall plain_word (wordsFrom text).
Proof. exact wordsFrom_all_plain. Qed.

Lemma replace_runs_kept (s : string) (b : bool) :
  all_chars (fun c => negb (is_dropped c)) s = true ->
  replace_runs_from is_dropped b s = s.
Proof.
  revert b. induction s as [|c s IH]; intros b H; [reflexivity|].
  simpl in *. apply andb_prop in H. destruct H as [Hc Hs].
  apply negb_true_iff in Hc. rewrite Hc, (IH false Hs). reflexivity.
Qed.

Lemma all_chars_weaken (p q : ascii -> bool) (s : string) :
  (forall c, p c = true -> q c = true) ->
  all_chars p s = true -> all_chars q s = true.
Proof.
  intros Hpq. induction s as [|c s IH]; [reflexivity|].
  simpl. intros H. apply andb_prop in H. destruct H as [Hc Hs].
  rewrite (Hpq c Hc), (IH Hs). reflexivity.
Qed.

Lemma all_chars_app (p : ascii -> bool) (a b : string) :
  all_chars p (a ++ b) = all_chars p a && all_chars p b.
Proof.
  induction a as [|c a IH]; simpl; [reflexivity|].
  rewrite IH. now rewrite andb_assoc.
Qed.

Lemma join_plain_chars (ws : list string) :
  Forall plain_word ws ->
  all_chars (fun c => negb (is_dropped c)) (JS.join " " ws) = true.
Proof.
  assert (Hk : forall w, all_chars is_kept w = true ->
                         all_chars (fun c => negb (is_dropped c)) w = true).
  { intros w. apply all_chars_weaken. intros c Hc.
    unfold is_dropped. rewrite Hc. reflexivity. }
  induction 1 as [|x ws [_ Hx] Hws IH]; [reflexivity|].
  destruct ws as [|y ws]; [apply Hk; exact Hx|].
  change (JS.join " " (x :: y :: ws))
    with (x ++ String " " (JS.join " " (y :: ws)))%string.
  rewrite all_chars_app, (Hk x Hx). simpl. exact IH.
Qed.

(** Cutting words joined by single spaces gives the words back. *)
Theorem wordsFrom_join :
  forall (ws : list string),
    Forall plain_word ws -> wordsFrom (JS.join " " ws) = ws.
Proof.
  intros ws Hws. rewrite wordsFrom_haikuWords. unfold replace_runs.
  rewrite (replace_runs_kept _ false (join_plain_chars ws Hws)).
  unfold haikuWords, JS.split_spaces.
  assert (Hs : Forall (fun w => spaceless w = true) ws).
  { apply Forall_forall. intros w Hw. rewrite Forall_forall in Hws.
    apply all_kept_spaceless. apply (Hws w Hw). }
  rewrite (words_join ws false Hs).
  clear Hs. induction Hws as [|x ws [Hx _] Hws IH]; [reflexivity|].
  simpl. destruct x; [congruence|]. simpl. now rewrite IH.
Qed.

Lemma wordsFrom_join_witness :
  Forall plain_word ["don't"; "half-way"; "x_1"]
  /\ wordsFrom (JS.join " " ["don't"; "half-way"; "x_1"])
     = ["don't"; "half-way"; "x_1"].
Proof.
  assert (H : Forall plain_word ["don't"; "half-way"; "x_1"])
    by (repeat constructor; discriminate).
  split; [exact H|]. exact (wordsFrom_join _ H).
Defined.

Lemma Forall_firstn_part {A} (P : A -> Prop) (n : nat) (l : list A) :
  Forall P l -> Forall P (firstn n l).
Proof.
  intros H. revert n. induction H as [|x l Hx Hl IH]; intros [|n]; simpl;
    constructor; auto.
Qed.

Lemma Forall_skipn_part {A} (P : A -> Prop) (n : nat) (l : list A) :
  Forall P l -> Forall P (skipn n l).
Proof.
  intros H. revert n. induction H as [|x l Hx Hl IH]; intros [|n]; simpl;
    try constructor; auto.
Qed.

Lemma skipn_add {A} (m n : nat) (l : list A) :
  skipn n (skipn m l) = skipn (m + n) l.
Proof.
  revert l. induction m as [|m IH]; intros l; [reflexivity|].
  destruct l as [|x l]; simpl; [now destruct n|apply IH].
Qed.

(** [slice] between two indices that are not negative. *)
Lemma slice_from_to {A} (arr : list A) (a b : nat) :
  a <= b ->
  slice arr (Z.of_nat a) (Z.of_nat b) = firstn (b - a) (skipn a arr).
Proof.
  intros Hab. unfold slice. cbv zeta.
  destruct (Z.ltb_spec (Z.of_nat a) 0); [lia|].
  destruct (Z.ltb_spec (Z.of_nat b) 0); [lia|].
  set (len := List.length arr).
  destruct (Nat.le_gt_cases a len) as [Ha|Ha].
  - rewrite (Z.min_l (Z.of_nat a)) by lia. rewrite Nat2Z.id.
    destruct (Nat.le_gt_cases b len) as [Hb|Hb].
    + rewrite (Z.min_l (Z.of_nat b)) by lia. f_equal. lia.
    + rewrite (Z.min_r (Z.of_nat b)) by lia.
      rewrite !firstn_all2; [reflexivity| |]; rewrite length_skipn;
        fold len; lia.
  - rewrite (Z.min_r (Z.of_nat a)) by lia. rewrite Nat2Z.id.
    rewrite (skipn_all2 (n := len)) by (unfold len; lia).
    rewrite (skipn_all2 (n := a)) by (fold len; lia).
    now rewrite !firstn_nil.
Qed.

Lemma trimStart_join (ws : list string) :
  Forall plain_word ws -> trimStart (JS.join " " ws) = JS.join " " ws.
Proof.
  intros H. destruct H as [|x ws [Hne Hx] Hws]; [reflexivity|].
  destruct x as [|c x]; [congruence|].
  simpl in Hx. apply andb_prop in Hx. destruct Hx as [Hc _].
  apply is_kept_not_space in Hc.
  destruct ws; cbn [JS.join append trimStart]; now rewrite Hc.
Qed.

Lemma trimEnd_join (ws : list string) :
  Forall plain_word ws -> trimEnd (JS.join " " ws) = JS.join " " ws.
Proof.
  induction 1 as [|x ws [Hne Hx] Hws IH]; [reflexivity|].
  destruct ws as [|y ws].
  - apply trimEnd_spaceless. apply all_kept_spaceless. exact Hx.
  - change (JS.join " " (x :: y :: ws))
      with (x ++ String " " (JS.join " " (y :: ws)))%string.
    rewrite trimEnd_app. cbn [trimEnd]. rewrite IH.
    assert (Hj : JS.join " " (y :: ws) <> EmptyString).
    { inversion Hws as [|? ? [Hy _] _]; subst.
      destruct y; [congruence|]. destruct ws; discriminate. }
    destruct (JS.join " " (y :: ws)); [congruence|reflexivity].
Qed.

Lemma trim_join (ws : list string) :
  Forall plain_word ws -> trim (JS.join " " ws) = JS.join " " ws.
Proof.
  intros H. unfold trim. now rewrite (trimStart_join ws H), trimEnd_join.
Qed.

Lemma filter_truthy_plain (ws : list string) :
  Forall plain_word ws -> filter JS.truthy ws = ws.
Proof.
  induction 1 as [|x ws [Hne _] Hws IH]; [reflexivity|].
  simpl. destruct x; [congruence|]. simpl. now rewrite IH.
Qed.

Lemma plain_spaceless (ws : list string) :
  Forall plain_word ws -> Forall (fun w => spaceless w = true) ws.
Proof.
  intros H. apply Forall_forall. intros w Hw. rewrite Forall_forall in H.
  apply all_kept_spaceless. apply (H w Hw).
Qed.

(** On a text of at least five words and for a seed that is not negative,
    [simpleHaikuFrom] shows a window of consecutive words of the text: it
    starts at the word number [seed mod (maxStart + 1)], is 17 words long
    when the text has that many and is the whole text otherwise, and is
    cut into lines of 5, 7 and 5 words, the last ones shorter or empty when
    the words run out. *)
Theorem simpleHaikuFrom_window :
  forall (text : string) (seed : Z),
    5 <= List.length (wordsFrom text) ->
    (0 <= seed)%Z ->
    let w := wordsFrom text in
    let start :=
      Z.to_nat (seed mod (Z.max 0 (Z.of_nat (List.length w) - 17) + 1)) in
    let window := firstn 17 (skipn start w) in
    simpleHaikuFrom text seed
    = JS.join (String newline "")
              [JS.join " " (firstn 5 window);
               JS.join " " (firstn 7 (skipn 5 window));
               JS.join " " (firstn 5 (skipn 12 window))]
    /\ haikuWords (simpleHaikuFrom text seed) = window
    /\ List.length window = Nat.min 17 (List.length w)
    /\ start + List.length window <= List.length w.
Proof.
  intros text seed Hlen Hseed w start window.
  pose proof (wordsFrom_all_plain text) as Hplain. fold w in Hplain, Hlen.
  assert (Hwin : Forall plain_word window)
    by (apply Forall_firstn_part, Forall_skipn_part; exact Hplain).
  set (m := Z.max 0 (Z.of_nat (List.length w) - 17)) in *.
  assert (Hm : (0 <= m)%Z) by (unfold m; lia).
  assert (Hstart : (0 <= seed mod (m + 1) <= m)%Z)
    by (pose proof (Z.mod_pos_bound seed (m + 1) ltac:(lia)); lia).
  assert (Hjs : (if (m =? 0)%Z then 0%Z else Z.rem seed (m + 1))
                = Z.of_nat start).
  { unfold start. rewrite Z2Nat.id by lia.
    destruct (Z.eqb_spec m 0) as [E|E].
    - rewrite E. simpl. now rewrite Z.mod_1_r.
    - apply Z.rem_mod_nonneg; lia. }
  assert (Hshape :
    simpleHaikuFrom text seed
    = JS.join (String newline "")
              [JS.join " " (firstn 5 window);
               JS.join " " (firstn 7 (skipn 5 window));
               JS.join " " (firstn 5 (skipn 12 window))]).
  { unfold simpleHaikuFrom. fold w.
    destruct (Nat.ltb_spec (List.length w) 5) as [H|_]; [lia|].
    cbv zeta. change (fold_left Nat.add [5; 7; 5] 0) with 17.
    change (Z.max 0 (Z.of_nat (List.length w) - Z.of_nat 17)) with m.
    rewrite Hjs.
    assert (Hsl : slice w (Z.of_nat start) (Z.of_nat start + Z.of_nat 17)
                  = window).
    { rewrite <- Nat2Z.inj_add.
      rewrite (slice_from_to w start (start + 17)) by lia.
      replace (start + 17 - start) with 17 by lia. reflexivity. }
    rewrite Hsl. clear Hsl. clearbody window.
    unfold linesFromWords. cbn [linesFromWords_from nth map].
    change (slice window 0 (0 + Z.of_nat 5))
      with (slice window (Z.of_nat 0) (Z.of_nat 5)).
    change (slice window (0 + Z.of_nat 5) (0 + Z.of_nat 5 + Z.of_nat 7))
      with (slice window (Z.of_nat 5) (Z.of_nat 12)).
    change (slice window (0 + Z.of_nat 5 + Z.of_nat 7)
                  (0 + Z.of_nat 5 + Z.of_nat 7 + Z.of_nat 5))
      with (slice window (Z.of_nat 12) (Z.of_nat 17)).
    rewrite !slice_from_to by lia.
    change (5 - 0) with 5. change (12 - 5) with 7. change (17 - 12) with 5.
    change (skipn 0 window) with window.
    rewrite !trim_join
      by (repeat first [exact Hwin|apply Forall_firstn_part
                        |apply Forall_skipn_part]).
    reflexivity. }
  assert (Hlw : List.length window = Nat.min 17 (List.length w)).
  { unfold window. rewrite length_firstn, length_skipn.
    assert (Hs : start <= List.length w - 17) by (unfold start, m in *; lia).
    lia. }
  split; [exact Hshape|]. split; [|split].
  - rewrite Hshape.
    rewrite haikuWords_three_lines
      by (apply plain_spaceless;
          repeat first [exact Hwin|apply Forall_firstn_part
                        |apply Forall_skipn_part]).
    rewrite !filter_truthy_plain
      by (repeat first [exact Hwin|apply Forall_firstn_part
                        |apply Forall_skipn_part]).
    rewrite <- (firstn_skipn 5 window) at 4.
    f_equal.
    rewrite <- (firstn_skipn 7 (skipn 5 window)) at 2.
    f_equal. rewrite skipn_add. cbn [Nat.add].
    apply firstn_all2. rewrite length_skipn. lia.
  - exact Hlw.
  - unfold start, m in *. lia.
Qed.

Lemma simpleHaikuFrom_window_witness :
  let text := "a b c d e f g h i j k l m n o p q r s t u v w" in
  5 <= List.length (wordsFrom text)
  /\ (0 <= 13)%Z
  /\ haikuWords (simpleHaikuFrom text 13)
     = ["g"; "h"; "i"; "j"; "k"; "l"; "m"; "n"; "o"; "p"; "q"; "r"; "s";
        "t"; "u"; "v"; "w"].
Proof.
  intros text.
  assert (H : 5 <= List.length (wordsFrom text))
    by (vm_compute; repeat constructor).
  split; [exact H|]. split; [lia|].
  rewrite (proj1 (proj2 (simpleHaikuFrom_window text 13 H ltac:(lia)))).
  vm_compute. reflexivity.
Defined.

(** A text of at most 17 words gives the same haiku for every seed: the
    seed only chooses where a window of 17 words starts in a longer text.
    The three haikus shown for such a text, of the seeds 0, 7 and 13, are
    one and the same. *)
Theorem simpleHaikuFrom_short_text :
  forall (text : string) (seed seed' : Z),
    List.length (wordsFrom text) <= 17 ->
    simpleHaikuFrom text seed = simpleHaikuFrom text seed'.
Proof.
  intros text seed seed' Hlen. unfold simpleHaikuFrom. cbv zeta.
  destruct (List.length (wordsFrom text) <? 5); [reflexivity|].
  change (fold_left Nat.add [5; 7; 5] 0) with 17.
  replace (Z.max 0 (Z.of_nat (List.length (wordsFrom text)) - Z.of_nat 17))
    with 0%Z by lia.
  reflexivity.
Qed.

Lemma simpleHaikuFrom_short_text_witness :
  List.length (wordsFrom "the waves crashed on the warm sand") <= 17
  /\ simpleHaikuFrom "the waves crashed on the warm sand" 7
     = simpleHaikuFrom "the waves crashed on the warm sand" 13.
Proof.
  assert (H : List.length (wordsFrom "the waves crashed on the warm sand")
              <= 17) by (vm_compute; repeat constructor).
  split; [exact H|].
  exact (simpleHaikuFrom_short_text _ 7 13 H).
Defined.
